(** * KeyStudio-to-OpenAI conversion engine: a shallow embedding of script.js

    The development follows the conversion part of [script.js]:
    [convertTools] (with its local [normalizeSchema]), [buildToolNameMap],
    [convertMessageContent] and [convertMessages], and the generators
    [generateRequestBody], [generateCurlCommand], [generatePowerShellCommand]
    and [generateCurl]. What reads or writes the page ([validateJSON],
    [getConfig] and the interface helpers) is not modelled: [generateCurl]
    takes the parsed inputs and the configuration as arguments.

    Conventions of the embedding.
    - A JavaScript string is its sequence of UTF-16 code units.
    - A JavaScript value is what [JSON.parse] can produce, plus [undefined].
      An object is the ordered list of its own enumerable properties, in
      the order [Object.keys] lists them; [JSON.parse] and the spread
      [{ ...node }] make [__proto__] an own property like any other.
    - The prototype of a parsed object or of a copy is [Object.prototype],
      which has none of the properties the source reads by name, so those
      reads are reads of own properties. Where the source reaches
      [Object.prototype] it is modelled: the conversion of an object to a
      string or a property key, an assignment under the key [__proto__] to
      an object literal, and the reads of the name map, which find what
      the map inherits.
    - A number is kept abstract: the code under study only tests numbers for
      truthiness and prints them.
    - A thrown [TypeError] (a property read on [null] or [undefined], an
      object that cannot be converted to a string) is the [TypeError]
      outcome of the [result] monad.
    - [Date.now()] is a clock the caller supplies.
    - Where mutation matters, [normalizeSchema] is modelled a second time
      over a store of objects, and the two models are related. *)

From Stdlib Require Import ZArith NArith Ascii String DecimalString DecimalNat.
From stdpp Require Import gmap list.

Set Warnings "-register-all".
Open Scope list_scope.

(** ** Strings *)

Abbreviation jsstring := (list N).

Definition js (s : string) : jsstring := N_of_ascii <$> list_ascii_of_string s.
Arguments js s%_string.

Definition str_eqb (a b : jsstring) : bool := bool_decide (a = b).

Definition dec_nat (n : nat) : jsstring := js (NilZero.string_of_uint (Nat.to_uint n)).
Definition dec_Z (z : Z) : jsstring := js (NilZero.string_of_int (Z.to_int z)).

Definition is_digit (c : N) : Prop := (48 ≤ c ≤ 57)%N.

(** The one property name that [Object.prototype] answers with a setter. *)
Definition proto_key : jsstring := js "__proto__".

(** [Array.prototype.join] on strings. *)
Fixpoint join (sep : jsstring) (parts : list jsstring) : jsstring :=
  match parts with
  | [] => []
  | [p] => p
  | p :: rest => p ++ sep ++ join sep rest
  end.

(** The code units [String.prototype.trim] strips: WhiteSpace and
    LineTerminator of ECMA-262. *)
Definition is_space (c : N) : bool :=
  ((9 <=? c) && (c <=? 13) || (c =? 32) || (c =? 160) || (c =? 5760)
   || (8192 <=? c) && (c <=? 8202) || (c =? 8232) || (c =? 8233)
   || (c =? 8239) || (c =? 8287) || (c =? 12288) || (c =? 65279))%N.

Fixpoint trim_start (s : jsstring) : jsstring :=
  match s with
  | c :: s' => if is_space c then trim_start s' else s
  | [] => []
  end.

Definition trim (s : jsstring) : jsstring :=
  reverse (trim_start (reverse (trim_start s))).

(** ** The regular expression [/Executed \*\*([^*]+)\*\*/i] *)

Definition star : N := 42%N.

(** Case-insensitive comparison of a subject code unit with a pattern
    letter: without the [u] flag only the ASCII letters fold. *)
Definition fold_case (c : N) : N :=
  if ((97 <=? c) && (c <=? 122))%N then (c - 32)%N else c.

Fixpoint strip_prefix_ci (pat s : jsstring) : option jsstring :=
  match pat, s with
  | [], _ => Some s
  | p :: pat', c :: s' =>
      if (fold_case p =? fold_case c)%N then strip_prefix_ci pat' s' else None
  | _ :: _, [] => None
  end.

Fixpoint span_no_star (s : jsstring) : jsstring * jsstring :=
  match s with
  | c :: s' =>
      if (c =? star)%N then ([], s)
      else let '(a, b) := span_no_star s' in (c :: a, b)
  | [] => ([], [])
  end.

(** A match that starts at the head of [s]; the result is capture group 1.
    The class [[^*]+] is greedy and cannot give a star back, so the only
    candidate is the maximal star-free run. *)
Definition executed_at (s : jsstring) : option jsstring :=
  rest ← strip_prefix_ci (js "Executed **") s;
  let '(name, after) := span_no_star rest in
  match name, after with
  | _ :: _, a :: b :: _ => if ((a =? star) && (b =? star))%N then Some name else None
  | _, _ => None
  end.

(** [nextContent.match(/Executed \*\*([^*]+)\*\*/i)]: leftmost match. *)
Fixpoint match_executed (s : jsstring) : option jsstring :=
  match executed_at s with
  | Some name => Some name
  | None => match s with
            | _ :: s' => match_executed s'
            | [] => None
            end
  end.

(** ** Numbers *)

(** The numbers of a parsed JSON document are finite, so [String] and
    [JSON.stringify] print a number the same way. *)
Class JsNumber := {
  number : Type;
  number_truthy : number → bool;    (* the number is not 0 *)
  number_text : number → jsstring;  (* Number::toString *)
  number_of_nat : nat → number      (* the length of an array *)
}.

(** Integers below 10^21 in absolute value print in plain decimal. *)
Definition Z_number : JsNumber :=
  {| number := Z; number_truthy := fun z => negb (z =? 0)%Z; number_text := dec_Z;
     number_of_nat := Z.of_nat |}.

(** ** The built-in prototypes

    [Object.prototype] has had the same properties in every edition of the
    language since the sixth: eleven functions and the accessor
    [__proto__]. The properties of [Array.prototype] depend on the edition
    the engine implements, so they are a parameter. *)
Definition object_prototype_functions : list jsstring :=
  [js "constructor"; js "__defineGetter__"; js "__defineSetter__";
   js "hasOwnProperty"; js "__lookupGetter__"; js "__lookupSetter__";
   js "isPrototypeOf"; js "propertyIsEnumerable"; js "toString"; js "valueOf";
   js "toLocaleString"].

Class JsEngine := {
  array_prototype_has : jsstring → bool  (* [Array.prototype] has the property *)
}.

(** The fourteenth edition. *)
Definition es2023 : JsEngine :=
  {| array_prototype_has := fun k =>
       bool_decide (k ∈ [js "at"; js "concat"; js "constructor"; js "copyWithin";
                         js "entries"; js "every"; js "fill"; js "filter"; js "find";
                         js "findIndex"; js "findLast"; js "findLastIndex"; js "flat";
                         js "flatMap"; js "forEach"; js "includes"; js "indexOf";
                         js "join"; js "keys"; js "lastIndexOf"; js "length"; js "map";
                         js "pop"; js "push"; js "reduce"; js "reduceRight";
                         js "reverse"; js "shift"; js "slice"; js "some"; js "sort";
                         js "splice"; js "toLocaleString"; js "toReversed";
                         js "toSorted"; js "toSpliced"; js "toString"; js "unshift";
                         js "values"; js "with"]) |}.

(** ** The error monad *)

Inductive result (A : Type) : Type :=
| Ok (a : A)
| TypeError.
Arguments Ok {A} a.
Arguments TypeError {A}.

Global Instance result_ret : MRet result := fun A a => Ok a.
Global Instance result_bind : MBind result := fun A B f r =>
  match r with
  | Ok a => f a
  | TypeError => TypeError
  end.

(** [Array.prototype.map] with a callback that may throw; the callback also
    receives the index. *)
Fixpoint mapi_res {A B} (f : nat → A → result B) (idx : nat) (l : list A)
  : result (list B) :=
  match l with
  | [] => Ok []
  | a :: l' => b ← f idx a; bs ← mapi_res f (S idx) l'; Ok (b :: bs)
  end.

Definition map_res {A B} (f : A → result B) (l : list A) : result (list B) :=
  mapi_res (fun _ => f) 0 l.

(** The same pass, for a callback that is the function being defined. *)
Definition each_res {A B} (f : A → result B) : list A → result (list B) :=
  fix go l :=
    match l with
    | [] => Ok []
    | a :: l' => b ← f a; bs ← go l'; Ok (b :: bs)
    end.

(** ** Values *)

Section Values.
Context {JN : JsNumber}.

Inductive value : Type :=
| VUndef
| VNull
| VBool (b : bool)
| VNum (n : number)
| VStr (s : jsstring)
| VArr (elems : list value)
| VObj (props : list (jsstring * value)).

(** ToBoolean. *)
Definition truthy (v : value) : bool :=
  match v with
  | VUndef | VNull => false
  | VBool b => b
  | VNum n => number_truthy n
  | VStr s => negb (bool_decide (s = []))
  | VArr _ | VObj _ => true
  end.

(** [a || b] *)
Definition or_else (a b : value) : value := if truthy a then a else b.

Definition nullish (v : value) : bool :=
  match v with
  | VUndef | VNull => true
  | _ => false
  end.

(** [typeof v === 'object'] *)
Definition typeof_object (v : value) : bool :=
  match v with
  | VNull | VArr _ | VObj _ => true
  | _ => false
  end.

(** [typeof v === 'string'] *)
Definition typeof_string (v : value) : bool :=
  match v with
  | VStr _ => true
  | _ => false
  end.

(** [v === 'lit'] *)
Definition is_str (v : value) (lit : jsstring) : bool :=
  match v with
  | VStr s => str_eqb s lit
  | _ => false
  end.

(** [v === false] *)
Definition is_false (v : value) : bool :=
  match v with
  | VBool false => true
  | _ => false
  end.

(** Own property of an object, [undefined] when missing. *)
Fixpoint lookup_prop (k : jsstring) (props : list (jsstring * value)) : value :=
  match props with
  | [] => VUndef
  | (k', v) :: rest => if str_eqb k k' then v else lookup_prop k rest
  end.

(** [v.k] for a value [v] that is not [null] or [undefined] and a name [k]
    that is neither an array index nor [length] nor a property of a
    built-in prototype: every property name the source spells out is of
    that kind, so the read finds an own property of an object and gives
    [undefined] on an array, a string, a number or a boolean. *)
Definition get (v : value) (k : jsstring) : value :=
  match v with
  | VObj props => lookup_prop k props
  | _ => VUndef
  end.

(** [v?.k] *)
Definition get_opt (v : value) (k : jsstring) : value :=
  if nullish v then VUndef else get v k.

(** [obj.k = v] on the own properties of [obj]: an existing property keeps
    its place, a new one goes last. *)
Fixpoint set_prop (k : jsstring) (v : value) (props : list (jsstring * value))
  : list (jsstring * value) :=
  match props with
  | [] => [(k, v)]
  | (k', v') :: rest =>
      if str_eqb k k' then (k', v) :: rest else (k', v') :: set_prop k v rest
  end.

(** The own enumerable properties of an array: its elements under their
    indices. *)
Definition index_entries (elems : list value) : list (jsstring * value) :=
  imap (fun i v => (dec_nat i, v)) elems.

(** [Object.entries(v)] for [v] of type object (not [null]). *)
Definition entries (v : value) : list (jsstring * value) :=
  match v with
  | VObj props => props
  | VArr elems => index_entries elems
  | _ => []
  end.

(** [Object.keys(v)] *)
Definition keys (v : value) : list jsstring := fst <$> entries v.

(** ToString, also ToPropertyKey, the conversion of a value used as a
    property key. An array is converted by [Array.prototype.join]. An
    object is converted by the [toString] it has: the one it inherits
    answers ["[object Object]"]; an own property [toString] hides it and,
    being no function, leaves the object without a conversion, [valueOf]
    returning the object itself. *)
Fixpoint to_string (v : value) : result jsstring :=
  match v with
  | VUndef => Ok (js "undefined")
  | VNull => Ok (js "null")
  | VBool true => Ok (js "true")
  | VBool false => Ok (js "false")
  | VNum n => Ok (number_text n)
  | VStr s => Ok s
  | VArr elems =>
      parts ← each_res (fun e => if nullish e then Ok [] else to_string e) elems;
      Ok (join (js ",") parts)
  | VObj props =>
      if bool_decide (js "toString" ∈ props.*1) then TypeError
      else Ok (js "[object Object]")
  end.

(** [`${v}`] for a value that is a string or [undefined]. *)
Definition template_text (v : value) : jsstring :=
  match v with
  | VStr s => s
  | _ => js "undefined"
  end.

(** *** [JSON.stringify] *)

Definition hex_digit (d : N) : N :=
  (if d <? 10 then 48 + d else 87 + d)%N.

Definition unicode_escape (c : N) : jsstring :=
  js "\u" ++ [hex_digit (c / 4096 mod 16); hex_digit (c / 256 mod 16);
              hex_digit (c / 16 mod 16); hex_digit (c mod 16)]%N.

Definition is_high_surrogate (c : N) : bool := ((55296 <=? c) && (c <=? 56319))%N.
Definition is_low_surrogate (c : N) : bool := ((56320 <=? c) && (c <=? 57343))%N.

Definition escape_unit (c : N) : jsstring :=
  if (c =? 8)%N then js "\b"
  else if (c =? 9)%N then js "\t"
  else if (c =? 10)%N then js "\n"
  else if (c =? 12)%N then js "\f"
  else if (c =? 13)%N then js "\r"
  else if (c =? 34)%N then [92; 34]%N
  else if (c =? 92)%N then [92; 92]%N
  else if (c <? 32)%N || is_high_surrogate c || is_low_surrogate c
       then unicode_escape c
  else [c].

Fixpoint quote_body (s : jsstring) : jsstring :=
  match s with
  | [] => []
  | c :: s' =>
      if is_high_surrogate c then
        match s' with
        | d :: s'' =>
            if is_low_surrogate d then c :: d :: quote_body s''
            else unicode_escape c ++ quote_body s'
        | [] => unicode_escape c
        end
      else escape_unit c ++ quote_body s'
  end.

(** QuoteJSONString *)
Definition quote (s : jsstring) : jsstring := [34%N] ++ quote_body s ++ [34%N].

(** SerializeJSONProperty without indentation: [None] is [undefined]. *)
Fixpoint serialize (v : value) : option jsstring :=
  match v with
  | VUndef => None
  | VNull => Some (js "null")
  | VBool true => Some (js "true")
  | VBool false => Some (js "false")
  | VNum n => Some (number_text n)
  | VStr s => Some (quote s)
  | VArr elems =>
      Some (js "[" ++ join (js ",")
              (map (fun e => default (js "null") (serialize e)) elems) ++ js "]")
  | VObj props =>
      Some (js "{" ++ join (js ",")
              (omap (fun kv => (fun s => quote kv.1 ++ js ":" ++ s) <$> serialize kv.2)
                 props) ++ js "}")
  end.

(** [JSON.stringify(v)] as a value. *)
Definition JSON_stringify (v : value) : value :=
  from_option VStr VUndef (serialize v).

(** [JSON.stringify] of an object, which is always a string. *)
Definition stringify_object (props : list (jsstring * value)) : jsstring :=
  js "{" ++ join (js ",")
    (omap (fun kv => (fun s => quote kv.1 ++ js ":" ++ s) <$> serialize kv.2) props)
  ++ js "}".


End Values.

(** ** Tool normalizer *)

Section Tools.
Context {JN : JsNumber}.

(** [f (props.k)] when [props] has an own property [k], else [d]. *)
Definition with_prop {A} (f : value → A) (d : A) (k : jsstring)
  : list (jsstring * value) → A :=
  fix go props :=
    match props with
    | [] => d
    | (k', v) :: rest => if str_eqb k k' then f v else go rest
    end.

(** [for (const key of propKeys) normalizedProps[key] = f(props[key])] on
    the object literal [normalizedProps = {}]. Under the key [__proto__]
    the assignment reaches the setter of [Object.prototype], which gives
    the object another prototype or does nothing: no property is stored.
    Every other key becomes an own property. What [normalizedProps]
    inherits is read nowhere: [Object.keys] and [JSON.stringify] list own
    properties, and the keys read from it are taken from [Object.keys]. *)
Definition assigned_entries (f : value → value)
  : list (jsstring * value) → list (jsstring * value) :=
  omap (fun kv => if str_eqb kv.1 proto_key then None else Some (kv.1, f kv.2)).

(** The local arrow function [normalizeSchema] of [convertTools].

    [{ ...schemaNode }] copies the own properties, so the copy of an array
    is an object with its elements under their indices (and no [type]).
    The two [if] blocks of the source are exclusive, [type] being either
    ['object'] or ['array']; the recursive calls read [properties] and
    [items] off the copy, whose values are those of [schemaNode]. The
    indices of an array are never [__proto__]. *)
Fixpoint normalizeSchema (schemaNode : value) : value :=
  match schemaNode with
  | VObj normalized =>
      if is_str (lookup_prop (js "type") normalized) (js "object") then
        let properties := lookup_prop (js "properties") normalized in
        let props :=
          if truthy properties && typeof_object properties then properties else VObj [] in
        let propKeys := keys props in
        let guarded :=
          if bool_decide (length propKeys = 0)
             && is_false (lookup_prop (js "additionalProperties") normalized)
          then set_prop (js "additionalProperties") (VBool true) normalized
          else normalized in
        let normalizedProps :=
          with_prop
            (fun p =>
               match p with
               | VObj entries => assigned_entries normalizeSchema entries
               | VArr elems => index_entries (map normalizeSchema elems)
               | _ => []
               end)
            [] (js "properties") normalized in
        VObj (set_prop (js "properties") (VObj normalizedProps) guarded)
      else if is_str (lookup_prop (js "type") normalized) (js "array")
              && truthy (lookup_prop (js "items") normalized) then
        VObj (set_prop (js "items")
                (with_prop normalizeSchema VUndef (js "items") normalized) normalized)
      else VObj normalized
  | VArr elems => VObj (index_entries elems)
  | _ => schemaNode
  end.

(** [{ type: 'object', properties: {}, required: [] }] *)
Definition default_parameters : value :=
  VObj [(js "type", VStr (js "object")); (js "properties", VObj []);
        (js "required", VArr [])].

(** The test of the pass-through branch. *)
Definition target_shaped (tool : value) : bool :=
  is_str (get tool (js "type")) (js "function") && truthy (get tool (js "function")).

(** The callback of [inputTools.map]. *)
Definition convertTool (tool : value) : result value :=
  if nullish tool then TypeError
  else if target_shaped tool then Ok tool
  else
    let functionName :=
      or_else (get tool (js "alias"))
        (or_else (get tool (js "name")) (VStr (js "unknown_function"))) in
    let description := or_else (get tool (js "description")) (VStr []) in
    let parameters :=
      if truthy (get tool (js "config"))
         && truthy (get (get tool (js "config")) (js "schema"))
      then normalizeSchema (get (get tool (js "config")) (js "schema"))
      else if truthy (get tool (js "function"))
              && truthy (get (get tool (js "function")) (js "parameters"))
      then normalizeSchema (get (get tool (js "function")) (js "parameters"))
      else default_parameters in
    Ok (VObj [(js "type", VStr (js "function"));
              (js "function",
               VObj [(js "name", functionName); (js "description", description);
                     (js "parameters", parameters)])]).

Definition convertTools (inputTools : list value) : result (list value) :=
  map_res convertTool inputTools.

(** ** Name resolver *)

(** The name map is the object literal [map = {}]: its own properties and
    its prototype, which an assignment under [__proto__] can replace by an
    object or an array of the input, or by [null]. *)
Inductive map_proto :=
| ObjectPrototype
| NoPrototype
| ParsedObject (props : list (jsstring * value))
| ParsedArray (elems : list value).

Record name_map := NameMap {
  own : gmap jsstring value;
  proto : map_proto
}.

(** What a read of a property of the name map can yield: a value of the
    input, a built-in function, or [Object.prototype] itself. *)
Inductive looked_up :=
| Parsed (v : value)
| Builtin (k : jsstring)
| ObjectProto.

Definition found_truthy (x : looked_up) : bool :=
  match x with
  | Parsed v => truthy v
  | Builtin _ | ObjectProto => true
  end.

Definition found_nullish (x : looked_up) : bool :=
  match x with
  | Parsed v => nullish v
  | Builtin _ | ObjectProto => false
  end.

(** [x || v] *)
Definition or_found (x : looked_up) (v : value) : looked_up :=
  if found_truthy x then x else Parsed v.

(** What [JSON.stringify] makes of it: a function is left out as
    [undefined] is, and [Object.prototype] has no enumerable property. *)
Definition as_json (x : looked_up) : value :=
  match x with
  | Parsed v => v
  | Builtin _ => VUndef
  | ObjectProto => VObj []
  end.

Section NameMap.
Context {JE : JsEngine}.

(** A read that has come to [Object.prototype]; [receiver_proto] is the
    prototype of the object the read started from, which the getter of
    [__proto__] answers. *)
Definition object_prototype_get (receiver_proto : looked_up) (k : jsstring)
  : looked_up :=
  if str_eqb k proto_key then receiver_proto
  else if bool_decide (k ∈ object_prototype_functions) then Builtin k
  else Parsed VUndef.

(** [map[k]] for a property key [k]: the own property, or what the
    prototype chain has under [k]. *)
Definition map_get (m : name_map) (k : jsstring) : looked_up :=
  match own m !! k with
  | Some v => Parsed v
  | None =>
      match proto m with
      | ObjectPrototype => object_prototype_get ObjectProto k
      | NoPrototype => Parsed VUndef
      | ParsedObject props =>
          if bool_decide (k ∈ props.*1) then Parsed (lookup_prop k props)
          else object_prototype_get (Parsed (VObj props)) k
      | ParsedArray elems =>
          if bool_decide (k ∈ (index_entries elems).*1)
          then Parsed (lookup_prop k (index_entries elems))
          else if str_eqb k (js "length")
          then Parsed (VNum (number_of_nat (length elems)))
          else if array_prototype_has k then Builtin k
          else object_prototype_get (Parsed (VArr elems)) k
      end
  end.

End NameMap.

(** [map[k] = v] for a property key [k]. The key [__proto__] reaches the
    setter of [Object.prototype], unless the map has a property of that
    name before [Object.prototype] does (its own, or an own property of
    the object that has become its prototype) or has no prototype left.
    The setter makes an object, an array or [null] the prototype of the
    map and ignores any other value. *)
Definition shadowed (m : name_map) : bool :=
  bool_decide (is_Some (own m !! proto_key))
  || match proto m with
     | ParsedObject props => bool_decide (proto_key ∈ props.*1)
     | NoPrototype => true
     | _ => false
     end.

Definition map_set (k : jsstring) (v : value) (m : name_map) : name_map :=
  if str_eqb k proto_key && negb (shadowed m) then
    match v with
    | VObj props => NameMap (own m) (ParsedObject props)
    | VArr elems => NameMap (own m) (ParsedArray elems)
    | VNull => NameMap (own m) NoPrototype
    | _ => m
    end
  else NameMap (<[k := v]> (own m)) (proto m).

(** [map[key] = v], the key being converted first. *)
Definition assign (key v : value) (m : name_map) : result name_map :=
  k ← to_string key; Ok (map_set k v m).

(** One iteration of the loop of [buildToolNameMap]. *)
Definition nameMapStep (m : name_map) (tool : value) : result name_map :=
  if nullish tool then TypeError
  else if target_shaped tool && truthy (get (get tool (js "function")) (js "name")) then
    let fname := get (get tool (js "function")) (js "name") in
    assign fname fname m
  else
    let finalName :=
      or_else (get tool (js "alias"))
        (or_else (get tool (js "name")) (VStr (js "unknown_function"))) in
    m1 ← (if truthy (get tool (js "name"))
          then assign (get tool (js "name")) finalName m else Ok m);
    if truthy (get tool (js "alias"))
    then assign (get tool (js "alias")) finalName m1 else Ok m1.

Fixpoint nameMapLoop (m : name_map) (inputTools : list value) : result name_map :=
  match inputTools with
  | [] => Ok m
  | tool :: rest => m' ← nameMapStep m tool; nameMapLoop m' rest
  end.

(** [const map = {}] *)
Definition empty_map : name_map := NameMap ∅ ObjectPrototype.

Definition buildToolNameMap (inputTools : list value) : result name_map :=
  nameMapLoop empty_map inputTools.

End Tools.

(** ** Message reconstructor *)

Section Messages.
Context {JN : JsNumber}.

(** [convertMessageContent]. An element of a content array that is [null]
    or [undefined] makes [item.type] throw, in the pass of [filter]; the
    texts that pass are converted to strings by [join], which throws on
    one that has no conversion. In the last case the content is
    [undefined], [null], a boolean or a number. *)
Definition convertMessageContent (content : value) : result jsstring :=
  match content with
  | VStr s => Ok s
  | VArr items =>
      checked ← map_res (fun item => if nullish item then TypeError else Ok item) items;
      let kept :=
        filter (fun item => is_str (get item (js "type")) (js "text")
                              && truthy (get item (js "text")) = true) checked in
      texts ← map_res (fun item => to_string (get item (js "text"))) kept;
      Ok (join ([10%N]) texts)
  | VObj props => Ok (stringify_object props)
  | _ => to_string (or_else content (VStr []))
  end.

(** An entry of the emitted [tool_calls]; its [type] is always ['function'].
    The name is the raw name or what the name map has answered. *)
Record tool_call := ToolCall {
  call_id : value;
  call_name : looked_up;
  call_arguments : value
}.

(** The three object literals [convertMessages] pushes. *)
Inductive converted :=
| AssistantCalls (content : jsstring) (tool_calls : list tool_call)
| ToolResponse (tool_call_id : value) (content : jsstring)
| Plain (role : value) (content : jsstring).

Record state := State {
  convertedMessages : list converted;
  pendingToolCallIds : list value
}.

Definition allowedRoles : list jsstring :=
  [js "system"; js "user"; js "assistant"; js "tool"; js "function"; js "developer"].

(** [allowedRoles.has(role)] *)
Definition isValidRole (role : value) : bool :=
  match role with
  | VStr r => bool_decide (r ∈ allowedRoles)
  | _ => false
  end.

(** [!content || content.trim() === ''] *)
Definition blank (content : jsstring) : bool :=
  bool_decide (content = []) || bool_decide (trim content = []).

(** [content || ''] on a string. *)
Definition or_empty (content : jsstring) : jsstring :=
  if bool_decide (content = []) then [] else content.

Section Run.
(** [clock i idx] is what [Date.now()] returns when the call at position
    [idx] of message [i] has no id of its own. *)
Variable clock : nat → nat → Z.
Variable inputMessages : list value.
(** [toolNameMap k] is what the read [toolNameMap[k]] yields. *)
Variable toolNameMap : jsstring → looked_up.

(** The callback of [msg.tool_calls.map] in iteration [i]. The two reads
    [toolNameMap[rawName]] convert the raw name to a property key; the
    second conversion repeats the first or converts a string. *)
Definition normalizeToolCall (i idx : nat) (call : value) : result tool_call :=
  if nullish call then TypeError
  else
    let callId :=
      or_else (get call (js "id"))
        (VStr (js "call_" ++ dec_Z (clock i idx) ++ js "_" ++ dec_nat i
               ++ js "_" ++ dec_nat idx)) in
    let '(rawName, rawArgs) := (VStr [], VObj []) in
    let '(rawName, rawArgs) :=
      if truthy (get call (js "name"))
      then (get call (js "name"), or_else (get call (js "args")) (VObj []))
      else (rawName, rawArgs) in
    let '(rawName, rawArgs) :=
      if truthy (get call (js "function"))
         && truthy (get (get call (js "function")) (js "name"))
      then (get (get call (js "function")) (js "name"),
            if typeof_string (get (get call (js "function")) (js "arguments"))
            then get (get call (js "function")) (js "arguments")
            else or_else (get (get call (js "function")) (js "arguments")) (VObj []))
      else (rawName, rawArgs) in
    key ← to_string rawName;
    rawName ←
      (let next := default VUndef (inputMessages !! (i + 1)) in
       if negb (found_truthy (toolNameMap key)) && truthy next then
         nextContent ← convertMessageContent (get next (js "content"));
         match match_executed nextContent with
         | Some name => Ok (VStr (trim name))
         | None => Ok rawName
         end
       else Ok rawName);
    key ← to_string rawName;
    let finalName := or_found (toolNameMap key) rawName in
    let argumentsString :=
      if typeof_string rawArgs then rawArgs
      else JSON_stringify (or_else rawArgs (VObj [])) in
    Ok (ToolCall callId finalName argumentsString).

(** [convertedMessages.push(m)] *)
Definition push (m : converted) (st : state) : state :=
  State (convertedMessages st ++ [m]) (pendingToolCallIds st).

(** The generic emission at the end of the loop body. *)
Definition emit_plain (finalRole : value) (content : jsstring) (st : state) : state :=
  if blank content then st else push (Plain finalRole content) st.

(** [pendingToolCallIds.shift()] followed by the push of the tool response. *)
Definition respond (toolCallId : value) (rest : list value) (content : jsstring)
    (st : state) : state :=
  State (convertedMessages st ++ [ToolResponse toolCallId (or_empty content)]) rest.

(** [Array.isArray(v) && v.length > 0] *)
Definition nonempty_array (v : value) : bool :=
  match v with
  | VArr (_ :: _) => true
  | _ => false
  end.

Definition elements (v : value) : list value :=
  match v with
  | VArr elems => elems
  | _ => []
  end.

(** One iteration of the [for] loop. The ids the [map] callback pushes on
    the queue arrive there in call order; the callback does not read the
    queue, so they are appended once the calls are normalized. *)
Definition loop_body (i : nat) (msg : value) (st : state) : result state :=
  if nullish msg then TypeError
  else
    content ← convertMessageContent (get msg (js "content"));
    if is_str (get msg (js "role")) (js "assistant")
       && nonempty_array (get msg (js "tool_calls")) then
      normalizedToolCalls ←
        mapi_res (normalizeToolCall i) 0 (elements (get msg (js "tool_calls")));
      Ok (State
            (convertedMessages st
             ++ [AssistantCalls (or_empty content) normalizedToolCalls])
            (pendingToolCallIds st ++ map call_id normalizedToolCalls))
    else
      let nodeType :=
        get_opt (get_opt (get msg (js "additional_kwargs")) (js "node_metadata"))
          (js "nodeType") in
      if isValidRole (get msg (js "role")) then
        Ok (emit_plain (get msg (js "role")) content st)
      else if truthy nodeType then
        if is_str nodeType (js "tool") || is_str nodeType (js "script") then
          match pendingToolCallIds st with
          | toolCallId :: rest => Ok (respond toolCallId rest content st)
          | [] => Ok (emit_plain (VStr (js "assistant")) content st)
          end
        else if is_str nodeType (js "llm") || is_str nodeType (js "agent") then
          Ok (emit_plain (VStr (js "assistant")) content st)
        else Ok (emit_plain (VStr (js "assistant")) content st)
      else
        match pendingToolCallIds st with
        | toolCallId :: rest => Ok (respond toolCallId rest content st)
        | [] => Ok (emit_plain (VStr (js "assistant")) content st)
        end.

(** The [for] loop from index [i] on, over the messages not yet visited. *)
Fixpoint loop (i : nat) (rest : list value) (st : state) : result state :=
  match rest with
  | [] => Ok st
  | msg :: rest' => st' ← loop_body i msg st; loop (S i) rest' st'
  end.

Definition convertMessages : result (list converted) :=
  st ← loop 0 inputMessages (State [] []); Ok (convertedMessages st).

End Run.
End Messages.

(** ** The body of [normalizeSchema] as the source spells it *)

Section Unfolding.
Context {JN : JsNumber}.

(** The statements of [normalizeSchema], with [self] for the recursive
    calls. The loop [for (const key of propKeys)] visits the own properties
    of [props] in order and reads each one back, which is a pass over
    [entries props]. *)
Definition normalizeSchema_body (self : value → value) (schemaNode : value) : value :=
  if negb (truthy schemaNode) || negb (typeof_object schemaNode) then schemaNode
  else
    let normalized := entries schemaNode in
    let normalized :=
      if is_str (lookup_prop (js "type") normalized) (js "object") then
        let properties := lookup_prop (js "properties") normalized in
        let props :=
          if truthy properties && typeof_object properties then properties else VObj [] in
        let propKeys := keys props in
        let normalized :=
          if bool_decide (length propKeys = 0)
             && is_false (lookup_prop (js "additionalProperties") normalized)
          then set_prop (js "additionalProperties") (VBool true) normalized
          else normalized in
        let normalizedProps := assigned_entries self (entries props) in
        set_prop (js "properties") (VObj normalizedProps) normalized
      else normalized in
    let normalized :=
      if is_str (lookup_prop (js "type") normalized) (js "array")
         && truthy (lookup_prop (js "items") normalized)
      then set_prop (js "items") (self (lookup_prop (js "items") normalized)) normalized
      else normalized in
    VObj normalized.

End Unfolding.

(** ** The conversion as [generateCurl] runs it *)

Section Pipeline.
Context {JN : JsNumber} {JE : JsEngine}.

Record conversion := Conversion {
  convertedTools : list value;
  toolNameMap : name_map;
  convertedMessagesOut : list converted
}.

Definition convert (clock : nat → nat → Z) (inputTools inputMessages : list value)
  : result conversion :=
  tools ← convertTools inputTools;
  names ← buildToolNameMap inputTools;
  messages ← convertMessages clock inputMessages (map_get names);
  Ok (Conversion tools names messages).

End Pipeline.

(** ** [normalizeSchema] over a store

    To speak of mutation, objects live in a store and values refer to them.
    The store holds the own properties of every object; the prototype of
    an object is not a property and is not in the store.
    A run of [normalizeSchema] allocates the copies it makes and writes
    properties in place, as the source does. The recursion follows the
    references of the store, which may be cyclic, so it carries fuel;
    [None] is a run that has not finished within its fuel. *)

Section Store.
Context {JN : JsNumber}.

Inductive ref_value : Type :=
| RUndef
| RNull
| RBool (b : bool)
| RNum (n : number)
| RStr (s : jsstring)
| RRef (l : nat).

Inductive cell : Type :=
| ObjectCell (props : list (jsstring * ref_value))
| ArrayCell (elems : list ref_value).

Definition r_truthy (v : ref_value) : bool :=
  match v with
  | RUndef | RNull => false
  | RBool b => b
  | RNum n => number_truthy n
  | RStr s => negb (bool_decide (s = []))
  | RRef _ => true
  end.

Definition r_typeof_object (v : ref_value) : bool :=
  match v with
  | RNull | RRef _ => true
  | _ => false
  end.

Definition r_is_str (v : ref_value) (lit : jsstring) : bool :=
  match v with
  | RStr s => str_eqb s lit
  | _ => false
  end.

Definition r_is_false (v : ref_value) : bool :=
  match v with
  | RBool false => true
  | _ => false
  end.

Fixpoint r_lookup_prop (k : jsstring) (props : list (jsstring * ref_value)) : ref_value :=
  match props with
  | [] => RUndef
  | (k', v) :: rest => if str_eqb k k' then v else r_lookup_prop k rest
  end.

Fixpoint r_set_prop (k : jsstring) (v : ref_value) (props : list (jsstring * ref_value))
  : list (jsstring * ref_value) :=
  match props with
  | [] => [(k, v)]
  | (k', v') :: rest =>
      if str_eqb k k' then (k', v) :: rest else (k', v') :: r_set_prop k v rest
  end.

(** The own enumerable properties of the object or array at [l]. *)
Definition own_entries (h : list cell) (l : nat) : list (jsstring * ref_value) :=
  match h !! l with
  | Some (ObjectCell props) => props
  | Some (ArrayCell elems) => imap (fun i v => (dec_nat i, v)) elems
  | None => []
  end.

(** [v[k]] *)
Definition read (h : list cell) (v : ref_value) (k : jsstring) : ref_value :=
  match v with
  | RRef l => r_lookup_prop k (own_entries h l)
  | _ => RUndef
  end.

(** [Object.keys(v)] *)
Definition r_keys (h : list cell) (v : ref_value) : list jsstring :=
  match v with
  | RRef l => (own_entries h l).*1
  | _ => []
  end.

(** A new object. *)
Definition alloc (c : cell) (h : list cell) : nat * list cell :=
  (length h, h ++ [c]).

(** [obj[k] = v] on the object at [l]. *)
Definition write (l : nat) (k : jsstring) (v : ref_value) (h : list cell) : list cell :=
  match h !! l with
  | Some (ObjectCell props) => <[l := ObjectCell (r_set_prop k v props)]> h
  | _ => h
  end.

Section Blocks.
(** The recursive calls of the blocks below. *)
Variable self : ref_value → list cell → option (ref_value * list cell).

(** [obj[k] = v] on an object that has [Object.prototype] in its prototype
    chain and no property [__proto__] before it: under the key
    [__proto__] the setter changes the prototype of the object, which is
    no property of the object, and the store stays as it is. *)
Definition assign_st (l : nat) (k : jsstring) (v : ref_value) (h : list cell)
  : list cell :=
  if str_eqb k proto_key then h else write l k v h.

(** [for (const key of propKeys) normalizedProps[key] = normalizeSchema(props[key])],
    [normalizedProps] being the object the block has just allocated. *)
Fixpoint each_key (props : ref_value) (normalizedProps : nat) (keys : list jsstring)
    (h : list cell) : option (list cell) :=
  match keys with
  | [] => Some h
  | key :: keys' =>
      '(sub, h) ← self (read h props key) h;
      each_key props normalizedProps keys' (assign_st normalizedProps key sub h)
  end.

(** [if (normalized.type === 'object') { ... }] *)
Definition object_block (normalized : nat) (h : list cell) : option (list cell) :=
  if r_is_str (read h (RRef normalized) (js "type")) (js "object") then
    let properties := read h (RRef normalized) (js "properties") in
    let '(props, h) :=
      if r_truthy properties && r_typeof_object properties
      then (properties, h)
      else let '(empty, h) := alloc (ObjectCell []) h in (RRef empty, h) in
    let propKeys := r_keys h props in
    let h :=
      if bool_decide (length propKeys = 0)
         && r_is_false (read h (RRef normalized) (js "additionalProperties"))
      then write normalized (js "additionalProperties") (RBool true) h
      else h in
    let '(normalizedProps, h) := alloc (ObjectCell []) h in
    h ← each_key props normalizedProps propKeys h;
    Some (write normalized (js "properties") (RRef normalizedProps) h)
  else Some h.

(** [if (normalized.type === 'array' && normalized.items) { ... }] *)
Definition array_block (normalized : nat) (h : list cell) : option (list cell) :=
  if r_is_str (read h (RRef normalized) (js "type")) (js "array")
     && r_truthy (read h (RRef normalized) (js "items"))
  then
    '(items, h) ← self (read h (RRef normalized) (js "items")) h;
    Some (write normalized (js "items") items h)
  else Some h.

End Blocks.

Fixpoint normalizeSchema_st (fuel : nat) (schemaNode : ref_value) (h : list cell)
  : option (ref_value * list cell) :=
  match fuel with
  | 0 => None
  | S fuel =>
      match schemaNode with
      | RRef node =>
          let '(normalized, h) := alloc (ObjectCell (own_entries h node)) h in
          h ← object_block (normalizeSchema_st fuel) normalized h;
          h ← array_block (normalizeSchema_st fuel) normalized h;
          Some (RRef normalized, h)
      | _ => Some (schemaNode, h)
      end
  end.

(** [repr_in F h t v]: in the store [h] the value [v] stands for the tree
    [t], whose objects have pairwise distinct property names, and every
    object and array of the representation lies at a location in [F]. *)
Fixpoint repr_in (F : nat → Prop) (h : list cell) (t : value) (v : ref_value) : Prop :=
  match t with
  | VUndef => v = RUndef
  | VNull => v = RNull
  | VBool b => v = RBool b
  | VNum n => v = RNum n
  | VStr s => v = RStr s
  | VArr elems =>
      ∃ l relems,
        v = RRef l ∧ F l ∧ h !! l = Some (ArrayCell relems)
        ∧ (fix all (es : list value) (rs : list ref_value) : Prop :=
             match es, rs with
             | [], [] => True
             | e :: es', r :: rs' => repr_in F h e r ∧ all es' rs'
             | _, _ => False
             end) elems relems
  | VObj props =>
      ∃ l rprops,
        v = RRef l ∧ F l ∧ h !! l = Some (ObjectCell rprops) ∧ NoDup props.*1
        ∧ (fix all (ps : list (jsstring * value)) (rs : list (jsstring * ref_value))
             : Prop :=
             match ps, rs with
             | [], [] => True
             | p :: ps', r :: rs' => p.1 = r.1 ∧ repr_in F h p.2 r.2 ∧ all ps' rs'
             | _, _ => False
             end) props rprops
  end.

(** In the store [h] the value [v] stands for the tree [t]. *)
Definition repr (h : list cell) (t : value) (v : ref_value) : Prop :=
  repr_in (fun _ => True) h t v.

(** A property of the tree and the property that stands for it. *)
Definition repr_entry (F : nat → Prop) (h : list cell)
    (p : jsstring * value) (r : jsstring * ref_value) : Prop :=
  p.1 = r.1 ∧ repr_in F h p.2 r.2.

(** With fuel [fuel], a run on a representation of [t] ends with a
    representation of [normalizeSchema t] made of the objects of [t] and of
    objects the run has allocated. *)
Definition refines_with (fuel : nat) (t : value) : Prop :=
  ∀ (F : nat → Prop) (h0 h : list cell) v,
    repr_in F h0 t v → h0 `prefix_of` h → (∀ l, F l → l < length h0) →
    ∃ r h',
      normalizeSchema_st fuel v h = Some (r, h')
      ∧ repr_in (fun l => F l ∨ length h ≤ l) h' (normalizeSchema t) r.

Definition refines (t : value) : Prop :=
  ∃ fuel, ∀ fuel', fuel ≤ fuel' → refines_with fuel' t.

End Store.

(** ** Generators *)

Section Generators.
Context {JN : JsNumber} {JE : JsEngine}.

(** The object literals of [convertMessages] as values, a name the map has
    inherited being what [JSON.stringify] makes of it. *)
Definition tool_call_value (c : tool_call) : value :=
  VObj [(js "id", call_id c); (js "type", VStr (js "function"));
        (js "function",
         VObj [(js "name", as_json (call_name c));
               (js "arguments", call_arguments c)])].

Definition message_value (m : converted) : value :=
  match m with
  | AssistantCalls content calls =>
      VObj [(js "role", VStr (js "assistant")); (js "content", VStr content);
            (js "tool_calls", VArr (map tool_call_value calls))]
  | ToolResponse id content =>
      VObj [(js "role", VStr (js "tool")); (js "tool_call_id", id);
            (js "content", VStr content)]
  | Plain role content => VObj [(js "role", role); (js "content", VStr content)]
  end.

(** What [getConfig] returns. The two numbers are what [parseFloat] reads
    in a field, or the default: they are taken to be finite, as the numbers
    of the embedding are. *)
Record config := Config {
  apiEndpoint : jsstring;
  apiVersion : jsstring;
  apiKey : jsstring;
  hostHeader : jsstring;
  temperature : number;
  topP : number;
  toolChoice : jsstring
}.

Definition generateRequestBody (cfg : config) (messages tools : value) : value :=
  VObj [(js "temperature", VNum (temperature cfg)); (js "top_p", VNum (topP cfg));
        (js "tool_choice", VStr (toolChoice cfg)); (js "messages", messages);
        (js "tools", tools)].

(** SerializeJSONProperty with a gap: [indent] is the current indentation. *)
Fixpoint serialize_pretty (gap indent : jsstring) (v : value) : option jsstring :=
  match v with
  | VUndef => None
  | VNull => Some (js "null")
  | VBool true => Some (js "true")
  | VBool false => Some (js "false")
  | VNum n => Some (number_text n)
  | VStr s => Some (quote s)
  | VArr elems =>
      let stepback := indent in
      let indent := indent ++ gap in
      let partial :=
        map (fun e => default (js "null") (serialize_pretty gap indent e)) elems in
      Some (if bool_decide (partial = []) then js "[]"
            else if bool_decide (gap = []) then js "[" ++ join (js ",") partial ++ js "]"
            else js "[" ++ [10%N] ++ indent
                 ++ join (js "," ++ [10%N] ++ indent) partial
                 ++ [10%N] ++ stepback ++ js "]")
  | VObj props =>
      let stepback := indent in
      let indent := indent ++ gap in
      let partial :=
        omap (fun kv =>
                (fun s => quote kv.1 ++ js ":"
                          ++ (if bool_decide (gap = []) then [] else js " ") ++ s)
                  <$> serialize_pretty gap indent kv.2) props in
      Some (if bool_decide (partial = []) then js "{}"
            else if bool_decide (gap = []) then js "{" ++ join (js ",") partial ++ js "}"
            else js "{" ++ [10%N] ++ indent
                 ++ join (js "," ++ [10%N] ++ indent) partial
                 ++ [10%N] ++ stepback ++ js "}")
  end.

(** [JSON.stringify(v, null, n)]: the gap is [n] spaces, ten at most. *)
Definition JSON_stringify_indent (n : nat) (v : value) : value :=
  from_option VStr VUndef (serialize_pretty (replicate (n `min` 10) 32%N) [] v).

(** The url both commands use. *)
Definition fullUrl (cfg : config) : jsstring :=
  apiEndpoint cfg ++ js "?api-version=" ++ apiVersion cfg ++ js "&api-key="
  ++ apiKey cfg.

Definition apostrophe : N := 39%N.

(** [s.replace(/'/g, "'\\''")] *)
Definition escape_quotes (s : jsstring) : jsstring :=
  s ≫= fun c => if (c =? apostrophe)%N then js "'\''" else [c].

(** [generateCurlCommand]; [replace] on a body that is not a string throws. *)
Definition generateCurlCommand (cfg : config) (requestBody : value) : result jsstring :=
  match JSON_stringify_indent 4 requestBody with
  | VStr jsonBody =>
      let escapedBody := escape_quotes jsonBody in
      Ok (js "curl --location '" ++ fullUrl cfg ++ js "' \" ++ [10%N]
          ++ js "--header 'Host: " ++ hostHeader cfg ++ js "' \" ++ [10%N]
          ++ js "--header 'Content-Type: application/json' \" ++ [10%N]
          ++ js "--data '" ++ escapedBody ++ js "'")
  | _ => TypeError
  end.

Definition dquote : jsstring := [34%N].
Definition newline : jsstring := [10%N].

Definition generatePowerShellCommand (cfg : config) (requestBody : value) : jsstring :=
  let jsonBody := JSON_stringify_indent 2 requestBody in
  js "$headers = @{" ++ newline
  ++ js "    " ++ dquote ++ js "Host" ++ dquote ++ js " = " ++ dquote
  ++ hostHeader cfg ++ dquote ++ newline
  ++ js "    " ++ dquote ++ js "Content-Type" ++ dquote ++ js " = " ++ dquote
  ++ js "application/json" ++ dquote ++ newline
  ++ js "}" ++ newline ++ newline
  ++ js "$body = @'" ++ newline
  ++ template_text jsonBody ++ newline
  ++ js "'@" ++ newline ++ newline
  ++ js "Invoke-RestMethod -Uri " ++ dquote ++ fullUrl cfg ++ dquote
  ++ js " -Method Post -Headers $headers -Body $body".

(** What [generateCurl] leaves on the page: an error message, or the three
    outputs and the toast. The text of a caught exception is the engine's
    and is not modelled. *)
Inductive outcome :=
| ShowError (message : jsstring)
| ShowCaught
| ShowOutput (bodyOutput curlOutput psOutput toast : jsstring).

(** [generateCurl], from the results of [validateJSON] ([None] is [null])
    and the configuration [getConfig] returns. *)
Definition generateCurl (clock : nat → nat → Z) (cfg : config)
    (inputTools inputMessages : option (list value)) : outcome :=
  match inputTools with
  | None => ShowError (js "Please enter valid Tools JSON array")
  | Some inputTools =>
      match inputMessages with
      | None => ShowError (js "Please enter valid Messages JSON array")
      | Some inputMessages =>
          match convert clock inputTools inputMessages with
          | TypeError => ShowCaught
          | Ok c =>
              if bool_decide (length (convertedMessagesOut c) = 0) then
                ShowError (js "No valid messages found after conversion. Please check your input.")
              else
                let requestBody :=
                  generateRequestBody cfg
                    (VArr (map message_value (convertedMessagesOut c)))
                    (VArr (convertedTools c)) in
                let bodyJSON := template_text (JSON_stringify_indent 2 requestBody) in
                match generateCurlCommand cfg requestBody with
                | TypeError => ShowCaught
                | Ok curlCmd =>
                    let psCmd := generatePowerShellCommand cfg requestBody in
                    ShowOutput bodyJSON curlCmd psCmd
                      ([10003%N] ++ js " Generated! "
                       ++ dec_nat (length (convertedMessagesOut c)) ++ js " messages, "
                       ++ dec_nat (length (convertedTools c)) ++ js " tools")
                end
          end
      end
  end.

End Generators.

(** ** Notions the properties are stated with *)

Section Notions.
Context {JN : JsNumber}.

(** One link of a chain of nested schemas: into the sub-schema an
    object-typed node declares under [properties], or into the [items] of
    an array-typed node. *)
Inductive link :=
| InProperty (key : jsstring)
| InItems.

Fixpoint assoc (k : jsstring) (props : list (jsstring * value)) : option value :=
  match props with
  | [] => None
  | (k', v) :: rest => if str_eqb k k' then Some v else assoc k rest
  end.

Definition child (l : link) (node : value) : option value :=
  match l with
  | InProperty key =>
      if is_str (get node (js "type")) (js "object")
      then assoc key (entries (get node (js "properties")))
      else None
  | InItems =>
      if is_str (get node (js "type")) (js "array") && truthy (get node (js "items"))
      then Some (get node (js "items"))
      else None
  end.

(** The node a chain of links leads to, from the root. *)
Fixpoint descend (chain : list link) (root : value) : option value :=
  match chain with
  | [] => Some root
  | l :: chain' => node ← child l root; descend chain' node
  end.

(** What the data model asks of an element of the normalized tool list. *)
Definition normalized_tool_ok (out : value) : Prop :=
  (∃ s, get (get out (js "function")) (js "name") = VStr s ∧ s ≠ [])
  ∧ (∃ props, get (get out (js "function")) (js "parameters") = VObj props).

Definition string_or_absent (v : value) : Prop :=
  match v with
  | VStr _ | VUndef => True
  | _ => False
  end.

Definition object_or_absent (v : value) : Prop :=
  match v with
  | VObj _ | VArr _ | VNull | VUndef => True
  | _ => False
  end.

(** The ids the emitted assistant messages carry in their [tool_calls], in
    emission order, and the ids the emitted tool responses carry. *)
Definition pushed_ids (out : list converted) : list value :=
  out ≫= fun m =>
    match m with
    | AssistantCalls _ calls => map call_id calls
    | _ => []
    end.

Definition consumed_ids (out : list converted) : list value :=
  out ≫= fun m =>
    match m with
    | ToolResponse id _ => [id]
    | _ => []
    end.

(** The name a record stands for in the output, and the identifiers the
    record is known under. *)
Definition canonical_name (tool : value) : value :=
  if target_shaped tool && truthy (get (get tool (js "function")) (js "name"))
  then get (get tool (js "function")) (js "name")
  else or_else (get tool (js "alias"))
         (or_else (get tool (js "name")) (VStr (js "unknown_function"))).

(** The property key a value is converted to, when it has a conversion. *)
Definition key_of (v : value) : list jsstring :=
  match to_string v with
  | Ok k => [k]
  | TypeError => []
  end.

Definition identifiers (tool : value) : list jsstring :=
  if target_shaped tool && truthy (get (get tool (js "function")) (js "name"))
  then key_of (get (get tool (js "function")) (js "name"))
  else (if truthy (get tool (js "name")) then key_of (get tool (js "name")) else [])
       ++ (if truthy (get tool (js "alias")) then key_of (get tool (js "alias"))
           else []).

(** A record on which the loop of [buildToolNameMap] throws: it is [null]
    or [undefined], or an identifier it is to be stored under has no
    conversion to a property key. *)
Definition tool_throws (tool : value) : Prop :=
  nullish tool = true
  ∨ (if target_shaped tool && truthy (get (get tool (js "function")) (js "name"))
     then to_string (get (get tool (js "function")) (js "name")) = TypeError
     else (truthy (get tool (js "name")) = true
           ∧ to_string (get tool (js "name")) = TypeError)
          ∨ (truthy (get tool (js "alias")) = true
             ∧ to_string (get tool (js "alias")) = TypeError)).

(** No object of the tree has a property named [__proto__]. *)
Fixpoint proto_free (v : value) : bool :=
  match v with
  | VArr elems => forallb proto_free elems
  | VObj props =>
      forallb (fun kv => negb (str_eqb kv.1 proto_key) && proto_free kv.2) props
  | _ => true
  end.

(** The name a call carries: [function.name] when there is one, else
    [name], else the empty string. *)
Definition raw_name (call : value) : value :=
  if truthy (get call (js "function"))
     && truthy (get (get call (js "function")) (js "name"))
  then get (get call (js "function")) (js "name")
  else if truthy (get call (js "name")) then get call (js "name") else VStr [].

(** Two clocks agree on a transcript when they give the same reading at
    every tool call that has no id of its own. *)
Definition clocks_agree (clock1 clock2 : nat → nat → Z) (transcript : list value)
  : Prop :=
  ∀ i idx msg call,
    transcript !! i = Some msg →
    elements (get msg (js "tool_calls")) !! idx = Some call →
    truthy (get call (js "id")) = false →
    clock1 i idx = clock2 i idx.

(** The invariant of the loop of [convertMessages]: the ids pushed so far
    are the ids consumed so far followed by the pending queue. *)
Definition fifo (st : state) : Prop :=
  pushed_ids (convertedMessages st)
  = consumed_ids (convertedMessages st) ++ pendingToolCallIds st.

(** At every point of the output the consumed ids are the first of the
    pushed ids, in the same order. *)
Definition paired (out : list converted) : Prop :=
  ∀ n, consumed_ids (take n out) `prefix_of` pushed_ids (take n out).

(** A plain message with content that is neither empty nor blank; the
    other messages carry an id or calls. *)
Definition well_filled (m : converted) : Prop :=
  match m with
  | Plain _ content => blank content = false
  | _ => True
  end.

(** A content on which [convertMessageContent] throws: an array with an
    element that is [null] or [undefined], or with a text block whose
    truthy text has no conversion to a string. *)
Definition content_throws (content : value) : Prop :=
  ∃ items,
    content = VArr items
    ∧ (Exists (fun item => nullish item = true) items
       ∨ Exists (fun item => is_str (get item (js "type")) (js "text")
                             && truthy (get item (js "text")) = true
                             ∧ to_string (get item (js "text")) = TypeError) items).

(** A message on which the loop of [convertMessages] throws: it is [null]
    or [undefined], [convertMessageContent] throws on its content, or it is
    an assistant message with a tool call that is [null] or [undefined] or
    carries a name without a conversion to a property key. *)
Definition throws_on (msg : value) : Prop :=
  nullish msg = true
  ∨ convertMessageContent (get msg (js "content")) = TypeError
  ∨ (is_str (get msg (js "role")) (js "assistant")
     && nonempty_array (get msg (js "tool_calls")) = true
     ∧ Exists (fun call => nullish call = true
                           ∨ to_string (raw_name call) = TypeError)
         (elements (get msg (js "tool_calls")))).

(** What a request to the chat-completion API needs of a message: an
    allowed role; for an assistant message with tool calls, at least one
    call, each with a truthy id, a name that is neither [null] nor
    [undefined] and string arguments; for a tool response, a truthy id. *)
Definition call_ok (c : tool_call) : Prop :=
  truthy (call_id c) = true ∧ found_nullish (call_name c) = false
  ∧ ∃ s, call_arguments c = VStr s.

Definition output_ok (m : converted) : Prop :=
  isValidRole (get (message_value m) (js "role")) = true
  ∧ match m with
    | AssistantCalls _ calls => calls ≠ [] ∧ Forall call_ok calls
    | ToolResponse id _ => truthy id = true
    | Plain _ _ => True
    end.

(** How a POSIX shell splits a command line into words, for the part of
    the syntax the generated command uses: single quotes, inside which
    every character stands for itself; a backslash, which makes the next
    character stand for itself and removes a following newline; blanks,
    which separate words; and letters, digits and a few signs. Anything
    else outside quotes, or an unclosed quote, is outside the fragment
    ([None]). *)
Definition sh_plain (c : N) : bool :=
  ((48 <=? c) && (c <=? 57) || (65 <=? c) && (c <=? 90) || (97 <=? c) && (c <=? 122)
   || (c =? 45) || (c =? 46) || (c =? 47) || (c =? 58) || (c =? 95))%N.

Definition sh_push (c : N) (word : option jsstring) : option jsstring :=
  Some (default [] word ++ [c]).

Fixpoint sh_read (s : jsstring) (quoted : bool) (word : option jsstring)
    (words : list jsstring) : option (list jsstring) :=
  match s with
  | [] => if quoted then None else Some (words ++ option_list word)
  | c :: rest =>
      if quoted then
        if (c =? apostrophe)%N then sh_read rest false word words
        else sh_read rest true (sh_push c word) words
      else if (c =? apostrophe)%N then sh_read rest true (Some (default [] word)) words
      else if (c =? 92)%N then
        match rest with
        | [] => None
        | d :: rest' =>
            if (d =? 10)%N then sh_read rest' false word words
            else sh_read rest' false (sh_push d word) words
        end
      else if ((c =? 32) || (c =? 9))%N then
        sh_read rest false None (words ++ option_list word)
      else if sh_plain c then sh_read rest false (sh_push c word) words
      else None
  end.

Definition sh_words (command : jsstring) : option (list jsstring) :=
  sh_read command false None [].

(** The separator of the parts of a made-up call id. *)
Definition underscore : N := 95%N.

(** The arguments a call carries, as [rawArgs] ends up. *)
Definition raw_args (call : value) : value :=
  if truthy (get call (js "function"))
     && truthy (get (get call (js "function")) (js "name"))
  then if typeof_string (get (get call (js "function")) (js "arguments"))
       then get (get call (js "function")) (js "arguments")
       else or_else (get (get call (js "function")) (js "arguments")) (VObj [])
  else if truthy (get call (js "name")) then or_else (get call (js "args")) (VObj [])
       else VObj [].

(** Reading a text line by line. [fresh] tells that the text starts at the
    start of a line. The result is [None] when a line other than the first
    starts with something else than a space or a closing bracket, and
    otherwise tells whether the text ends at the start of a line. *)
Definition line_feed : N := 10%N.

Definition indents_or_closes (c : N) : bool :=
  ((c =? 32) || (c =? 93) || (c =? 125))%N.

Fixpoint read_lines (fresh : bool) (s : jsstring) : option bool :=
  match s with
  | [] => Some fresh
  | c :: rest =>
      if fresh && negb (indents_or_closes c) then None
      else read_lines (c =? line_feed)%N rest
  end.

(** The text has an occurrence of [Executed **name**], in any letter case,
    with a non-empty [name] free of stars. *)
Definition names_executed (text name : jsstring) : Prop :=
  ∃ before keyword after,
    text = before ++ keyword ++ js "**" ++ name ++ js "**" ++ after
    ∧ fold_case <$> keyword = js "EXECUTED "
    ∧ name ≠ [] ∧ star ∉ name.

End Notions.

(** ** Concrete inputs

    Numbers are integers here. *)

Module Scenario.

Local Existing Instance Z_number.
Local Existing Instance es2023.

Definition obj (props : list (string * value)) : value :=
  VObj (map (fun kv => (js kv.1, kv.2)) props).

Definition str (s : string) : value := VStr (js s).

(** [{type: "object", properties: {}, additionalProperties: false}] *)
Definition closed_empty : value :=
  obj [("type", str "object"); ("properties", obj []);
       ("additionalProperties", VBool false)]%string.

(** The tool list of scenario A. *)
Definition legacy_tool : value :=
  obj [("name", str "search"); ("alias", str "web_search"); ("description", str "d");
       ("config", obj [("schema", closed_empty)])]%string.

(** A record in target shape with an empty name and no parameters. *)
Definition bare_target_tool : value :=
  obj [("type", str "function");
       ("function", obj [("name", str ""); ("parameters", VNull)])]%string.

(** A record in target shape with a closed, empty parameter schema. *)
Definition target_tool : value :=
  obj [("type", str "function");
       ("function", obj [("name", str "lookup"); ("description", str "");
                         ("parameters", closed_empty)])]%string.

(** Two records known under the identifier ["search"]. *)
Definition renamed_tool : value :=
  obj [("name", str "search"); ("alias", str "find")]%string.

(** An object whose property [list] is an array of closed, empty objects. *)
Definition nested_schema : value :=
  obj [("type", str "object");
       ("properties",
        obj [("list", obj [("type", str "array"); ("items", closed_empty)])])]%string.

(** The transcript of scenario B: a call without an id, then its result. *)
Definition call_message : value :=
  obj [("role", str "assistant");
       ("tool_calls", VArr [obj [("name", str "search");
                                 ("args", obj [("q", str "x")])]])]%string.

Definition result_message : value :=
  obj [("role", str "tool_node");
       ("additional_kwargs", obj [("node_metadata", obj [("nodeType", str "tool")])]);
       ("content", str "result")]%string.

Definition transcript : list value := [call_message; result_message].

(** A message that already has the role "tool", and a blank one. *)
Definition tool_message : value :=
  obj [("role", str "tool"); ("content", str "done")]%string.

Definition blank_message : value :=
  obj [("role", str "user"); ("content", str "  ")]%string.

Definition names : name_map :=
  NameMap (<[js "search" := str "web_search"]> (<[js "web_search" := str "web_search"]> ∅))
    ObjectPrototype.

Definition clock0 : nat → nat → Z := fun _ _ => 0%Z.
Definition clock1 : nat → nat → Z := fun _ _ => 1%Z.

(** A store that holds [nested_schema] at location 4. *)
Definition store : list cell :=
  [ObjectCell [];
   ObjectCell [(js "type", RStr (js "object")); (js "properties", RRef 0);
               (js "additionalProperties", RBool false)];
   ObjectCell [(js "type", RStr (js "array")); (js "items", RRef 1)];
   ObjectCell [(js "list", RRef 2)];
   ObjectCell [(js "type", RStr (js "object")); (js "properties", RRef 3)]].

(** A configuration, and the request for an empty conversion. *)
Definition config0 : config :=
  Config (js "https://api.openai.com/v1/chat/completions") (js "2024-02-01")
    (js "key") (js "api.openai.com") 1%Z 1%Z (js "auto").

Definition request0 : value := generateRequestBody config0 (VArr []) (VArr []).

(** A call without an id, under a name the map of scenario A knows. *)
Definition bare_call : value := obj [("name", str "search")]%string.

(** A schema with a property named [__proto__], and a tool of that name. *)
Definition proto_schema : value :=
  obj [("type", str "object"); ("additionalProperties", VBool false);
       ("properties", obj [("__proto__", closed_empty)])]%string.


(** An object with an own property [toString], and a tool, a text block and
    a call that carry it. *)
Definition unprintable : value := obj [("toString", VNum 1%Z)]%string.

Definition unprintable_tool : value := obj [("name", unprintable)]%string.

Definition unprintable_block : value :=
  obj [("type", str "text"); ("text", unprintable)]%string.

Definition unprintable_call_message : value :=
  obj [("role", str "assistant");
       ("tool_calls", VArr [obj [("id", str "c1"); ("name", unprintable)]])]%string.

(** Two calls that carry the same id, each followed by its result. *)
Definition repeated_id_transcript : list value :=
  [obj [("role", str "assistant");
        ("tool_calls", VArr [obj [("id", str "a"); ("name", str "search")]])];
   result_message;
   obj [("role", str "assistant");
        ("tool_calls", VArr [obj [("id", str "a"); ("name", str "search")]])];
   result_message]%string.

(** A message with a call that carries an id and a call that does not, and
    two clocks that agree at the second call only. *)
Definition mixed_transcript : list value :=
  [obj [("role", str "assistant");
        ("tool_calls", VArr [obj [("id", str "c1"); ("name", str "search")];
                             bare_call])];
   result_message]%string.

Definition clock_a : nat → nat → Z := fun i idx => if (idx =? 1)%nat then 5%Z else 0%Z.
Definition clock_b : nat → nat → Z := fun i idx => if (idx =? 1)%nat then 5%Z else 1%Z.

End Scenario.

(** * Properties *)

(** ** Strings and keys *)

Lemma str_eqb_true a b : str_eqb a b = true ↔ a = b.
Proof. unfold str_eqb. apply bool_decide_eq_true. Qed.

Lemma str_eqb_false a b : str_eqb a b = false ↔ a ≠ b.
Proof. unfold str_eqb. apply bool_decide_eq_false. Qed.

Lemma str_eqb_refl a : str_eqb a a = true.
Proof. by apply str_eqb_true. Qed.

Section ValueFacts.
Context {JN : JsNumber} {JE : JsEngine}.

(** Structural induction that reaches the elements of an array and the
    property values of an object. *)
Lemma value_nested_ind (P : value → Prop) :
  P VUndef → P VNull → (∀ b, P (VBool b)) → (∀ n, P (VNum n)) →
  (∀ s, P (VStr s)) →
  (∀ elems, Forall P elems → P (VArr elems)) →
  (∀ props, Forall (fun kv => P kv.2) props → P (VObj props)) →
  ∀ v, P v.
Proof.
  intros Hu Hn Hb Hnum Hs Ha Ho.
  fix IH 1. intros v. destruct v as [| | b | n | s | elems | props].
  - exact Hu.
  - exact Hn.
  - apply Hb.
  - apply Hnum.
  - apply Hs.
  - apply Ha. induction elems as [|e elems IHe]; constructor; [apply IH | exact IHe].
  - apply Ho. induction props as [|[k e] props IHp]; constructor; [apply IH | exact IHp].
Qed.

Lemma is_str_true v lit : is_str v lit = true ↔ v = VStr lit.
Proof.
  destruct v; simpl; try (split; [discriminate | congruence]).
  rewrite str_eqb_true. split; congruence.
Qed.

Lemma is_false_true v : is_false v = true ↔ v = VBool false.
Proof. destruct v as [| |[]| | | |]; simpl; split; congruence. Qed.

Lemma lookup_set_prop_eq k v props : lookup_prop k (set_prop k v props) = v.
Proof.
  induction props as [|[k' v'] props IH]; simpl.
  - by rewrite str_eqb_refl.
  - destruct (str_eqb k k') eqn:E; simpl; rewrite E; [done | exact IH].
Qed.

Lemma lookup_set_prop_ne k k' v props :
  k ≠ k' → lookup_prop k (set_prop k' v props) = lookup_prop k props.
Proof.
  intros Hne. induction props as [|[k2 v2] props IH]; simpl.
  - apply str_eqb_false in Hne. by rewrite Hne.
  - destruct (str_eqb k' k2) eqn:E; simpl.
    + apply str_eqb_true in E. subst k2.
      apply str_eqb_false in Hne. by rewrite Hne.
    + by rewrite IH.
Qed.

Lemma with_prop_lookup {A} (f : value → A) d k props :
  f VUndef = d → with_prop f d k props = f (lookup_prop k props).
Proof.
  intros Hd. induction props as [|[k' v] props IH]; simpl; [done|].
  by destruct (str_eqb k k').
Qed.

Lemma index_entries_map (f : value → value) elems :
  index_entries (map f elems) = map (fun kv => (kv.1, f kv.2)) (index_entries elems).
Proof.
  unfold index_entries. generalize dec_nat as g. intros g.
  revert g. induction elems as [|e elems IH]; intros g; simpl; [done|].
  f_equal. apply IH.
Qed.

(** Truthiness and the type tests are those of the input. *)
Lemma normalizeSchema_truthy v : truthy (normalizeSchema v) = truthy v.
Proof.
  destruct v as [| | | | | |props]; simpl; try done.
  repeat case_match; done.
Qed.

Lemma normalizeSchema_typeof_object v :
  typeof_object v = true → nullish v = false →
  ∃ props, normalizeSchema v = VObj props.
Proof.
  destruct v as [| | | | | |props]; simpl; try done; intros _ _; [by eexists|].
  repeat case_match; by eexists.
Qed.

End ValueFacts.

(** ** Array indices as property names *)

Lemma dec_nat_digits n : Forall is_digit (dec_nat n).
Proof.
  unfold dec_nat, is_digit.
  assert (Hall : ∀ u, Forall (fun c => (48 ≤ c ≤ 57)%N) (js (NilEmpty.string_of_uint u))).
  { induction u; cbn; constructor; (lia || assumption). }
  destruct (Nat.to_uint n) as [|u|u|u|u|u|u|u|u|u|u]; cbn;
    constructor; try lia; try apply Hall. constructor.
Qed.

Lemma dec_nat_ne_name n k c rest :
  k = c :: rest → ¬ is_digit c → dec_nat n ≠ k.
Proof.
  intros -> Hc Heq. pose proof (dec_nat_digits n) as Hd.
  rewrite Heq in Hd. by inversion Hd.
Qed.

Section IndexFacts.
Context {JN : JsNumber} {JE : JsEngine}.

Lemma lookup_prop_fresh k (props : list (jsstring * value)) :
  k ∉ props.*1 → lookup_prop k props = VUndef.
Proof.
  induction props as [|[k' v] props IH]; simpl; [done|].
  intros Hnot. apply not_elem_of_cons in Hnot as [Hne Hnot].
  apply str_eqb_false in Hne. rewrite Hne. by apply IH.
Qed.

Lemma index_entries_keys (elems : list value) k :
  k ∈ (index_entries elems).*1 → ∃ i, k = dec_nat i.
Proof.
  unfold index_entries. rewrite list_elem_of_fmap.
  intros ([k' v] & -> & Hin). apply elem_of_lookup_imap in Hin as (i & e & Heq & _).
  injection Heq as -> _. by exists i.
Qed.

Lemma lookup_index_entries_name (elems : list value) k c rest :
  k = c :: rest → ¬ is_digit c → lookup_prop k (index_entries elems) = VUndef.
Proof.
  intros Hk Hc. apply lookup_prop_fresh. intros Hin.
  apply index_entries_keys in Hin as [i ->].
  by eapply dec_nat_ne_name.
Qed.

(** Away from [__proto__] the loop of assignments stores every property. *)
Lemma assigned_entries_plain (f : value → value) (props : list (jsstring * value)) :
  proto_key ∉ props.*1 →
  assigned_entries f props = map (fun kv => (kv.1, f kv.2)) props.
Proof.
  unfold assigned_entries. induction props as [|[k v] props IH]; [done|].
  rewrite fmap_cons. intros [Hk Hrest]%not_elem_of_cons. cbn [omap list_omap fst snd].
  assert (str_eqb k proto_key = false) as ->.
  { apply str_eqb_false. intros ->. by apply Hk. }
  cbn [map fst snd]. f_equal. by apply IH.
Qed.

Lemma index_entries_assigned (f : value → value) elems :
  assigned_entries f (index_entries elems) = index_entries (map f elems).
Proof.
  rewrite assigned_entries_plain, index_entries_map; [done|].
  intros [i Hi]%index_entries_keys. symmetry in Hi. revert Hi.
  apply (dec_nat_ne_name i proto_key 95%N (js "_proto__")); [done|].
  unfold is_digit; lia.
Qed.

(** [normalizeSchema] satisfies the equation of the source. *)
Lemma normalizeSchema_unfold v :
  normalizeSchema v = normalizeSchema_body normalizeSchema v.
Proof.
  destruct v as [| | b | n | s | elems | normalized]; unfold normalizeSchema_body;
    try done; try (cbn [typeof_object negb]; by rewrite orb_true_r).
  - simpl truthy. simpl typeof_object. cbn [negb orb entries].
    assert (lookup_prop (js "type") (index_entries elems) = VUndef) as Htype.
    { apply (lookup_index_entries_name elems _ 116%N (js "ype")); [done|].
      unfold is_digit; lia. }
    rewrite Htype. cbn [is_str]. by rewrite Htype.
  - simpl truthy. simpl typeof_object. cbn [negb orb entries normalizeSchema].
    destruct (is_str (lookup_prop (js "type") normalized) (js "object")) eqn:Hobj.
    + rewrite lookup_set_prop_ne by done.
      assert (Htype : ∀ g : bool, lookup_prop (js "type")
                (if g then set_prop (js "additionalProperties") (VBool true) normalized
                 else normalized) = lookup_prop (js "type") normalized).
      { intros []; [by rewrite lookup_set_prop_ne | done]. }
      rewrite Htype. apply is_str_true in Hobj. rewrite Hobj. simpl is_str.
      cbn [andb]. do 2 f_equal. f_equal.
      rewrite with_prop_lookup by done.
      destruct (lookup_prop (js "properties") normalized) as [| | | | |pa|pl];
        cbn [truthy typeof_object andb entries]; try done; try by case_match.
      symmetry. apply index_entries_assigned.
    + destruct (is_str (lookup_prop (js "type") normalized) (js "array")
                && truthy (lookup_prop (js "items") normalized)) eqn:Harr; [|done].
      by rewrite with_prop_lookup.
Qed.

End IndexFacts.

(** ** Schema normalization *)

Section Schema.
Context {JN : JsNumber} {JE : JsEngine}.

(** The property map a node declares, as the source computes [props]. *)
Lemma declared_entries (properties : value) :
  entries (if truthy properties && typeof_object properties then properties else VObj [])
  = entries properties.
Proof. destruct properties; simpl; by rewrite ?andb_false_r. Qed.

Lemma normalizeSchema_object props :
  lookup_prop (js "type") props = VStr (js "object") →
  normalizeSchema (VObj props) =
  VObj (set_prop (js "properties")
          (VObj (assigned_entries normalizeSchema
                   (entries (lookup_prop (js "properties") props))))
          (if bool_decide (entries (lookup_prop (js "properties") props) = [])
              && is_false (lookup_prop (js "additionalProperties") props)
           then set_prop (js "additionalProperties") (VBool true) props
           else props)).
Proof.
  intros Htype. rewrite normalizeSchema_unfold. unfold normalizeSchema_body.
  cbn [truthy typeof_object negb orb entries]. rewrite Htype.
  cbn [is_str]. rewrite str_eqb_refl. unfold keys. rewrite declared_entries.
  assert (Hlen : bool_decide (length (entries (lookup_prop (js "properties") props)).*1 = 0)
                 = bool_decide (entries (lookup_prop (js "properties") props) = [])).
  { by destruct (entries (lookup_prop (js "properties") props)). }
  rewrite Hlen. clear Hlen.
  generalize (bool_decide (entries (lookup_prop (js "properties") props) = [])
              && is_false (lookup_prop (js "additionalProperties") props)).
  intros g. rewrite lookup_set_prop_ne by done.
  assert (lookup_prop (js "type")
            (if g then set_prop (js "additionalProperties") (VBool true) props else props)
          = VStr (js "object")) as ->.
  { destruct g; [by rewrite lookup_set_prop_ne | done]. }
  done.
Qed.

Lemma normalizeSchema_array props :
  lookup_prop (js "type") props = VStr (js "array") →
  truthy (lookup_prop (js "items") props) = true →
  normalizeSchema (VObj props) =
  VObj (set_prop (js "items") (normalizeSchema (lookup_prop (js "items") props)) props).
Proof.
  intros Htype Hitems. rewrite normalizeSchema_unfold. unfold normalizeSchema_body.
  cbn [truthy typeof_object negb orb entries]. rewrite Htype.
  cbn [is_str]. replace (str_eqb (js "array") (js "object")) with false by done.
  rewrite Htype. cbn [is_str]. by rewrite str_eqb_refl, Hitems.
Qed.

(** A node with a [type] is an object. *)
Lemma typed_node node t :
  get node (js "type") = VStr t → ∃ props, node = VObj props.
Proof. destruct node; try done. by eexists. Qed.

Lemma guardrail_flips node :
  get node (js "type") = VStr (js "object") →
  entries (get node (js "properties")) = [] →
  get node (js "additionalProperties") = VBool false →
  get (normalizeSchema node) (js "additionalProperties") = VBool true.
Proof.
  intros Htype Hempty Hfalse. destruct (typed_node _ _ Htype) as [props ->].
  simpl in Htype, Hempty, Hfalse. rewrite normalizeSchema_object by done.
  rewrite Hempty, Hfalse. simpl bool_decide. cbn [andb is_false get].
  rewrite lookup_set_prop_ne by done. apply lookup_set_prop_eq.
Qed.

Lemma guardrail_keeps node :
  get node (js "type") = VStr (js "object") →
  entries (get node (js "properties")) ≠ [] →
  get (normalizeSchema node) (js "additionalProperties")
  = get node (js "additionalProperties").
Proof.
  intros Htype Hsome. destruct (typed_node _ _ Htype) as [props ->].
  simpl in Htype, Hsome. rewrite normalizeSchema_object by done.
  rewrite bool_decide_eq_false_2 by done. cbn [andb get].
  by rewrite lookup_set_prop_ne.
Qed.

(** C3. Guardrail: on a node of type "object", an empty (or absent)
    [properties] map together with [additionalProperties: false] gives
    [additionalProperties: true] after normalization, and a non-empty
    [properties] map leaves [additionalProperties] as it was. *)
Theorem guardrail node :
  get node (js "type") = VStr (js "object") →
  (entries (get node (js "properties")) = [] →
   get node (js "additionalProperties") = VBool false →
   get (normalizeSchema node) (js "additionalProperties") = VBool true)
  ∧ (entries (get node (js "properties")) ≠ [] →
     get (normalizeSchema node) (js "additionalProperties")
     = get node (js "additionalProperties")).
Proof.
  intros Htype. split.
  - by apply guardrail_flips.
  - by apply guardrail_keeps.
Qed.

Lemma assoc_assigned (f : value → value) k props :
  k ≠ proto_key → assoc k (assigned_entries f props) = f <$> assoc k props.
Proof.
  intros Hk. unfold assigned_entries.
  induction props as [|[k' v] props IH]; [done|]. cbn [omap list_omap fst snd assoc].
  destruct (str_eqb k' proto_key) eqn:Hproto.
  - apply str_eqb_true in Hproto. subst k'.
    assert (str_eqb k proto_key = false) as -> by (by apply str_eqb_false).
    exact IH.
  - cbn [assoc]. destruct (str_eqb k k'); [done | exact IH].
Qed.

(** The property [__proto__] is not among the properties of the result. *)
Lemma assoc_assigned_proto (f : value → value) props :
  assoc proto_key (assigned_entries f props) = None.
Proof.
  unfold assigned_entries.
  induction props as [|[k' v] props IH]; [done|]. cbn [omap list_omap fst snd].
  destruct (str_eqb k' proto_key) eqn:Hproto; [exact IH|]. cbn [assoc].
  assert (str_eqb proto_key k' = false) as ->; [|exact IH].
  apply str_eqb_false. intros <-. by rewrite str_eqb_refl in Hproto.
Qed.

(** Normalization keeps every link of a chain but the one through a
    property named [__proto__], and normalizes what the link leads to. *)
Lemma child_normalizeSchema l node sub :
  l ≠ InProperty proto_key →
  child l node = Some sub →
  child l (normalizeSchema node) = Some (normalizeSchema sub).
Proof.
  intros Hlink. destruct l as [key|]; simpl.
  - assert (key ≠ proto_key) as Hkey by congruence.
    destruct (is_str (get node (js "type")) (js "object")) eqn:Htype; [|done].
    apply is_str_true in Htype. destruct (typed_node _ _ Htype) as [props ->].
    simpl in Htype. simpl get at 1. intros Hsub.
    rewrite normalizeSchema_object by done. cbn [get].
    rewrite lookup_set_prop_ne by done.
    assert (∀ g : bool, lookup_prop (js "type")
              (if g then set_prop (js "additionalProperties") (VBool true) props
               else props) = VStr (js "object")) as ->.
    { intros []; [by rewrite lookup_set_prop_ne | done]. }
    cbn [is_str]. rewrite str_eqb_refl, lookup_set_prop_eq. cbn [entries].
    by rewrite assoc_assigned, Hsub.
  - destruct (is_str (get node (js "type")) (js "array")) eqn:Htype; [|done].
    apply is_str_true in Htype. destruct (typed_node _ _ Htype) as [props ->].
    simpl in Htype. cbn [get andb].
    destruct (truthy (lookup_prop (js "items") props)) eqn:Hitems; [|done].
    intros [= <-]. rewrite normalizeSchema_array by done. cbn [get].
    rewrite lookup_set_prop_ne, Htype by done. cbn [is_str].
    rewrite str_eqb_refl, lookup_set_prop_eq, normalizeSchema_truthy, Hitems.
    done.
Qed.

Lemma descend_normalizeSchema chain root node :
  Forall (fun l => l ≠ InProperty proto_key) chain →
  descend chain root = Some node →
  descend chain (normalizeSchema root) = Some (normalizeSchema node).
Proof.
  intros Hchain. revert root.
  induction Hchain as [|l chain Hl Hchain IH]; intros root; simpl.
  - by intros [= ->].
  - destruct (child l root) as [sub|] eqn:Hchild; [|done]. simpl.
    intros Hrest. rewrite (child_normalizeSchema _ _ _ Hl Hchild). simpl.
    by apply IH.
Qed.

(** X19. Recursive coverage, away from [__proto__]: whatever chain of
    [properties] and [items] links leads from the root to an object-typed
    node without passing through a property named [__proto__], the same
    chain leads in the normalized schema to the normalization of that
    node, so the guardrail is applied there as it is at the root. *)
Theorem recursive_coverage chain root node :
  Forall (fun l => l ≠ InProperty proto_key) chain →
  descend chain root = Some node →
  get node (js "type") = VStr (js "object") →
  descend chain (normalizeSchema root) = Some (normalizeSchema node)
  ∧ (entries (get node (js "properties")) = [] →
     get node (js "additionalProperties") = VBool false →
     get (normalizeSchema node) (js "additionalProperties") = VBool true)
  ∧ (entries (get node (js "properties")) ≠ [] →
     get (normalizeSchema node) (js "additionalProperties")
     = get node (js "additionalProperties")).
Proof.
  intros Hchain Hnode Htype. split; [by apply descend_normalizeSchema|]. split.
  - by apply guardrail_flips.
  - by apply guardrail_keeps.
Qed.

End Schema.

(** ** Tool normalizer *)

Section ToolFacts.
Context {JN : JsNumber} {JE : JsEngine}.

Lemma mapi_res_lookup {A B} (f : nat → A → result B) n l bs :
  mapi_res f n l = Ok bs →
  length bs = length l
  ∧ ∀ i a, l !! i = Some a → ∃ b, bs !! i = Some b ∧ f (n + i) a = Ok b.
Proof.
  revert n bs. induction l as [|a l IH]; intros n bs; simpl.
  - intros [= <-]. split; [done|]. intros i a. by rewrite lookup_nil.
  - destruct (f n a) as [b|] eqn:Hf; [|done]. simpl.
    destruct (mapi_res f (S n) l) as [bs'|] eqn:Hrest; [|done]. simpl.
    intros [= <-]. destruct (IH _ _ Hrest) as [Hlen Hall]. split; [simpl; lia|].
    intros [|i] a'; simpl.
    + intros [= <-]. exists b. by rewrite Nat.add_0_r.
    + intros Hi. destruct (Hall _ _ Hi) as (b' & ? & ?). exists b'.
      by rewrite Nat.add_succ_r.
Qed.

Lemma mapi_res_total {A B} (f : nat → A → result B) (g : A → B) n l :
  Forall (fun a => ∀ i, f i a = Ok (g a)) l → mapi_res f n l = Ok (map g l).
Proof.
  intros Hall. revert n. induction Hall as [|a l Ha _ IH]; intros n; simpl; [done|].
  by rewrite Ha, IH.
Qed.

Lemma target_shaped_not_nullish tool : target_shaped tool = true → nullish tool = false.
Proof. by destruct tool. Qed.

Lemma convertTool_target tool : target_shaped tool = true → convertTool tool = Ok tool.
Proof.
  intros Ht. unfold convertTool.
  by rewrite (target_shaped_not_nullish _ Ht), Ht.
Qed.

(** C6. Pass-through: a record already in target shape is returned as the
    output element at its position, the very value that came in, and a list
    of such records converts to itself. *)
Theorem pass_through tools :
  (∀ outs i tool,
     convertTools tools = Ok outs → tools !! i = Some tool →
     target_shaped tool = true → outs !! i = Some tool)
  ∧ (Forall (fun tool => target_shaped tool = true) tools →
     convertTools tools = Ok tools).
Proof.
  split.
  - intros outs i tool Hrun Hi Ht. unfold convertTools, map_res in Hrun.
    apply mapi_res_lookup in Hrun as [_ Hall].
    destruct (Hall _ _ Hi) as (out & Hout & Hconv).
    rewrite convertTool_target in Hconv by done. by injection Hconv as <-.
  - intros Hall. unfold convertTools, map_res.
    rewrite (mapi_res_total _ id).
    + by rewrite map_id.
    + eapply Forall_impl; [exact Hall|]. intros tool Ht _. by apply convertTool_target.
Qed.

Lemma or_else_truthy a b : truthy b = true → truthy (or_else a b) = true.
Proof. unfold or_else. by destruct (truthy a) eqn:E. Qed.

Lemma truthy_string v : truthy v = true → string_or_absent v → ∃ s, v = VStr s ∧ s ≠ [].
Proof.
  destruct v as [| | | |s| |]; try done. simpl. intros Hs _. exists s. split; [done|].
  intros ->. done.
Qed.

Lemma truthy_object v :
  truthy v = true → object_or_absent v → ∃ props, normalizeSchema v = VObj props.
Proof.
  intros Ht Ho. apply normalizeSchema_typeof_object; by destruct v.
Qed.

Lemma truthy_not_nullish v : truthy v = true → nullish v = false.
Proof. by destruct v. Qed.

(** What [convertTool] builds for a record it does not pass through. *)
Lemma convertTool_legacy tool out :
  convertTool tool = Ok out → target_shaped tool = false →
  truthy (get (get out (js "function")) (js "name")) = true
  ∧ nullish (get (get out (js "function")) (js "parameters")) = false
  ∧ (string_or_absent (get tool (js "alias")) →
     string_or_absent (get tool (js "name")) →
     ∃ s, get (get out (js "function")) (js "name") = VStr s ∧ s ≠ [])
  ∧ (object_or_absent (get (get tool (js "config")) (js "schema")) →
     object_or_absent (get (get tool (js "function")) (js "parameters")) →
     ∃ props, get (get out (js "function")) (js "parameters") = VObj props).
Proof.
  unfold convertTool. destruct (nullish tool); [done|]. intros Hout Ht.
  rewrite Ht in Hout. injection Hout as <-.
  match goal with
  | |- context [ [(_, ?n); _; (_, ?q)] ] => set (name := n); set (parameters := q)
  end.
  change (get (get (VObj _) (js "function")) (js "name")) with name.
  change (get (get (VObj _) (js "function")) (js "parameters")) with parameters.
  assert (Hname : truthy name = true) by (by do 2 apply or_else_truthy).
  split; [done|]. split; [|split].
  - apply truthy_not_nullish. unfold parameters.
    repeat case_match; try done; rewrite normalizeSchema_truthy;
      by repeat match goal with H : _ && _ = true |- _ => apply andb_true_iff in H as [? ?] end.
  - intros Ha Hn. apply truthy_string; [done|]. unfold name, or_else.
    repeat case_match; done.
  - intros Hs Hp. unfold parameters.
    repeat case_match; try (by eexists);
      repeat match goal with H : _ && _ = true |- _ => apply andb_true_iff in H as [? ?] end;
      by apply truthy_object.
Qed.

(** C2, amended. For a record that is not passed through, the emitted
    [function.name] is truthy, and a non-empty string when the record's
    [alias] and [name] are strings or absent; the emitted
    [function.parameters] is neither [null] nor [undefined], and an object
    when the record's [config.schema] and [function.parameters] are objects
    or absent. *)
Theorem legacy_tool_invariant tools outs i tool out :
  convertTools tools = Ok outs → tools !! i = Some tool → outs !! i = Some out →
  target_shaped tool = false →
  truthy (get (get out (js "function")) (js "name")) = true
  ∧ nullish (get (get out (js "function")) (js "parameters")) = false
  ∧ (string_or_absent (get tool (js "alias")) →
     string_or_absent (get tool (js "name")) →
     ∃ s, get (get out (js "function")) (js "name") = VStr s ∧ s ≠ [])
  ∧ (object_or_absent (get (get tool (js "config")) (js "schema")) →
     object_or_absent (get (get tool (js "function")) (js "parameters")) →
     ∃ props, get (get out (js "function")) (js "parameters") = VObj props).
Proof.
  intros Hrun Hi Ho Ht. unfold convertTools, map_res in Hrun.
  apply mapi_res_lookup in Hrun as [_ Hall].
  destruct (Hall _ _ Hi) as (out' & Hout & Hconv).
  assert (out' = out) as -> by congruence.
  by apply convertTool_legacy.
Qed.

End ToolFacts.

(** ** Message reconstructor *)

Section MessageFacts.
Context {JN : JsNumber} {JE : JsEngine}.

Section Run.
Variable clock : nat → nat → Z.
Variable inputMessages : list value.
Variable names : jsstring → looked_up.

Local Abbreviation body := (loop_body clock inputMessages names).

(** C10. A message whose role is already "tool" never meets the pending
    queue: the iteration leaves the queue as it is and emits, when the
    normalized content is neither empty nor blank, the plain message
    [{role: "tool", content}], which has no [tool_call_id]. *)
Theorem tool_role_is_plain i msg st :
  get msg (js "role") = VStr (js "tool") →
  body i msg st =
  content ← convertMessageContent (get msg (js "content"));
  Ok (State
        (convertedMessages st
         ++ (if blank content then [] else [Plain (VStr (js "tool")) content]))
        (pendingToolCallIds st)).
Proof.
  intros Hrole. unfold loop_body.
  assert (nullish msg = false) as -> by (by destruct msg).
  rewrite Hrole.
  destruct (convertMessageContent _) as [content|]; [|done].
  change (Ok content ≫= ?f) with (f content). cbn beta. cbn [is_str isValidRole].
  replace (str_eqb (js "tool") (js "assistant")) with false by done.
  cbn [andb]. rewrite bool_decide_eq_true_2 by (by vm_compute; set_solver).
  unfold emit_plain, push. destruct st as [out pending].
  destruct (blank content); simpl; [by rewrite app_nil_r | done].
Qed.

Lemma or_empty_id content : or_empty content = content.
Proof. unfold or_empty. by case_bool_decide. Qed.

(** The three ways an iteration ends. *)
Lemma loop_body_cases i msg st st' :
  body i msg st = Ok st' →
  ∃ content,
    convertMessageContent (get msg (js "content")) = Ok content
    ∧ ((∃ calls,
          st' = State
                  (convertedMessages st ++ [AssistantCalls (or_empty content) calls])
                  (pendingToolCallIds st ++ map call_id calls))
       ∨ (∃ id rest,
            pendingToolCallIds st = id :: rest ∧ st' = respond id rest content st)
       ∨ (∃ role, st' = emit_plain role content st)).
Proof.
  unfold loop_body. destruct (nullish msg); [done|].
  destruct (convertMessageContent _) as [content|]; [|done].
  change (Ok content ≫= ?f) with (f content). cbn beta.
  intros Hrun. exists content. split; [done|].
  destruct (is_str _ _ && nonempty_array _).
  { destruct (mapi_res _ _ _) as [calls|]; [|done]. injection Hrun as <-.
    left. by exists calls. }
  right.
  repeat (case_match; try by (injection Hrun as <-; eauto 6)).
Qed.

(** No plain message of the output is blank. *)
Lemma loop_body_plain i msg st st' :
  body i msg st = Ok st' →
  Forall well_filled (convertedMessages st) →
  Forall well_filled (convertedMessages st').
Proof.
  intros Hrun Hst.
  destruct (loop_body_cases _ _ _ _ Hrun) as (content & _ & Hcases).
  destruct Hcases as [(calls & ->) | [(id & rest & Hq & ->) | (role & ->)]]; simpl.
  - apply Forall_app. by repeat constructor.
  - apply Forall_app. by repeat constructor.
  - unfold emit_plain. destruct (blank content) eqn:Hblank; [done|]. simpl.
    apply Forall_app. split; [done|]. constructor; [|done]. simpl. by rewrite Hblank.
Qed.

Lemma loop_plain i rest st st' :
  loop clock inputMessages names i rest st = Ok st' →
  Forall well_filled (convertedMessages st) →
  Forall well_filled (convertedMessages st').
Proof.
  revert i st. induction rest as [|msg rest IH]; intros i st; simpl.
  - by intros [= <-].
  - destruct (body i msg st) as [st1|] eqn:Hbody; [|done]. simpl.
    intros Hrest Hst. eapply IH; [exact Hrest|]. by eapply loop_body_plain.
Qed.

(** C8. Content drop: when the normalized content is empty or blank, the
    iteration emits either nothing, leaving the state as it was, or a tool
    response, or an assistant message with tool calls; a message that is
    neither of the two is dropped. Hence no plain message in the output of
    [convertMessages] has empty or blank content. *)
Theorem content_drop :
  (∀ i msg st st' content,
     body i msg st = Ok st' →
     convertMessageContent (get msg (js "content")) = Ok content →
     blank content = true →
     st' = st
     ∨ (∃ id rest,
          pendingToolCallIds st = id :: rest
          ∧ st' = State (convertedMessages st ++ [ToolResponse id content]) rest)
     ∨ (∃ calls,
          st' = State (convertedMessages st ++ [AssistantCalls content calls])
                  (pendingToolCallIds st ++ map call_id calls)))
  ∧ (∀ out role content,
       convertMessages clock inputMessages names = Ok out →
       Plain role content ∈ out → blank content = false).
Proof.
  split.
  - intros i msg st st' content Hrun Hcontent Hblank.
    destruct (loop_body_cases _ _ _ _ Hrun) as (content' & Hc & Hcases).
    assert (content' = content) as -> by congruence.
    destruct Hcases as [(calls & ->) | [(id & rest & Hq & ->) | (role & ->)]].
    + right. right. exists calls. by rewrite or_empty_id.
    + right. left. exists id, rest. split; [done|]. unfold respond.
      by rewrite or_empty_id.
    + left. unfold emit_plain. by rewrite Hblank.
  - intros out role content. unfold convertMessages.
    destruct (loop _ _ _ _ _ _) as [st|] eqn:Hloop; [|done]. intros [= <-] Hin.
    apply loop_plain in Hloop; [|by constructor].
    apply (proj1 (Forall_forall _ _) Hloop) in Hin. simpl in Hin.
    by destruct (blank content).
Qed.

Lemma pushed_ids_snoc out m :
  pushed_ids (out ++ [m])
  = pushed_ids out ++ match m with
                      | AssistantCalls _ calls => map call_id calls
                      | _ => []
                      end.
Proof. unfold pushed_ids. rewrite bind_app. simpl. by rewrite app_nil_r. Qed.

Lemma consumed_ids_snoc out m :
  consumed_ids (out ++ [m])
  = consumed_ids out ++ match m with
                        | ToolResponse id _ => [id]
                        | _ => []
                        end.
Proof. unfold consumed_ids. rewrite bind_app. simpl. by rewrite app_nil_r. Qed.

Lemma paired_snoc out m :
  paired out →
  consumed_ids (out ++ [m]) `prefix_of` pushed_ids (out ++ [m]) →
  paired (out ++ [m]).
Proof.
  intros Hout Hlast n. destruct (decide (n ≤ length out)) as [Hle|Hgt].
  - rewrite take_app_le by done. apply Hout.
  - rewrite take_ge by (rewrite length_app; simpl; lia). exact Hlast.
Qed.

Lemma fifo_prefix st :
  fifo st → consumed_ids (convertedMessages st) `prefix_of` pushed_ids (convertedMessages st).
Proof. intros Hf. by exists (pendingToolCallIds st). Qed.

(** One iteration keeps the invariant. *)
Lemma loop_body_fifo i msg st st' :
  body i msg st = Ok st' → fifo st → fifo st'.
Proof.
  intros Hrun Hf. unfold fifo in *.
  destruct (loop_body_cases _ _ _ _ Hrun) as (content & _ & Hcases).
  destruct Hcases as [(calls & ->) | [(id & rest & Hq & ->) | (role & ->)]]; simpl.
  - by rewrite pushed_ids_snoc, consumed_ids_snoc, app_nil_r, Hf, app_assoc.
  - rewrite pushed_ids_snoc, consumed_ids_snoc, app_nil_r, Hf, Hq.
    by rewrite <- app_assoc.
  - unfold emit_plain. destruct (blank content); [done|]. simpl.
    by rewrite pushed_ids_snoc, consumed_ids_snoc, !app_nil_r.
Qed.

Lemma loop_body_paired i msg st st' :
  body i msg st = Ok st' → fifo st → paired (convertedMessages st) →
  paired (convertedMessages st').
Proof.
  intros Hrun Hf Hp. pose proof (loop_body_fifo _ _ _ _ Hrun Hf) as Hf'.
  apply fifo_prefix in Hf'.
  destruct (loop_body_cases _ _ _ _ Hrun) as (content & _ & Hcases).
  destruct Hcases as [(calls & ->) | [(id & rest & Hq & ->) | (role & ->)]];
    simpl in *; try by apply paired_snoc.
  revert Hf'. unfold emit_plain. destruct (blank content); [done|]. simpl.
  by apply paired_snoc.
Qed.

Lemma loop_invariant i rest st st' :
  loop clock inputMessages names i rest st = Ok st' →
  fifo st → paired (convertedMessages st) →
  fifo st' ∧ paired (convertedMessages st').
Proof.
  revert i st. induction rest as [|msg rest IH]; intros i st; simpl.
  - by intros [= <-].
  - destruct (body i msg st) as [st1|] eqn:Hbody; [|done]. simpl.
    intros Hrest Hf Hp. eapply IH; [exact Hrest| |].
    + by eapply loop_body_fifo.
    + by eapply loop_body_paired.
Qed.

(** C1, amended. Queue pairing: at every point of the output of
    [convertMessages], the ids carried so far by tool responses are the
    first of the ids carried so far by the tool calls of assistant messages,
    in the order of the calls. Hence every response id was emitted before in
    a tool call, no emitted call is answered twice, and the answers come
    first in, first out. The ids of the calls are copied from the transcript
    unchecked, so an id is handed to one response at most only when the ids
    of the emitted calls are pairwise distinct. *)
Theorem queue_pairing out :
  convertMessages clock inputMessages names = Ok out →
  (∀ n, consumed_ids (take n out) `prefix_of` pushed_ids (take n out))
  ∧ (∀ n, length (consumed_ids (take n out)) ≤ length (pushed_ids (take n out)))
  ∧ (∀ j id content,
       out !! j = Some (ToolResponse id content) → id ∈ pushed_ids (take j out))
  ∧ (NoDup (pushed_ids out) → NoDup (consumed_ids out)).
Proof.
  unfold convertMessages.
  destruct (loop _ _ _ _ _ _) as [st|] eqn:Hloop; [|done]. intros [= <-].
  apply loop_invariant in Hloop as [Hf Hp].
  - split; [exact Hp|]. split; [|split].
    + intros n. apply prefix_length, Hp.
    + intros j id content Hj. specialize (Hp (S j)).
      rewrite (take_S_r _ _ _ Hj), pushed_ids_snoc, consumed_ids_snoc, app_nil_r in Hp.
      destruct Hp as [later Hp]. rewrite Hp. set_solver.
    + intros Hnd. apply fifo_prefix in Hf as [pending Hf].
      rewrite Hf in Hnd. by apply NoDup_app in Hnd as [? _].
  - done.
  - intros n. simpl. by rewrite take_nil.
Qed.

End Run.
End MessageFacts.

(** ** The clock *)

Section Clock.
Context {JN : JsNumber} {JE : JsEngine}.

Lemma mapi_res_ext {A B} (f g : nat → A → result B) n l :
  (∀ idx a, l !! idx = Some a → f (n + idx) a = g (n + idx) a) →
  mapi_res f n l = mapi_res g n l.
Proof.
  revert n. induction l as [|a l IH]; intros n Hext; simpl; [done|].
  pose proof (Hext 0 a eq_refl) as Hhead. rewrite Nat.add_0_r in Hhead.
  rewrite Hhead, (IH (S n)); [done|]. intros idx a' Hidx.
  replace (S n + idx) with (n + S idx) by lia. by apply Hext.
Qed.

(** [Date.now()] is read only for a call without an id. *)
Lemma normalizeToolCall_clock clock1 clock2 inputMessages names i idx call :
  (truthy (get call (js "id")) = false → clock1 i idx = clock2 i idx) →
  normalizeToolCall clock1 inputMessages names i idx call
  = normalizeToolCall clock2 inputMessages names i idx call.
Proof.
  intros Hagree. unfold normalizeToolCall, or_else.
  destruct (truthy (get call (js "id"))); [done|]. by rewrite Hagree.
Qed.

Lemma loop_body_clock clock1 clock2 inputMessages names i msg st :
  (∀ idx call,
     elements (get msg (js "tool_calls")) !! idx = Some call →
     truthy (get call (js "id")) = false → clock1 i idx = clock2 i idx) →
  loop_body clock1 inputMessages names i msg st
  = loop_body clock2 inputMessages names i msg st.
Proof.
  intros Hagree. unfold loop_body.
  rewrite (mapi_res_ext (normalizeToolCall clock1 inputMessages names i)
             (normalizeToolCall clock2 inputMessages names i)); [done|].
  intros idx call Hidx. apply normalizeToolCall_clock. by apply Hagree.
Qed.

Lemma loop_clock clock1 clock2 inputMessages names i rest st :
  (∀ j idx msg call,
     rest !! j = Some msg →
     elements (get msg (js "tool_calls")) !! idx = Some call →
     truthy (get call (js "id")) = false → clock1 (i + j) idx = clock2 (i + j) idx) →
  loop clock1 inputMessages names i rest st = loop clock2 inputMessages names i rest st.
Proof.
  revert i st. induction rest as [|msg rest IH]; intros i st Hagree; simpl; [done|].
  rewrite (loop_body_clock clock1 clock2).
  - destruct (loop_body clock2 _ _ _ _ _) as [st1|]; [|done]. simpl.
    apply IH. intros j idx msg' call Hj.
    replace (S i + j) with (i + S j) by lia. by apply (Hagree (S j)).
  - intros idx call. replace i with (i + 0) at 1 2 by lia. by apply (Hagree 0).
Qed.

(** C5, amended. The conversion is a function of the tools, the transcript
    and the clock readings taken at the tool calls that have no id: two
    runs whose clocks agree there give the same outcome, and when every
    tool call has an id the outcome does not depend on the clock at all. *)
Theorem deterministic_up_to_clock inputTools inputMessages :
  (∀ clock1 clock2,
     clocks_agree clock1 clock2 inputMessages →
     convert clock1 inputTools inputMessages = convert clock2 inputTools inputMessages)
  ∧ ((∀ i idx msg call,
        inputMessages !! i = Some msg →
        elements (get msg (js "tool_calls")) !! idx = Some call →
        truthy (get call (js "id")) = true) →
     ∀ clock1 clock2,
       convert clock1 inputTools inputMessages = convert clock2 inputTools inputMessages).
Proof.
  assert (Hmain : ∀ clock1 clock2,
             clocks_agree clock1 clock2 inputMessages →
             convert clock1 inputTools inputMessages
             = convert clock2 inputTools inputMessages).
  { intros clock1 clock2 Hagree. unfold convert, convertMessages.
    destruct (convertTools inputTools) as [tools|]; [|done]. simpl.
    destruct (buildToolNameMap inputTools) as [names|]; [|done]. simpl.
    rewrite (loop_clock clock1 clock2); [done|].
    intros j idx msg call. simpl. apply Hagree. }
  split; [exact Hmain|].
  intros Hids clock1 clock2. apply Hmain.
  intros i idx msg call Hi Hidx Hfalse.
  rewrite (Hids _ _ _ _ Hi Hidx) in Hfalse. done.
Qed.

End Clock.

(** ** Name resolver *)

Section NameFacts.
Context {JN : JsNumber} {JE : JsEngine}.

(** Away from [__proto__] an assignment is an insertion among the own
    properties. *)
Lemma map_set_lookup k' v m k :
  k ≠ proto_key →
  own (map_set k' v m) !! k = if bool_decide (k = k') then Some v else own m !! k.
Proof.
  intros Hk. unfold map_set.
  destruct (str_eqb k' proto_key && negb (shadowed m)) eqn:Hset.
  - apply andb_true_iff in Hset as [->%str_eqb_true _].
    rewrite bool_decide_eq_false_2 by done. by destruct v.
  - cbn [own]. rewrite lookup_insert. case_decide; subst.
    + by rewrite bool_decide_eq_true_2.
    + by rewrite bool_decide_eq_false_2.
Qed.

Lemma assign_lookup key v m m' k :
  assign key v m = Ok m' → k ≠ proto_key →
  own m' !! k = if bool_decide (k ∈ key_of key) then Some v else own m !! k.
Proof.
  unfold assign, key_of. destruct (to_string key) as [k'|]; [|done].
  intros [= <-] Hk. rewrite map_set_lookup by done. case_bool_decide; subst.
  - rewrite bool_decide_eq_true_2; [done | by left].
  - rewrite bool_decide_eq_false_2; [done|]. by intros ->%list_elem_of_singleton.
Qed.

(** One record writes its canonical name under each of its identifiers and
    touches nothing else. *)
Lemma nameMapStep_lookup m tool m' k :
  nameMapStep m tool = Ok m' → k ≠ proto_key →
  own m' !! k = if bool_decide (k ∈ identifiers tool) then Some (canonical_name tool)
                else own m !! k.
Proof.
  unfold nameMapStep, identifiers, canonical_name.
  destruct (nullish tool); [done|].
  destruct (target_shaped tool && truthy _).
  - apply assign_lookup.
  - destruct (truthy (get tool (js "name"))).
    + destruct (assign (get tool (js "name")) _ m) as [m1|] eqn:Hname; [|done].
      cbn [mbind result_bind].
      destruct (truthy (get tool (js "alias"))).
      * intros Halias Hk.
        rewrite (assign_lookup _ _ _ _ _ Halias Hk), (assign_lookup _ _ _ _ _ Hname Hk).
        repeat case_bool_decide; try done.
        -- exfalso. match goal with H : ¬ _ ∈ _ ++ _ |- _ => apply H end.
           apply elem_of_app. by right.
        -- exfalso. match goal with H : ¬ _ ∈ _ ++ _ |- _ => apply H end.
           apply elem_of_app. by left.
        -- exfalso.
           match goal with H : _ ∈ _ ++ _ |- _ => apply elem_of_app in H as [?|?] end;
             done.
      * intros [= <-] Hk. rewrite (assign_lookup _ _ _ _ _ Hname Hk).
        by rewrite app_nil_r.
    + cbn [mbind result_bind]. destruct (truthy (get tool (js "alias"))).
      * apply assign_lookup.
      * intros [= <-] _. by rewrite bool_decide_eq_false_2 by apply not_elem_of_nil.
Qed.

Lemma nameMapLoop_untouched m tools m' k :
  nameMapLoop m tools = Ok m' → k ≠ proto_key →
  (∀ tool, tool ∈ tools → k ∉ identifiers tool) →
  own m' !! k = own m !! k.
Proof.
  intros Hrun Hk. revert m Hrun. induction tools as [|tool tools IH]; intros m; simpl.
  - by intros [= <-].
  - destruct (nameMapStep m tool) as [m1|] eqn:Hstep; [|done]. simpl.
    intros Hrest Hnot. rewrite (IH _ Hrest) by (intros; apply Hnot; by right).
    rewrite (nameMapStep_lookup _ _ _ k Hstep Hk).
    rewrite bool_decide_eq_false_2; [done|]. apply Hnot. by left.
Qed.

Lemma nameMapLoop_last m tools m' i tool k :
  nameMapLoop m tools = Ok m' → k ≠ proto_key →
  tools !! i = Some tool → k ∈ identifiers tool →
  (∀ j later, i < j → tools !! j = Some later → k ∉ identifiers later) →
  own m' !! k = Some (canonical_name tool).
Proof.
  intros Hrun Hkey. revert m i Hrun.
  induction tools as [|head tools IH]; intros m i; simpl; [done|].
  destruct (nameMapStep m head) as [m1|] eqn:Hstep; [|done]. simpl.
  intros Hrest Hi Hk Hlater. destruct i as [|i]; simpl in Hi.
  - injection Hi as ->.
    rewrite (nameMapLoop_untouched _ _ _ k Hrest Hkey).
    + rewrite (nameMapStep_lookup _ _ _ k Hstep Hkey). by rewrite bool_decide_eq_true_2.
    + intros later Hin. apply list_elem_of_lookup in Hin as [j Hj].
      apply (Hlater (S j)); [lia | done].
  - eapply IH; [exact Hrest | exact Hi | exact Hk |].
    intros j later Hij Hj. apply (Hlater (S j)); [lia | done].
Qed.

(** X20. Last wins, away from [__proto__]: the own entry of the name map
    for an identifier other than [__proto__] is the canonical name of the
    last record of the list that is known under that identifier, as name,
    alias or target-shape function name; with two such records it is the
    later one's. *)
Theorem last_wins tools names i tool k :
  buildToolNameMap tools = Ok names → k ≠ proto_key →
  tools !! i = Some tool → k ∈ identifiers tool →
  (∀ j later, i < j → tools !! j = Some later → k ∉ identifiers later) →
  own names !! k = Some (canonical_name tool).
Proof. unfold buildToolNameMap. apply nameMapLoop_last. Qed.

End NameFacts.

(** ** The store: frame *)

Section StoreFacts.
Context {JN : JsNumber} {JE : JsEngine}.

Lemma write_length l k v (h : list cell) : length (write l k v h) = length h.
Proof. unfold write. repeat case_match; by rewrite ?length_insert. Qed.

(** A write to an object allocated after [h0] leaves [h0] as it is. *)
Lemma write_prefix (h0 h : list cell) l k v :
  h0 `prefix_of` h → length h0 ≤ l → h0 `prefix_of` write l k v h.
Proof.
  intros [ext ->] Hl. unfold write. repeat case_match; try by apply prefix_app_r.
  rewrite insert_app_r_alt by done. by apply prefix_app_r.
Qed.

Lemma assign_st_length l k v (h : list cell) : length (assign_st l k v h) = length h.
Proof. unfold assign_st. case_match; [done | apply write_length]. Qed.

Lemma assign_st_prefix (h0 h : list cell) l k v :
  h0 `prefix_of` h → length h0 ≤ l → h0 `prefix_of` assign_st l k v h.
Proof. unfold assign_st. case_match; [done | apply write_prefix]. Qed.

Section BlockFrames.
Variable self : ref_value → list cell → option (ref_value * list cell).
Hypothesis self_frame :
  ∀ v (h : list cell) r h', self v h = Some (r, h') → h `prefix_of` h'.

Lemma each_key_frame (h0 : list cell) props normalizedProps keys h h' :
  each_key self props normalizedProps keys h = Some h' →
  h0 `prefix_of` h → length h0 ≤ normalizedProps → h0 `prefix_of` h'.
Proof.
  revert h. induction keys as [|key keys IH]; intros h; simpl.
  - by intros [= <-].
  - destruct (self _ h) as [[sub h1]|] eqn:Hself; [|done]. simpl.
    intros Hrest Hp Hl. apply (IH _ Hrest); [|done].
    apply assign_st_prefix; [|done]. etrans; [exact Hp|]. by eapply self_frame.
Qed.

Lemma object_block_frame (h0 : list cell) normalized h h' :
  object_block self normalized h = Some h' →
  h0 `prefix_of` h → length h0 ≤ normalized → h0 `prefix_of` h'.
Proof.
  unfold object_block, alloc. intros Hrun Hp Hl. revert Hrun.
  destruct (r_is_str _ _); [|by intros [= <-]].
  assert (Htail : ∀ props keys (hg : list cell),
             h0 `prefix_of` hg →
             each_key self props (length hg) keys (hg ++ [ObjectCell []])
             ≫= (fun h1 => Some (write normalized (js "properties") (RRef (length hg)) h1))
             = Some h' →
             h0 `prefix_of` h').
  { intros props keys hg Hg.
    destruct (each_key _ _ _ _ _) as [h1|] eqn:Heach; [|done]. intros [= <-].
    apply write_prefix; [|done]. eapply each_key_frame; [exact Heach| |].
    - etrans; [exact Hg|]. by apply prefix_app_r.
    - by apply prefix_length. }
  destruct (r_truthy _ && r_typeof_object _); apply Htail.
  - case_match; [by apply write_prefix | done].
  - assert (h0 `prefix_of` h ++ [ObjectCell []])
      by (etrans; [exact Hp|]; by apply prefix_app_r).
    case_match; [by apply write_prefix | done].
Qed.

Lemma array_block_frame (h0 : list cell) normalized h h' :
  array_block self normalized h = Some h' →
  h0 `prefix_of` h → length h0 ≤ normalized → h0 `prefix_of` h'.
Proof.
  unfold array_block. intros Hrun Hp Hl. revert Hrun.
  destruct (_ && _); [|by intros [= <-]].
  destruct (self _ h) as [[items h1]|] eqn:Hself; [|done]. intros [= <-].
  apply write_prefix; [|done]. etrans; [exact Hp|]. by eapply self_frame.
Qed.

End BlockFrames.

(** A run only adds objects to the store, and what it returns is its
    argument or one of the objects it added. *)
Lemma normalizeSchema_st_frame fuel schemaNode (h : list cell) result h' :
  normalizeSchema_st fuel schemaNode h = Some (result, h') →
  h `prefix_of` h'
  ∧ (result = schemaNode ∨ ∃ l, result = RRef l ∧ length h ≤ l).
Proof.
  revert schemaNode h result h'.
  induction fuel as [|fuel IH]; intros schemaNode h result h'; [done|].
  destruct schemaNode as [| | | | |node];
    try (intros [= <- <-]; split; [done | by left]).
  cbn [normalizeSchema_st alloc].
  destruct (object_block _ _ _) as [h1|] eqn:Hobj; [|done]. simpl.
  destruct (array_block _ _ _) as [h2|] eqn:Harr; [|done]. simpl.
  intros [= <- <-].
  assert (Hself : ∀ v (h : list cell) r h',
             normalizeSchema_st fuel v h = Some (r, h') → h `prefix_of` h').
  { intros v ha r hb Hrun. by destruct (IH _ _ _ _ Hrun). }
  split; [|right; by eexists].
  eapply array_block_frame; [exact Hself | exact Harr | | done].
  eapply object_block_frame; [exact Hself | exact Hobj | | done].
  by apply prefix_app_r.
Qed.

End StoreFacts.

(** ** The store: representation of trees *)

Section ReprFacts.
Context {JN : JsNumber} {JE : JsEngine}.

Lemma repr_in_arr F (h : list cell) elems v :
  repr_in F h (VArr elems) v ↔
  ∃ l relems, v = RRef l ∧ F l ∧ h !! l = Some (ArrayCell relems)
              ∧ Forall2 (repr_in F h) elems relems.
Proof.
  simpl. apply exist_proper; intros l. apply exist_proper; intros relems.
  do 3 (apply and_iff_compat_l). split.
  - revert relems. induction elems as [|e elems IH]; intros [|r rs]; simpl; try done.
    intros [? ?]. constructor; [done | by apply IH].
  - induction 1; simpl; [done | by split].
Qed.

Lemma repr_in_obj F (h : list cell) props v :
  repr_in F h (VObj props) v ↔
  ∃ l rprops, v = RRef l ∧ F l ∧ h !! l = Some (ObjectCell rprops)
              ∧ NoDup props.*1 ∧ Forall2 (repr_entry F h) props rprops.
Proof.
  simpl. apply exist_proper; intros l. apply exist_proper; intros rprops.
  do 4 (apply and_iff_compat_l). split.
  - revert rprops. induction props as [|p props IH]; intros [|r rs]; simpl; try done.
    intros (? & ? & ?). constructor; [done | by apply IH].
  - induction 1 as [|p r ps rs [? ?] _ IH]; simpl; [done | by repeat split].
Qed.

(** A representation survives any change of the store outside its
    footprint. *)
Lemma repr_in_transport F F' (h h' : list cell) t v :
  repr_in F h t v →
  (∀ l, F l → F' l) →
  (∀ l c, F l → h !! l = Some c → h' !! l = Some c) →
  repr_in F' h' t v.
Proof.
  intros Hrepr HF Hh. revert v Hrepr.
  induction t as [| | | | |elems IH|props IH] using value_nested_ind; intros v;
    try done.
  - rewrite !repr_in_arr. intros (l & relems & -> & Hl & Hcell & Hall).
    exists l, relems. repeat split; [by apply HF | by eapply Hh |].
    clear Hcell. induction Hall as [|e r es rs He _ IHall]; [done|].
    apply Forall_cons in IH as [IHe IHes]. constructor; [by apply IHe | by apply IHall].
  - rewrite !repr_in_obj. intros (l & rprops & -> & Hl & Hcell & Hnd & Hall).
    exists l, rprops. repeat split; [by apply HF | by eapply Hh | done |].
    clear Hcell Hnd. induction Hall as [|p r ps rs [Hk He] _ IHall]; [done|].
    apply Forall_cons in IH as [IHe IHes].
    constructor; [split; [done | by apply IHe] | by apply IHall].
Qed.

Lemma repr_in_prefix F (h h' : list cell) t v :
  repr_in F h t v → h `prefix_of` h' → repr_in F h' t v.
Proof.
  intros Hrepr Hp. eapply repr_in_transport; [exact Hrepr | done |].
  intros l c _ Hl. by eapply prefix_lookup_Some.
Qed.

(** The tests of the source give the same answers on both sides. *)
Lemma repr_in_tests F (h : list cell) t v :
  repr_in F h t v →
  r_truthy v = truthy t ∧ r_typeof_object v = typeof_object t
  ∧ (∀ lit, r_is_str v lit = is_str t lit) ∧ r_is_false v = is_false t.
Proof.
  destruct t; simpl; try (by intros ->);
    by intros (l & ? & -> & _).
Qed.

Lemma repr_entry_lookup F (h : list cell) props rprops k :
  Forall2 (repr_entry F h) props rprops →
  repr_in F h (lookup_prop k props) (r_lookup_prop k rprops).
Proof.
  induction 1 as [|[k1 e] [k2 r] ps rs [Hk He] _ IH]; simpl; [done|].
  simpl in Hk. subst k2. by destruct (str_eqb k k1).
Qed.

Lemma repr_entry_keys F (h : list cell) props rprops :
  Forall2 (repr_entry F h) props rprops → rprops.*1 = props.*1.
Proof.
  induction 1 as [|[k1 e] [k2 r] ps rs [Hk He] _ IH]; simpl; [done|].
  simpl in Hk. subst k2. by f_equal.
Qed.

Lemma repr_entry_set F (h : list cell) props rprops k e r :
  Forall2 (repr_entry F h) props rprops → repr_in F h e r →
  Forall2 (repr_entry F h) (set_prop k e props) (r_set_prop k r rprops).
Proof.
  intros Hall He.
  induction Hall as [|[k1 e1] [k2 r1] ps rs [Hk He1] Hrest IH]; simpl.
  - by repeat constructor.
  - simpl in Hk. subst k2. destruct (str_eqb k k1); constructor; done.
Qed.

Lemma set_prop_keys k e (props : list (jsstring * value)) :
  NoDup props.*1 → NoDup (set_prop k e props).*1.
Proof.
  assert (Hin : ∀ k' props, k' ∈ (set_prop k e props).*1 → k' = k ∨ k' ∈ props.*1).
  { intros k'. induction props0 as [|[k1 e1] ps IH]; simpl.
    - intros ->%list_elem_of_singleton. by left.
    - destruct (str_eqb k k1); simpl; [by right|].
      intros [->|Hin]%elem_of_cons; [right; by left|].
      destruct (IH Hin); [by left | right; by right]. }
  induction props as [|[k1 e1] ps IH]; simpl.
  - intros _. apply NoDup_singleton.
  - intros [Hnot Hnd]%NoDup_cons. destruct (str_eqb k k1) eqn:Hk; simpl.
    + by apply NoDup_cons.
    + apply NoDup_cons. split; [|by apply IH].
      intros [->|?]%Hin; [|done]. by rewrite str_eqb_refl in Hk.
Qed.

(** *** Array indices are pairwise distinct property names *)

Lemma js_inj s1 s2 : js s1 = js s2 → s1 = s2.
Proof.
  unfold js. intros Heq.
  rewrite <- (string_of_list_ascii_of_string s1), <- (string_of_list_ascii_of_string s2).
  f_equal. revert Heq.
  generalize (list_ascii_of_string s1) (list_ascii_of_string s2).
  induction l as [|a l IH]; intros [|b l']; simpl; try done.
  intros [= Hab Hrest]. f_equal; [|by apply IH].
  by rewrite <- (ascii_N_embedding a), <- (ascii_N_embedding b), Hab.
Qed.

Lemma dec_nat_inj a b : dec_nat a = dec_nat b → a = b.
Proof.
  unfold dec_nat. intros Heq%js_inj.
  assert (Hnil : ∀ n, Nat.to_uint n ≠ Decimal.Nil).
  { intros n Hn. pose proof (DecimalNat.Unsigned.of_to n) as Hof.
    rewrite Hn in Hof. simpl in Hof. subst n. done. }
  apply DecimalNat.Unsigned.to_uint_inj.
  pose proof (NilZero.usu _ (Hnil a)) as Ha.
  pose proof (NilZero.usu _ (Hnil b)) as Hb.
  rewrite Heq in Ha. congruence.
Qed.

Lemma index_keys_NoDup {A} (l : list A) :
  NoDup (imap (fun i v => (dec_nat i, v)) l).*1.
Proof.
  apply NoDup_alt. intros i j k.
  rewrite !list_lookup_fmap, !list_lookup_imap.
  destruct (l !! i), (l !! j); simpl; try done.
  intros [= <-] [= Hk]. by apply dec_nat_inj.
Qed.

Lemma Forall2_imap {A B C D} (R : A → B → Prop) (R' : C → D → Prop)
    (f : nat → A → C) (g : nat → B → D) l1 l2 :
  (∀ i x y, R x y → R' (f i x) (g i y)) →
  Forall2 R l1 l2 → Forall2 R' (imap f l1) (imap g l2).
Proof.
  intros Hfg Hall. revert f g Hfg.
  induction Hall as [|x y l1 l2 Hxy _ IH]; intros f g Hfg; simpl; [done|].
  constructor; [by apply Hfg|]. apply IH. intros i. apply Hfg.
Qed.

(** The property map of a node and the object that stands for it. *)
Lemma repr_in_entries F (h : list cell) p rp :
  repr_in F h p rp → truthy p && typeof_object p = true →
  ∃ lp, rp = RRef lp ∧ F lp ∧ lp < length h
        ∧ Forall2 (repr_entry F h) (entries p) (own_entries h lp)
        ∧ NoDup (entries p).*1.
Proof.
  destruct p as [| | | | |elems|props]; try done;
    try (cbn [typeof_object]; by rewrite andb_false_r); intros Hrepr _.
  - apply repr_in_arr in Hrepr as (l & relems & -> & Hl & Hcell & Hall).
    exists l. unfold own_entries. rewrite Hcell.
    repeat split; [done | by eapply lookup_lt_Some | | apply index_keys_NoDup].
    eapply Forall2_imap; [|exact Hall]. by intros i x y Hxy.
  - apply repr_in_obj in Hrepr as (l & rprops & -> & Hl & Hcell & Hnd & Hall).
    exists l. unfold own_entries. rewrite Hcell.
    repeat split; [done | by eapply lookup_lt_Some | done | done].
Qed.

Lemma r_set_prop_fresh k v (l : list (jsstring * ref_value)) :
  k ∉ l.*1 → r_set_prop k v l = l ++ [(k, v)].
Proof.
  induction l as [|[k' v'] l IH]; simpl; [done|].
  intros [Hne Hnot]%not_elem_of_cons. apply str_eqb_false in Hne.
  by rewrite Hne, IH.
Qed.

Lemma r_lookup_prop_middle k v (l1 l2 : list (jsstring * ref_value)) :
  k ∉ l1.*1 → r_lookup_prop k (l1 ++ (k, v) :: l2) = v.
Proof.
  induction l1 as [|[k' v'] l1 IH]; simpl.
  - by rewrite str_eqb_refl.
  - intros [Hne Hnot]%not_elem_of_cons. apply str_eqb_false in Hne.
    by rewrite Hne, IH.
Qed.

End ReprFacts.

(** ** The store: a run computes the normalized tree *)

Section Refinement.
Context {JN : JsNumber} {JE : JsEngine}.

Lemma own_entries_prefix (h0 h : list cell) l :
  h0 `prefix_of` h → l < length h0 → own_entries h l = own_entries h0 l.
Proof.
  intros Hp Hl. unfold own_entries.
  destruct (lookup_lt_is_Some_2 h0 l Hl) as [c Hc].
  by rewrite Hc, (prefix_lookup_Some _ _ _ _ Hc Hp).
Qed.

Lemma insert_prefix (h0 h : list cell) l c :
  h0 `prefix_of` h → length h0 ≤ l → h0 `prefix_of` <[l := c]> h.
Proof.
  intros [ext ->] Hl. rewrite insert_app_r_alt by done. by apply prefix_app_r.
Qed.

Lemma write_object (h : list cell) l k v props :
  h !! l = Some (ObjectCell props) →
  write l k v h = <[l := ObjectCell (r_set_prop k v props)]> h.
Proof. intros Hl. unfold write. by rewrite Hl. Qed.

(** The loop over the keys, from any point on: [done] and [acc] are the
    entries already normalized and stored, [todo] the entries to come. *)
Lemma each_key_refines fuel (F : nat → Prop) (h0 : list cell) lp np rents :
  (∀ l, F l → l < length h0) →
  own_entries h0 lp = rents → lp < length h0 →
  NoDup rents.*1 →
  length h0 ≤ np →
  ∀ todo rtodo done rdone (hcur : list cell) acc,
    rents = rdone ++ rtodo →
    Forall2 (repr_entry F h0) todo rtodo →
    Forall (refines_with fuel) todo.*2 →
    h0 `prefix_of` hcur → np < length hcur →
    hcur !! np = Some (ObjectCell acc) →
    (∀ k, k ∈ acc.*1 → k ∈ rdone.*1) →
    Forall2 (repr_entry (fun l => F l ∨ np < l) hcur) done acc →
    ∃ hout accf,
      each_key (normalizeSchema_st fuel) (RRef lp) np todo.*1 hcur = Some hout
      ∧ h0 `prefix_of` hout
      ∧ length hcur ≤ length hout
      ∧ (∀ l, l < length hcur → l ≠ np → hout !! l = hcur !! l)
      ∧ hout !! np = Some (ObjectCell accf)
      ∧ Forall2 (repr_entry (fun l => F l ∨ np < l) hout)
          (done ++ assigned_entries normalizeSchema todo) accf.
Proof.
  intros HF Hrents Hlp Hnd Hnp.
  induction todo as [|[k c] todo IH];
    intros rtodo done rdone hcur acc Hsplit Htodo Hfuel Hh0 Hnpcur Hcell Hkeys Hdone.
  - exists hcur, acc. simpl. rewrite app_nil_r. by repeat split.
  - apply Forall2_cons_inv_l in Htodo as ([k' rc] & rtodo' & [Hk Hc] & Htodo & ->).
    simpl in Hk, Hc. subst k'.
    apply Forall_cons in Hfuel as [Hfc Hfuel].
    assert (Hfresh : k ∉ rdone.*1).
    { rewrite Hsplit, fmap_app in Hnd. apply NoDup_app in Hnd as (_ & Hdisj & _).
      intros Hin. apply (Hdisj _ Hin). simpl. by left. }
    cbn [fmap list_fmap each_key fst]. unfold read.
    rewrite (own_entries_prefix h0 hcur) by done.
    rewrite Hrents, Hsplit, r_lookup_prop_middle by done.
    destruct (Hfc F h0 hcur rc Hc Hh0 HF) as (r & h1 & Hrun & Hr).
    rewrite Hrun. simpl.
    destruct (normalizeSchema_st_frame _ _ _ _ _ Hrun) as [Hcur1 _].
    pose proof (prefix_lookup_Some _ _ _ _ Hcell Hcur1) as Hcell1.
    assert (Hlen1 : length hcur ≤ length h1) by (by apply prefix_length).
    unfold assign_st, assigned_entries. cbn [omap list_omap fst snd].
    destruct (str_eqb k proto_key) eqn:Hproto.
    { (* the setter: nothing is stored *)
      destruct (IH rtodo' done (rdone ++ [(k, rc)]) h1 acc)
        as (hout & accf & Heach & Hout0 & Hlenout & Hsame & Hnpout & Hall).
      - by rewrite Hsplit, <- app_assoc.
      - done.
      - done.
      - by etrans.
      - lia.
      - done.
      - intros k' Hk'. rewrite fmap_app. apply elem_of_app. left. by apply Hkeys.
      - eapply Forall2_impl; [exact Hdone|]. intros [k1 e1] [k2 r1] [? He].
        split; [done|]. by eapply repr_in_prefix.
      - exists hout, accf. rewrite Heach.
        repeat split; [done | lia | | done | done].
        intros l Hl Hne. rewrite Hsame by lia.
        destruct (lookup_lt_is_Some_2 hcur l Hl) as [c' Hc'].
        by rewrite Hc', (prefix_lookup_Some _ _ _ _ Hc' Hcur1). }
    rewrite (write_object _ _ _ _ _ Hcell1), r_set_prop_fresh
      by (intros Hin; by apply Hfresh, Hkeys).
    set (h2 := <[np := ObjectCell (acc ++ [(k, r)])]> h1).
    assert (Hlen2 : length h2 = length h1) by apply length_insert.
    assert (Hstay : ∀ l c', (F l ∨ np < l) → h1 !! l = Some c' → h2 !! l = Some c').
    { intros l c' Hl Hl1. unfold h2. rewrite list_lookup_insert_ne; [done|].
      destruct Hl as [Hl%HF|Hl]; lia. }
    destruct (IH rtodo' (done ++ [(k, normalizeSchema c)]) (rdone ++ [(k, rc)])
                h2 (acc ++ [(k, r)]))
      as (hout & accf & Heach & Hout0 & Hlenout & Hsame & Hnpout & Hall).
    + by rewrite Hsplit, <- app_assoc.
    + done.
    + done.
    + apply insert_prefix; [by etrans | done].
    + lia.
    + unfold h2. apply list_lookup_insert_eq. lia.
    + intros k'. rewrite !fmap_app, !elem_of_app. intros [?|?]; [left; by apply Hkeys|].
      by right.
    + apply Forall2_app.
      * eapply Forall2_impl; [exact Hdone|]. intros [k1 e1] [k2 r1] [? He]. split; [done|].
        eapply repr_in_transport; [exact He | done |].
        intros l c' Hl Hlc. apply Hstay; [done|]. by eapply prefix_lookup_Some.
      * constructor; [|done]. split; [done|]. simpl.
        eapply repr_in_transport; [exact Hr | |].
        -- intros l [?|?]; [by left | right; lia].
        -- intros l c' Hl Hlc. apply Hstay; [|done]. destruct Hl; [by left | right; lia].
    + exists hout, accf. rewrite Heach.
      repeat split; [done | lia | | done |].
      * intros l Hl Hne. rewrite Hsame by lia.
        unfold h2. rewrite list_lookup_insert_ne by done.
        destruct (lookup_lt_is_Some_2 hcur l Hl) as [c' Hc'].
        by rewrite Hc', (prefix_lookup_Some _ _ _ _ Hc' Hcur1).
      * rewrite <- app_assoc in Hall. exact Hall.
Qed.

Lemma assigned_entries_NoDup (f : value → value) (props : list (jsstring * value)) :
  NoDup props.*1 → NoDup (assigned_entries f props).*1.
Proof.
  assert (Hin : ∀ k ps, k ∈ (assigned_entries f ps).*1 → k ∈ ps.*1).
  { intros k ps. unfold assigned_entries.
    induction ps as [|[k1 v1] ps IH]; [done|]. cbn [omap list_omap fst snd].
    destruct (str_eqb k1 proto_key).
    - intros Hk. rewrite fmap_cons. right. by apply IH.
    - rewrite !fmap_cons. intros [->|Hk]%elem_of_cons; [by left|]. right. by apply IH. }
  unfold assigned_entries in *.
  induction props as [|[k1 v1] props IH]; [done|].
  rewrite fmap_cons. intros [Hnot Hnd]%NoDup_cons. cbn [omap list_omap fst snd].
  destruct (str_eqb k1 proto_key); [by apply IH|].
  rewrite fmap_cons. apply NoDup_cons. split; [|by apply IH].
  intros Hk. by apply Hnot, Hin.
Qed.

Lemma read_object (h : list cell) l k props :
  h !! l = Some (ObjectCell props) → read h (RRef l) k = r_lookup_prop k props.
Proof. intros Hl. unfold read, own_entries. by rewrite Hl. Qed.

Lemma entries_not_object p : truthy p && typeof_object p = false → entries p = [].
Proof. by destruct p. Qed.

(** The first block on a node of type "object". *)
Lemma object_block_refines f (F : nat → Prop) (h0 h : list cell) normalized tprops rprops :
  (∀ l, F l → l < length h0) →
  h0 `prefix_of` h → length h0 ≤ normalized →
  h !! normalized = Some (ObjectCell rprops) →
  Forall2 (repr_entry F h0) tprops rprops →
  lookup_prop (js "type") tprops = VStr (js "object") →
  Forall (refines_with f) (entries (lookup_prop (js "properties") tprops)).*2 →
  ∃ h' rprops',
    object_block (normalizeSchema_st f) normalized h = Some h'
    ∧ h' !! normalized = Some (ObjectCell rprops')
    ∧ Forall2 (repr_entry (fun l => F l ∨ normalized < l) h')
        (set_prop (js "properties")
           (VObj (assigned_entries normalizeSchema
                    (entries (lookup_prop (js "properties") tprops))))
           (if bool_decide (entries (lookup_prop (js "properties") tprops) = [])
               && is_false (lookup_prop (js "additionalProperties") tprops)
            then set_prop (js "additionalProperties") (VBool true) tprops
            else tprops))
        rprops'.
Proof.
  intros HF Hh0 Hnorm Hcell Hentries Htype Hfuel.
  pose proof (lookup_lt_Some _ _ _ Hcell) as Hnlen.
  assert (Hread : ∀ k, repr_in F h0 (lookup_prop k tprops)
                          (read h (RRef normalized) k)).
  { intros k. rewrite (read_object _ _ _ _ Hcell). by apply repr_entry_lookup. }
  unfold object_block.
  destruct (repr_in_tests _ _ _ _ (Hread (js "type"))) as (_ & _ & -> & _).
  rewrite Htype. cbn [is_str]. rewrite str_eqb_refl.
  set (p := lookup_prop (js "properties") tprops) in *.
  pose proof (Hread (js "properties")) as Hp. fold p in Hp.
  destruct (repr_in_tests _ _ _ _ Hp) as (-> & -> & _ & _).
  destruct (repr_in_tests _ _ _ _ (Hread (js "additionalProperties")))
    as (_ & _ & _ & Hfalse).
  (* the tree of the guarded copy and the object that stands for it *)
  set (guard := bool_decide (entries p = [])
                && is_false (lookup_prop (js "additionalProperties") tprops)).
  set (guarded := if guard then set_prop (js "additionalProperties") (VBool true) tprops
                  else tprops).
  set (rguarded := if guard
                   then r_set_prop (js "additionalProperties") (RBool true) rprops
                   else rprops).
  assert (Hguarded : Forall2 (repr_entry F h0) guarded rguarded).
  { unfold guarded, rguarded. destruct guard; [|done]. by apply repr_entry_set. }
  (* what is left once [props] and the guarded store are known *)
  assert (Htail : ∀ (hg : list cell) props' (rents : list (jsstring * ref_value)),
             h0 `prefix_of` hg → normalized < length hg →
             hg !! normalized = Some (ObjectCell rguarded) →
             (rents = [] ∧ entries p = []
              ∨ ∃ lp, props' = RRef lp ∧ lp < length h0 ∧ own_entries h0 lp = rents
                      ∧ NoDup rents.*1 ∧ Forall2 (repr_entry F h0) (entries p) rents) →
             ∃ h' rprops',
               (let '(normalizedProps, h) := alloc (ObjectCell []) hg in
                h ← each_key (normalizeSchema_st f) props' normalizedProps rents.*1 h;
                Some (write normalized (js "properties") (RRef normalizedProps) h))
               = Some h'
               ∧ h' !! normalized = Some (ObjectCell rprops')
               ∧ Forall2 (repr_entry (fun l => F l ∨ normalized < l) h')
                   (set_prop (js "properties")
                      (VObj (assigned_entries normalizeSchema (entries p)))
                      guarded) rprops').
  { intros hg props' rents Hg Hng Hgcell Hprops. cbn [alloc].
    set (np := length hg). set (hn := hg ++ [ObjectCell []]).
    assert (Hloop : ∃ (hout : list cell) accf,
               each_key (normalizeSchema_st f) props' np rents.*1 hn = Some hout
               ∧ h0 `prefix_of` hout
               ∧ hout !! normalized = Some (ObjectCell rguarded)
               ∧ hout !! np = Some (ObjectCell accf)
               ∧ NoDup (entries p).*1
               ∧ Forall2 (repr_entry (fun l => F l ∨ np < l) hout)
                   (assigned_entries normalizeSchema (entries p)) accf).
    { destruct Hprops as [[-> ->] | (lp & -> & Hlp & Hown & Hnd & Hall)].
      - exists hn, []. simpl. repeat split.
        + etrans; [exact Hg|]. by apply prefix_app_r.
        + unfold hn. by rewrite lookup_app_l.
        + unfold hn, np. by rewrite list_lookup_middle.
        + constructor.
        + constructor.
      - destruct (each_key_refines f F h0 lp np rents HF Hown Hlp Hnd
                    ltac:(unfold np; apply prefix_length in Hg; lia)
                    (entries p) rents [] [] hn [])
          as (hout & accf & Heach & Hout0 & _ & Hsame & Hnpout & Hall').
        + done.
        + done.
        + done.
        + etrans; [exact Hg|]. by apply prefix_app_r.
        + unfold hn, np. rewrite length_app. simpl. lia.
        + unfold hn, np. by rewrite list_lookup_middle.
        + done.
        + constructor.
        + exists hout, accf. rewrite (repr_entry_keys _ _ _ _ Hall).
          repeat split; try done.
          * rewrite Hsame; [| unfold hn; rewrite length_app; simpl; lia | unfold np; lia].
            unfold hn. by rewrite lookup_app_l.
          * by rewrite <- (repr_entry_keys _ _ _ _ Hall). }
    destruct Hloop as (hout & accf & Heach & Hout0 & Hnout & Hnpout & Hnd & Hall).
    rewrite Heach. simpl. rewrite (write_object _ _ _ _ _ Hnout).
    eexists _, _. split; [done|]. split.
    { apply list_lookup_insert_eq. by eapply lookup_lt_Some. }
    assert (Hstay : ∀ l c, (F l ∨ normalized < l) → hout !! l = Some c →
                           <[normalized := ObjectCell
                               (r_set_prop (js "properties") (RRef np) rguarded)]> hout
                             !! l = Some c).
    { intros l c Hl Hlc. rewrite list_lookup_insert_ne; [done|].
      destruct Hl as [Hl%HF|Hl]; lia. }
    apply repr_entry_set.
    - eapply Forall2_impl; [exact Hguarded|]. intros [k1 e1] [k2 r1] [? He].
      split; [done|]. eapply repr_in_transport; [exact He | by left |].
      intros l c Hl Hlc. apply Hstay; [by left|]. by eapply prefix_lookup_Some.
    - apply repr_in_obj. exists np, accf. repeat split.
      + right. unfold np. lia.
      + apply Hstay; [right; unfold np; lia | done].
      + by apply assigned_entries_NoDup.
      + eapply Forall2_impl; [exact Hall|]. intros [k1 e1] [k2 r1] [? He].
        split; [done|]. eapply repr_in_transport; [exact He | |].
        * intros l [?|?]; [by left | right; unfold np in *; lia].
        * intros l c Hl Hlc. apply Hstay; [|done].
          destruct Hl; [by left | right; unfold np in *; lia]. }
  destruct (truthy p && typeof_object p) eqn:Hobj.
  - destruct (repr_in_entries _ _ _ _ Hp Hobj) as (lp & Hrp & _ & Hlp & Hall & Hnd).
    rewrite Hrp. cbn [r_keys].
    rewrite (own_entries_prefix h0 h) by done.
    set (rents := own_entries h0 lp) in *.
    pose proof (repr_entry_keys _ _ _ _ Hall) as Hkeys.
    assert (bool_decide (length rents.*1 = 0) = bool_decide (entries p = [])) as ->.
    { rewrite Hkeys. by destruct (entries p). }
    rewrite Hfalse. fold guard.
    apply Htail.
    + destruct guard; [by apply write_prefix | done].
    + destruct guard; by rewrite ?write_length.
    + unfold rguarded. destruct guard; [|done].
      rewrite (write_object _ _ _ _ _ Hcell). by apply list_lookup_insert_eq.
    + right. exists lp. by rewrite Hkeys.
  - cbn [alloc r_keys]. set (ha := h ++ [ObjectCell []]).
    assert (Hacell : ha !! normalized = Some (ObjectCell rprops))
      by (unfold ha; by rewrite lookup_app_l).
    assert (own_entries ha (length h) = []) as ->.
    { unfold own_entries, ha. by rewrite list_lookup_middle. }
    rewrite (read_object _ _ _ _ Hacell).
    rewrite (read_object _ _ _ _ Hcell) in Hfalse. rewrite Hfalse.
    pose proof (entries_not_object _ Hobj) as Hempty.
    assert (bool_decide (length ([] : list (jsstring * ref_value)).*1 = 0)
            = bool_decide (entries p = [])) as ->.
    { by rewrite Hempty. }
    fold guard.
    apply (Htail _ _ []).
    + assert (h0 `prefix_of` ha) by (etrans; [exact Hh0|]; by apply prefix_app_r).
      destruct guard; [by apply write_prefix | done].
    + assert (normalized < length ha) by (unfold ha; rewrite length_app; lia).
      destruct guard; by rewrite ?write_length.
    + unfold rguarded. destruct guard; [|done].
      rewrite (write_object _ _ _ _ _ Hacell). apply list_lookup_insert_eq.
      unfold ha. rewrite length_app. lia.
    + by left.
Qed.

Lemma bind_Some_l {A B} (x : A) (f : A → option B) : Some x ≫= f = f x.
Proof. done. Qed.

Lemma refines_fuel_max (l : list value) :
  Forall refines l → ∃ fuel, ∀ fuel', fuel ≤ fuel' → Forall (refines_with fuel') l.
Proof.
  induction 1 as [|t l [ft Ht] _ [fl Hl]].
  - exists 0. by constructor.
  - exists (ft `max` fl). intros fuel' Hle. constructor; [apply Ht | apply Hl]; lia.
Qed.

Lemma lookup_prop_cases k (props : list (jsstring * value)) :
  lookup_prop k props = VUndef ∨ lookup_prop k props ∈ props.*2.
Proof.
  induction props as [|[k' v] props IH]; simpl; [by left|].
  destruct (str_eqb k k'); [right; by left|].
  destruct IH; [by left | right; by right].
Qed.

Lemma refines_leaf t : truthy t && typeof_object t = false → refines t.
Proof.
  intros Hleaf. exists 1. intros [|f] Hf; [lia|]. intros F h0 h v Hrepr _ _.
  destruct t; try done; simpl in Hrepr; subst v; by eexists _, _.
Qed.

Lemma normalizeSchema_other props :
  is_str (lookup_prop (js "type") props) (js "object") = false →
  is_str (lookup_prop (js "type") props) (js "array")
  && truthy (lookup_prop (js "items") props) = false →
  normalizeSchema (VObj props) = VObj props.
Proof. intros Hobj Harr. simpl. by rewrite Hobj, Harr. Qed.

Lemma index_entries_values (elems : list value) : (index_entries elems).*2 = elems.
Proof.
  unfold index_entries. generalize dec_nat. intros g. revert g.
  induction elems as [|e elems IH]; intros g; simpl; [done|]. f_equal. apply IH.
Qed.

(** A node whose sub-schemas are refined is refined. *)
Lemma refines_node t :
  truthy t && typeof_object t = true →
  Forall (fun c => refines c ∧ Forall refines (entries c).*2) (entries t).*2 →
  refines t.
Proof.
  intros Hnode Hsubs.
  assert (Hsub : ∀ k, refines (lookup_prop k (entries t))
                      ∧ Forall refines (entries (lookup_prop k (entries t))).*2).
  { intros k. destruct (lookup_prop_cases k (entries t)) as [-> | Hin].
    - split; [by apply refines_leaf | constructor].
    - by apply (proj1 (Forall_forall _ _) Hsubs). }
  destruct (refines_fuel_max _ (proj2 (Hsub (js "properties")))) as [f1 Hf1].
  destruct (proj1 (Hsub (js "items"))) as [f2 Hf2].
  exists (S (f1 `max` f2)). intros [|f] Hf; [lia|].
  intros F h0 h v Hrepr Hh0 HF.
  destruct (repr_in_entries _ _ _ _ Hrepr Hnode) as (node & -> & Hnodef & Hnlt & Hall & Hnd).
  cbn [normalizeSchema_st alloc]. rewrite (own_entries_prefix h0 h) by done.
  set (rprops := own_entries h0 node) in *. set (normalized := length h).
  set (h1 := h ++ [ObjectCell rprops]).
  assert (Hcell1 : h1 !! normalized = Some (ObjectCell rprops))
    by (unfold h1, normalized; by rewrite list_lookup_middle).
  assert (Hh1 : h0 `prefix_of` h1) by (etrans; [exact Hh0|]; by apply prefix_app_r).
  assert (Hn0 : length h0 ≤ normalized) by (by apply prefix_length).
  assert (Hread : ∀ k, repr_in F h0 (lookup_prop k (entries t))
                          (read h1 (RRef normalized) k)).
  { intros k. rewrite (read_object _ _ _ _ Hcell1). by apply repr_entry_lookup. }
  assert (Hbase : Forall2 (repr_entry (fun l => F l ∨ normalized ≤ l) h1)
                    (entries t) rprops).
  { eapply Forall2_impl; [exact Hall|]. intros [k1 e1] [k2 r1] [? He].
    split; [done|]. eapply repr_in_transport; [exact He | by left |].
    intros l c _ Hl. by eapply prefix_lookup_Some. }
  destruct (is_str (lookup_prop (js "type") (entries t)) (js "object")) eqn:Hobj.
  - (* type "object" *)
    apply is_str_true in Hobj.
    destruct t as [| | | | |elems|props]; try done.
    { simpl in Hobj.
      rewrite (lookup_index_entries_name elems _ 116%N (js "ype")) in Hobj;
        [done | done | unfold is_digit; lia]. }
    cbn [entries] in *.
    destruct (object_block_refines f F h0 h1 normalized props rprops HF Hh1 Hn0 Hcell1
                Hall Hobj ltac:(apply Hf1; lia)) as (h2 & rprops2 & -> & Hcell2 & Hall2).
    rewrite normalizeSchema_object by done.
    rewrite bind_Some_l. unfold array_block.
    rewrite (read_object _ _ _ _ Hcell2).
    destruct (repr_in_tests _ _ _ _
                (repr_entry_lookup _ _ _ _ (js "type") Hall2)) as (_ & _ & -> & _).
    rewrite lookup_set_prop_ne by done.
    assert (∀ g : bool, lookup_prop (js "type")
              (if g then set_prop (js "additionalProperties") (VBool true) props
               else props) = VStr (js "object")) as ->.
    { intros []; [by rewrite lookup_set_prop_ne | done]. }
    cbn [is_str]. replace (str_eqb (js "object") (js "array")) with false by done.
    cbn [andb]. rewrite bind_Some_l. eexists _, _. split; [done|].
    apply repr_in_obj.
    exists normalized, rprops2. repeat split; [right; lia | done | |].
    + apply set_prop_keys. case_match; [by apply set_prop_keys | done].
    + eapply Forall2_impl; [exact Hall2|]. intros [k1 e1] [k2 r1] [? He].
      split; [done|]. eapply repr_in_transport; [exact He | | done].
      intros l [?|?]; [by left | right; lia].
  - destruct (is_str (lookup_prop (js "type") (entries t)) (js "array")
              && truthy (lookup_prop (js "items") (entries t))) eqn:Harr.
    + (* type "array" with items *)
      destruct t as [| | | | |elems|props]; try done.
      { simpl in Harr.
        rewrite (lookup_index_entries_name elems (js "type") 116%N (js "ype")) in Harr;
          [done | done | unfold is_digit; lia]. }
      cbn [entries] in *. apply andb_true_iff in Harr as [Htype Hitems].
      apply is_str_true in Htype.
      rewrite normalizeSchema_array by done.
      unfold object_block, array_block.
      destruct (repr_in_tests _ _ _ _ (Hread (js "type"))) as (_ & _ & Htest & _).
      rewrite Htest, Hobj, bind_Some_l, Htest.
      destruct (repr_in_tests _ _ _ _ (Hread (js "items"))) as (-> & _).
      rewrite Htype, Hitems. cbn [is_str]. rewrite str_eqb_refl. cbn [andb].
      destruct (Hf2 f ltac:(lia) F h0 h1 _ (Hread (js "items")) Hh1 HF)
        as (r & h2 & Hrun & Hr).
      rewrite Hrun, bind_Some_l. cbn beta iota.
      destruct (normalizeSchema_st_frame _ _ _ _ _ Hrun) as [H12 _].
      pose proof (prefix_lookup_Some _ _ _ _ Hcell1 H12) as Hcell2.
      rewrite (write_object _ _ _ _ _ Hcell2), bind_Some_l.
      eexists _, _. split; [done|].
      apply repr_in_obj.
      eexists normalized, _. split; [done|].
      assert (Hlen1 : length h1 = S normalized)
        by (unfold h1; rewrite length_app; simpl; lia).
      assert (Hstay : ∀ l c, (F l ∨ length h1 ≤ l) → h2 !! l = Some c →
                             <[normalized := ObjectCell
                                 (r_set_prop (js "items") r rprops)]> h2 !! l = Some c).
      { intros l c Hl Hlc. rewrite list_lookup_insert_ne; [done|].
        destruct Hl as [Hl%HF|Hl]; lia. }
      repeat split; [right; lia | | by apply set_prop_keys |].
      * apply list_lookup_insert_eq. by eapply lookup_lt_Some.
      * apply repr_entry_set.
        -- eapply Forall2_impl; [exact Hall|]. intros [k1 e1] [k2 r1] [? He].
           split; [done|]. eapply repr_in_transport; [exact He | by left |].
           intros l c Hl Hlc. apply Hstay; [by left|].
           eapply prefix_lookup_Some; [exact Hlc | by etrans].
        -- eapply repr_in_transport; [exact Hr | |].
           ++ intros l [?|?]; [by left | right; lia].
           ++ intros l c Hl Hlc. by apply Hstay.
    + (* neither block applies *)
      assert (normalizeSchema t = VObj (entries t)) as ->.
      { destruct t as [| | | | |elems|props]; try done.
        by apply normalizeSchema_other. }
      unfold object_block, array_block.
      destruct (repr_in_tests _ _ _ _ (Hread (js "type"))) as (_ & _ & Htest & _).
      rewrite Htest, Hobj, bind_Some_l, Htest.
      destruct (repr_in_tests _ _ _ _ (Hread (js "items"))) as (-> & _).
      rewrite Harr, bind_Some_l. eexists _, _. split; [done|].
      apply repr_in_obj. exists normalized, rprops.
      repeat split; [right; lia | done | done | done].
Qed.

(** Every tree is refined: a run on a representation of [t] ends, given
    enough fuel, with a representation of [normalizeSchema t]. *)
Lemma normalizeSchema_st_refines t : refines t.
Proof.
  cut (refines t ∧ Forall refines (entries t).*2); [by intros [? _]|].
  induction t as [| | | | |elems IH|props IH] using value_nested_ind;
    try (split; [apply refines_leaf; cbn [typeof_object]; by rewrite ?andb_false_r
                | constructor]).
  - split.
    + apply refines_node; [done|]. cbn [entries]. by rewrite index_entries_values.
    + cbn [entries]. rewrite index_entries_values.
      eapply Forall_impl; [exact IH|]. by intros c [? _].
  - split.
    + apply refines_node; [done|]. cbn [entries]. by apply Forall_fmap.
    + cbn [entries]. apply Forall_fmap. eapply Forall_impl; [exact IH|].
      by intros c [? _].
Qed.

End Refinement.

(** ** The store: [normalizeSchema] does not mutate its argument *)

Section NoMutation.
Context {JN : JsNumber} {JE : JsEngine}.

(** A representation only visits objects that exist. *)
Lemma repr_in_bounded F (h : list cell) t v :
  repr_in F h t v → repr_in (fun l => l < length h) h t v.
Proof.
  revert v.
  induction t as [| | | | |elems IH|props IH] using value_nested_ind; intros v;
    try done.
  - rewrite !repr_in_arr. intros (l & relems & -> & Hl & Hcell & Hall).
    exists l, relems. repeat split; [by eapply lookup_lt_Some | done |].
    clear Hcell. induction Hall as [|e r es rs He _ IHall]; [done|].
    apply Forall_cons in IH as [IHe IHes]. constructor; [by apply IHe | by apply IHall].
  - rewrite !repr_in_obj. intros (l & rprops & -> & Hl & Hcell & Hnd & Hall).
    exists l, rprops. repeat split; [by eapply lookup_lt_Some | done | done |].
    clear Hcell Hnd. induction Hall as [|p r ps rs [Hk He] _ IHall]; [done|].
    apply Forall_cons in IH as [IHe IHes].
    constructor; [split; [done | by apply IHe] | by apply IHall].
Qed.

(** C7. No mutation. Whatever the store and the fuel, a run that ends has
    only added objects to the store: every object that was there, the
    argument and all its nested sub-schemas among them, is as it was, and
    the result is the argument itself or an object the run has allocated.
    On a store where the argument stands for a tree [t], a run with enough
    fuel does end; the argument still stands for [t] afterwards and the
    result stands for [normalizeSchema t]. *)
Theorem no_mutation :
  (∀ fuel schemaNode (h : list cell) result h',
     normalizeSchema_st fuel schemaNode h = Some (result, h') →
     h `prefix_of` h'
     ∧ (result = schemaNode ∨ ∃ l, result = RRef l ∧ length h ≤ l))
  ∧ (∀ (h : list cell) t schemaNode,
       repr h t schemaNode →
       ∃ fuel result h',
         normalizeSchema_st fuel schemaNode h = Some (result, h')
         ∧ h `prefix_of` h'
         ∧ repr h' t schemaNode
         ∧ repr h' (normalizeSchema t) result).
Proof.
  split; [apply normalizeSchema_st_frame|].
  intros h t schemaNode Hrepr. apply repr_in_bounded in Hrepr.
  destruct (normalizeSchema_st_refines t) as [fuel Hfuel].
  destruct (Hfuel fuel (le_n _) _ h h schemaNode Hrepr) as (result & h' & Hrun & Hres);
    [done | done |].
  destruct (normalizeSchema_st_frame _ _ _ _ _ Hrun) as [Hframe _].
  exists fuel, result, h'. repeat split; [done | done | |].
  - eapply repr_in_transport; [exact Hrepr | done |].
    intros l c _ Hl. by eapply prefix_lookup_Some.
  - eapply repr_in_transport; [exact Hres | done | done].
Qed.

End NoMutation.

(** ** More on the tool normalizer and the name resolver *)

Section MoreToolFacts.
Context {JN : JsNumber} {JE : JsEngine}.

Lemma mapi_res_throws {A B} (f : nat → A → result B) n l :
  mapi_res f n l = TypeError ↔ ∃ i a, l !! i = Some a ∧ f (n + i) a = TypeError.
Proof.
  revert n. induction l as [|a l IH]; intros n; simpl.
  - split; [done|]. by intros (i & a & Hi & _).
  - destruct (f n a) as [b|] eqn:Hf; simpl.
    + destruct (mapi_res f (S n) l) as [bs|] eqn:Hrest; simpl.
      * split; [done|]. intros ([|i] & a' & Hi & Hthrow); simpl in Hi.
        -- injection Hi as <-. rewrite Nat.add_0_r in Hthrow. congruence.
        -- assert (∃ i a, l !! i = Some a ∧ f (S n + i) a = TypeError) as Hex.
           { exists i, a'. split; [done|].
             by replace (S n + i) with (n + S i) by lia. }
           apply IH in Hex. congruence.
      * split; [|done]. intros _. apply IH in Hrest as (i & a' & Hi & Hthrow).
        exists (S i), a'. split; [done|].
        by replace (n + S i) with (S n + i) by lia.
    + split; [|done]. intros _. exists 0, a. by rewrite Nat.add_0_r.
Qed.

Lemma convertTool_throws tool : convertTool tool = TypeError ↔ nullish tool = true.
Proof.
  unfold convertTool. destruct (nullish tool); [done|].
  by destruct (target_shaped tool).
Qed.

Lemma assign_throws key v m : assign key v m = TypeError ↔ to_string key = TypeError.
Proof. unfold assign. by destruct (to_string key). Qed.

Lemma nameMapStep_throws m tool : nameMapStep m tool = TypeError ↔ tool_throws tool.
Proof.
  unfold nameMapStep, tool_throws. destruct (nullish tool); [by split; [left|]|].
  destruct (target_shaped tool && _).
  - rewrite assign_throws. split; [by right | by intros [?|?]].
  - destruct (truthy (get tool (js "name"))).
    + destruct (assign (get tool (js "name")) _ m) as [m1|] eqn:Hname.
      * cbn [mbind result_bind].
        assert (to_string (get tool (js "name")) ≠ TypeError) as Hok.
        { intros Hthrow. unfold assign in Hname. by rewrite Hthrow in Hname. }
        destruct (truthy (get tool (js "alias"))).
        -- rewrite assign_throws. split; [by right; right|].
           by intros [?|[[_ ?]|[_ ?]]].
        -- split; [done|]. by intros [?|[[_ ?]|[? _]]].
      * cbn [mbind result_bind]. apply assign_throws in Hname.
        split; [|done]. intros _. right. by left.
    + cbn [mbind result_bind]. destruct (truthy (get tool (js "alias"))).
      * rewrite assign_throws. split; [by right; right|].
        by intros [?|[[? _]|[_ ?]]].
      * split; [done|]. by intros [?|[[? _]|[? _]]].
Qed.

Lemma nameMapLoop_throws m tools :
  nameMapLoop m tools = TypeError ↔ Exists tool_throws tools.
Proof.
  revert m. induction tools as [|tool tools IH]; intros m; simpl.
  - split; [done|]. by intros ?%Exists_nil.
  - rewrite Exists_cons. destruct (nameMapStep m tool) as [m1|] eqn:Hstep; simpl.
    + rewrite IH. split; [by right|]. intros [Hthrow|?]; [|done].
      apply (nameMapStep_throws m) in Hthrow. congruence.
    + split; [|done]. intros _. left. by apply (nameMapStep_throws m).
Qed.

Lemma convertTools_throws tools :
  convertTools tools = TypeError ↔ Exists (fun tool => nullish tool = true) tools.
Proof.
  unfold convertTools, map_res. rewrite mapi_res_throws, Exists_exists. split.
  - intros (i & tool & Hi & Hthrow). exists tool. split.
    + by eapply list_elem_of_lookup_2.
    + by apply convertTool_throws.
  - intros (tool & [i Hi]%list_elem_of_lookup & Hnull). exists i, tool.
    split; [done|]. by apply convertTool_throws.
Qed.

(** X1. [convertTools] throws exactly when the tool list has a [null] or
    [undefined] element, and otherwise returns one output per record;
    [buildToolNameMap] throws exactly when the list has such an element or
    a record with an identifier that has no conversion to a property key. *)
Theorem tool_list_errors tools :
  (convertTools tools = TypeError ↔ Exists (fun tool => nullish tool = true) tools)
  ∧ (buildToolNameMap tools = TypeError ↔ Exists tool_throws tools)
  ∧ (∀ outs, convertTools tools = Ok outs → length outs = length tools).
Proof.
  split; [|split].
  - apply convertTools_throws.
  - apply nameMapLoop_throws.
  - intros outs Hrun. by apply mapi_res_lookup in Hrun as [? _].
Qed.

Lemma convertTool_target_shaped tool out :
  convertTool tool = Ok out → target_shaped out = true.
Proof.
  unfold convertTool. destruct (nullish tool); [done|].
  destruct (target_shaped tool) eqn:Ht; by intros [= <-].
Qed.

(** X2. Whatever [convertTools] returns is in target shape, so converting
    the output again gives the output back. *)
Theorem convertTools_idempotent tools outs :
  convertTools tools = Ok outs →
  Forall (fun out => target_shaped out = true) outs ∧ convertTools outs = Ok outs.
Proof.
  intros Hrun.
  assert (Hall : Forall (fun out => target_shaped out = true) outs).
  { apply Forall_forall. intros out [i Hi]%list_elem_of_lookup.
    unfold convertTools, map_res in Hrun.
    apply mapi_res_lookup in Hrun as [Hlen Hall].
    assert (is_Some (tools !! i)) as [tool Htool].
    { apply lookup_lt_is_Some. rewrite <- Hlen. by eapply lookup_lt_Some. }
    destruct (Hall _ _ Htool) as (out' & Hout' & Hconv).
    assert (out' = out) as -> by congruence.
    by eapply convertTool_target_shaped. }
  split; [done|]. unfold convertTools, map_res.
  rewrite (mapi_res_total _ id); [by rewrite map_id|].
  eapply Forall_impl; [exact Hall|]. intros out Ht _. by apply convertTool_target.
Qed.

(** Where an own entry of the name map comes from, [__proto__] included. *)
Lemma map_set_origin k' v m k x :
  own (map_set k' v m) !! k = Some x → own m !! k = Some x ∨ (k = k' ∧ x = v).
Proof.
  unfold map_set. destruct (str_eqb k' proto_key && negb (shadowed m)).
  - destruct v; by left.
  - cbn [own]. rewrite lookup_insert. case_decide; [|by left].
    intros [= <-]. by right.
Qed.

Lemma assign_origin key v m m' k x :
  assign key v m = Ok m' → own m' !! k = Some x →
  own m !! k = Some x ∨ (k ∈ key_of key ∧ x = v).
Proof.
  unfold assign, key_of. destruct (to_string key) as [k'|]; [|done].
  intros [= <-] [?|[-> ->]]%map_set_origin; [by left|]. right. split; [by left | done].
Qed.

Lemma nameMapStep_origin m tool m' k x :
  nameMapStep m tool = Ok m' → own m' !! k = Some x →
  own m !! k = Some x ∨ (k ∈ identifiers tool ∧ x = canonical_name tool).
Proof.
  unfold nameMapStep, identifiers, canonical_name.
  destruct (nullish tool); [done|].
  destruct (target_shaped tool && truthy _).
  - apply assign_origin.
  - destruct (truthy (get tool (js "name"))).
    + destruct (assign (get tool (js "name")) _ m) as [m1|] eqn:Hname; [|done].
      cbn [mbind result_bind]. destruct (truthy (get tool (js "alias"))).
      * intros Halias Hk.
        destruct (assign_origin _ _ _ _ _ _ Halias Hk) as [Hm1|[? ->]].
        -- destruct (assign_origin _ _ _ _ _ _ Hname Hm1) as [?|[? ->]]; [by left|].
           right. split; [|done]. apply elem_of_app. by left.
        -- right. split; [|done]. apply elem_of_app. by right.
      * intros [= <-] Hk. rewrite app_nil_r. by eapply assign_origin.
    + cbn [mbind result_bind]. destruct (truthy (get tool (js "alias"))).
      * apply assign_origin.
      * intros [= <-] ?. by left.
Qed.

Lemma nameMapLoop_origin m tools m' k v :
  nameMapLoop m tools = Ok m' → own m' !! k = Some v →
  own m !! k = Some v
  ∨ ∃ tool, tool ∈ tools ∧ k ∈ identifiers tool ∧ v = canonical_name tool.
Proof.
  revert m. induction tools as [|tool tools IH]; intros m; simpl.
  - intros [= <-] ?. by left.
  - destruct (nameMapStep m tool) as [m1|] eqn:Hstep; [|done]. simpl.
    intros Hrest Hk. destruct (IH _ Hrest Hk) as [Hm1 | (t & Hin & Hid & ->)].
    + destruct (nameMapStep_origin _ _ _ _ _ Hstep Hm1) as [?|[? ->]]; [by left|].
      right. exists tool. split; [by left | done].
    + right. exists t. split; [by right | done].
Qed.

Lemma nameMapLoop_covers m tools m' k :
  nameMapLoop m tools = Ok m' → k ≠ proto_key →
  (is_Some (own m !! k) ∨ ∃ tool, tool ∈ tools ∧ k ∈ identifiers tool) →
  is_Some (own m' !! k).
Proof.
  intros Hrun Hkey. revert m Hrun. induction tools as [|tool tools IH]; intros m; simpl.
  - intros [= <-] [?|(tool & Hin & _)]; [done|]. by apply elem_of_nil in Hin.
  - destruct (nameMapStep m tool) as [m1|] eqn:Hstep; [|done]. simpl.
    intros Hrest Hk. apply (IH _ Hrest).
    destruct (decide (k ∈ identifiers tool)) as [Hid|Hid].
    + left. rewrite (nameMapStep_lookup _ _ _ k Hstep Hkey).
      by rewrite bool_decide_eq_true_2.
    + destruct Hk as [Hm | (t & [->|Hin]%elem_of_cons & Hidt)]; [|done|].
      * left. rewrite (nameMapStep_lookup _ _ _ k Hstep Hkey).
        by rewrite bool_decide_eq_false_2.
      * right. by exists t.
Qed.

Lemma canonical_name_truthy tool : truthy (canonical_name tool) = true.
Proof.
  unfold canonical_name.
  destruct (target_shaped tool && truthy _) eqn:Ht.
  - by apply andb_true_iff in Ht as [_ ?].
  - by do 2 apply or_else_truthy.
Qed.

(** X3. Under a key other than [__proto__] the name map has an own entry
    exactly when the key is an identifier of one of the records; and every
    own entry, whatever its key, is the canonical name of a record known
    under that key, hence truthy. *)
Theorem name_map_entries tools names k :
  buildToolNameMap tools = Ok names →
  (k ≠ proto_key →
   (is_Some (own names !! k) ↔ ∃ tool, tool ∈ tools ∧ k ∈ identifiers tool))
  ∧ (∀ v, own names !! k = Some v →
          truthy v = true
          ∧ ∃ tool, tool ∈ tools ∧ k ∈ identifiers tool ∧ v = canonical_name tool).
Proof.
  unfold buildToolNameMap. intros Hrun.
  assert (Horigin : ∀ v, own names !! k = Some v →
            ∃ tool, tool ∈ tools ∧ k ∈ identifiers tool ∧ v = canonical_name tool).
  { intros v Hk. destruct (nameMapLoop_origin _ _ _ _ _ Hrun Hk) as [Hempty|?]; [|done].
    cbn [empty_map own] in Hempty. by rewrite lookup_empty in Hempty. }
  split.
  - intros Hkey. split.
    + intros [v Hk]. destruct (Horigin _ Hk) as (tool & ? & ? & _). by exists tool.
    + intros Hex. apply (nameMapLoop_covers _ _ _ _ Hrun Hkey). by right.
  - intros v Hk. destruct (Horigin _ Hk) as (tool & Hin & Hid & ->).
    split; [apply canonical_name_truthy|]. by exists tool.
Qed.

(** X4. When every target-shaped record has a name, every own entry of
    the name map is the [function.name] of a converted tool. *)
Theorem name_map_consistent tools outs names k v :
  (∀ tool, tool ∈ tools → target_shaped tool = true →
           truthy (get (get tool (js "function")) (js "name")) = true) →
  convertTools tools = Ok outs → buildToolNameMap tools = Ok names →
  own names !! k = Some v →
  ∃ out, out ∈ outs ∧ get (get out (js "function")) (js "name") = v.
Proof.
  intros Hnamed Hconv Hmap Hk. unfold buildToolNameMap in Hmap.
  destruct (nameMapLoop_origin _ _ _ _ _ Hmap Hk) as [Hempty|(tool & Hin & _ & ->)].
  { cbn [empty_map own] in Hempty. by rewrite lookup_empty in Hempty. }
  apply list_elem_of_lookup in Hin as [i Hi].
  unfold convertTools, map_res in Hconv. apply mapi_res_lookup in Hconv as [_ Hall].
  destruct (Hall _ _ Hi) as (out & Hout & Hrun). exists out.
  split; [by eapply list_elem_of_lookup_2|].
  unfold convertTool in Hrun. destruct (nullish tool); [done|].
  unfold canonical_name. destruct (target_shaped tool) eqn:Ht.
  - injection Hrun as <-.
    by rewrite (Hnamed tool ltac:(by eapply list_elem_of_lookup_2) Ht).
  - by injection Hrun as <-.
Qed.

End MoreToolFacts.

(** ** More on schema normalization *)

Section MoreSchemaFacts.
Context {JN : JsNumber} {JE : JsEngine}.

Lemma set_prop_set_prop k v v' (props : list (jsstring * value)) :
  set_prop k v (set_prop k v' props) = set_prop k v props.
Proof.
  induction props as [|[k1 v1] props IH]; simpl.
  - by rewrite str_eqb_refl.
  - destruct (str_eqb k k1) eqn:Hk; simpl; rewrite Hk; [done | by rewrite IH].
Qed.

Lemma set_prop_keys_list k v (props : list (jsstring * value)) :
  (set_prop k v props).*1 = if bool_decide (k ∈ props.*1) then props.*1
                            else props.*1 ++ [k].
Proof.
  induction props as [|[k1 v1] props IH]; [done|]. cbn [set_prop].
  destruct (str_eqb k k1) eqn:Hk; rewrite !fmap_cons; cbn [fst].
  - apply str_eqb_true in Hk. subst k1. rewrite bool_decide_eq_true_2; [done | by left].
  - apply str_eqb_false in Hk. rewrite IH. case_bool_decide as Hin.
    + rewrite bool_decide_eq_true_2; [done | by right].
    + rewrite bool_decide_eq_false_2; [done|]. by intros [?|?]%elem_of_cons.
Qed.

Lemma lookup_prop_present k (props : list (jsstring * value)) :
  lookup_prop k props ≠ VUndef → k ∈ props.*1.
Proof.
  intros Hk. destruct (decide (k ∈ props.*1)) as [?|Hnot]; [done|].
  by rewrite lookup_prop_fresh in Hk.
Qed.

(** What it is for a tree to have no property named [__proto__]. *)
Lemma proto_free_object props :
  proto_free (VObj props) = true
  ↔ (proto_key ∉ props.*1) ∧ Forall (fun c => proto_free c = true) props.*2.
Proof.
  cbn [proto_free]. induction props as [|[k v] props IH].
  - split; [|done]. intros _. split; [apply not_elem_of_nil | constructor].
  - cbn [forallb fst snd]. rewrite !fmap_cons. cbn [fst snd].
    rewrite !andb_true_iff, IH, negb_true_iff, str_eqb_false, not_elem_of_cons,
      Forall_cons.
    split.
    + intros [[Hk Hv] [Hks Hvs]]. repeat split; [congruence | done..].
    + intros [[Hk Hks] [Hv Hvs]]. repeat split; [congruence | done..].
Qed.

Lemma proto_free_array elems :
  proto_free (VArr elems) = true ↔ Forall (fun c => proto_free c = true) elems.
Proof.
  cbn [proto_free]. induction elems as [|e elems IH]; [done|].
  cbn [forallb]. by rewrite andb_true_iff, IH, Forall_cons.
Qed.

Lemma proto_free_entries v :
  proto_free v = true →
  (proto_key ∉ (entries v).*1) ∧ Forall (fun c => proto_free c = true) (entries v).*2.
Proof.
  destruct v as [| | | | |elems|props]; cbn [entries];
    try (intros _; split; [apply not_elem_of_nil | constructor]).
  - intros Helems%proto_free_array. split; [|by rewrite index_entries_values].
    intros [i Hi]%index_entries_keys. symmetry in Hi. revert Hi.
    apply (dec_nat_ne_name i proto_key 95%N (js "_proto__")); [done|].
    unfold is_digit; lia.
  - by intros ?%proto_free_object.
Qed.

Lemma proto_free_lookup k props :
  proto_free (VObj props) = true → proto_free (lookup_prop k props) = true.
Proof.
  intros [_ Hall]%proto_free_object.
  destruct (lookup_prop_cases k props) as [-> | Hin]; [done|].
  by apply (proj1 (Forall_forall _ _) Hall).
Qed.

(** On a tree without a property named [__proto__], normalizing twice is
    normalizing once, at a node and at the values of its own properties. *)
Lemma normalizeSchema_twice t :
  proto_free t = true →
  normalizeSchema (normalizeSchema t) = normalizeSchema t
  ∧ Forall (fun c => normalizeSchema (normalizeSchema c) = normalizeSchema c)
      (entries t).*2.
Proof.
  induction t as [| | | | |elems IH|props IH] using value_nested_ind;
    try (split; [done | constructor]).
  - intros Hfree%proto_free_array. split.
    + simpl. apply normalizeSchema_other.
      * by rewrite (lookup_index_entries_name elems _ 116%N (js "ype"));
          [ | | unfold is_digit; lia].
      * by rewrite (lookup_index_entries_name elems _ 116%N (js "ype"));
          [ | | unfold is_digit; lia].
    + cbn [entries]. rewrite index_entries_values.
      apply Forall_forall. intros c Hc.
      apply (proj1 (Forall_forall _ _) IH c Hc), (proj1 (Forall_forall _ _) Hfree c Hc).
  - intros Hfree. pose proof (proj1 (proto_free_object props) Hfree) as [_ Hfrees].
    assert (Hvals : Forall (fun c => normalizeSchema (normalizeSchema c)
                                      = normalizeSchema c) props.*2).
    { apply Forall_forall. intros c Hc.
      apply list_elem_of_fmap in Hc as ([k1 c1] & -> & Hin).
      apply (proj1 (Forall_forall _ _) IH _ Hin).
      apply (proj1 (Forall_forall _ _) Hfrees). apply list_elem_of_fmap. by eexists. }
    split; [|exact Hvals].
    assert (Hsub : ∀ k,
               normalizeSchema (normalizeSchema (lookup_prop k props))
               = normalizeSchema (lookup_prop k props)
               ∧ Forall (fun c => normalizeSchema (normalizeSchema c) = normalizeSchema c)
                   (entries (lookup_prop k props)).*2).
    { intros k. pose proof (proto_free_lookup k _ Hfree) as Hk.
      destruct (lookup_prop_cases k props) as [Hu | Hin].
      - rewrite Hu. split; [done | constructor].
      - apply list_elem_of_fmap in Hin as ([k1 c] & Heq & Hin).
        rewrite Heq in Hk |- *.
        by apply (proj1 (Forall_forall _ _) IH _ Hin). }
    destruct (is_str (lookup_prop (js "type") props) (js "object")) eqn:Hobj.
    + apply is_str_true in Hobj. rewrite (normalizeSchema_object props) by done.
      set (p := lookup_prop (js "properties") props).
      set (g := fun kv : jsstring * value => (kv.1, normalizeSchema kv.2)).
      assert (Hplain : assigned_entries normalizeSchema (entries p) = map g (entries p)).
      { apply assigned_entries_plain, proto_free_entries, proto_free_lookup, Hfree. }
      rewrite Hplain.
      set (guard := bool_decide (entries p = [])
                    && is_false (lookup_prop (js "additionalProperties") props)).
      set (guarded := if guard
                      then set_prop (js "additionalProperties") (VBool true) props
                      else props).
      assert (Htype : lookup_prop (js "type") guarded = VStr (js "object")).
      { unfold guarded. destruct guard; [by rewrite lookup_set_prop_ne | done]. }
      rewrite normalizeSchema_object by (by rewrite lookup_set_prop_ne).
      rewrite lookup_set_prop_eq. cbn [entries].
      rewrite (lookup_set_prop_ne (js "additionalProperties")) by done.
      assert (bool_decide (map g (entries p) = [])
              && is_false (lookup_prop (js "additionalProperties") guarded) = false) as ->.
      { unfold guarded, guard. destruct (entries p); simpl; [|done].
        destruct (is_false (lookup_prop (js "additionalProperties") props)) eqn:Hf;
          simpl; [by rewrite lookup_set_prop_eq | by rewrite Hf]. }
      rewrite set_prop_set_prop. do 3 f_equal.
      rewrite assigned_entries_plain.
      * rewrite map_map. apply map_ext_Forall.
        destruct (Hsub (js "properties")) as [_ Hp]. fold p in Hp.
        apply Forall_fmap in Hp. eapply Forall_impl; [exact Hp|].
        intros [k1 c] Hc. unfold g. simpl in *. by rewrite Hc.
      * assert ((map g (entries p)).*1 = (entries p).*1) as ->.
        { unfold g. generalize (entries p). intros l.
          induction l as [|[k1 c] l IHl]; [done|]. simpl. by f_equal. }
        apply proto_free_entries, proto_free_lookup, Hfree.
    + destruct (is_str (lookup_prop (js "type") props) (js "array")
                && truthy (lookup_prop (js "items") props)) eqn:Harr.
      * apply andb_true_iff in Harr as [Htype%is_str_true Hitems].
        rewrite (normalizeSchema_array props) by done.
        rewrite normalizeSchema_array.
        -- rewrite lookup_set_prop_eq, set_prop_set_prop.
           by rewrite (proj1 (Hsub (js "items"))).
        -- by rewrite lookup_set_prop_ne.
        -- by rewrite lookup_set_prop_eq, normalizeSchema_truthy.
      * rewrite (normalizeSchema_other props) by done.
        by apply normalizeSchema_other.
Qed.

(** X5. On a schema without a property named [__proto__],
    [normalizeSchema] is idempotent. *)
Theorem normalizeSchema_idempotent schemaNode :
  proto_free schemaNode = true →
  normalizeSchema (normalizeSchema schemaNode) = normalizeSchema schemaNode.
Proof. intros Hfree. by apply normalizeSchema_twice. Qed.

(** X6. Apart from [properties], [additionalProperties] and [items], a
    normalized node has the fields of the input node with their values, and
    its keys are the input's, in order, with [properties] added last when an
    object-typed node had none. *)
Theorem normalizeSchema_keeps_fields props :
  ∃ props',
    normalizeSchema (VObj props) = VObj props'
    ∧ (∀ k, k ≠ js "properties" → k ≠ js "additionalProperties" → k ≠ js "items" →
            lookup_prop k props' = lookup_prop k props)
    ∧ (props'.*1 = props.*1
       ∨ (lookup_prop (js "type") props = VStr (js "object")
          ∧ (js "properties" ∉ props.*1)
          ∧ props'.*1 = props.*1 ++ [js "properties"])).
Proof.
  destruct (is_str (lookup_prop (js "type") props) (js "object")) eqn:Hobj.
  - apply is_str_true in Hobj. rewrite normalizeSchema_object by done.
    eexists. split; [done|]. split.
    + intros k Hp Ha Hi. rewrite lookup_set_prop_ne by done.
      case_match; [by rewrite lookup_set_prop_ne | done].
    + rewrite set_prop_keys_list.
      assert ((if bool_decide (entries (lookup_prop (js "properties") props) = [])
                  && is_false (lookup_prop (js "additionalProperties") props)
               then set_prop (js "additionalProperties") (VBool true) props
               else props).*1 = props.*1) as ->.
      { destruct (_ && _) eqn:Hg; [|done].
        apply andb_true_iff in Hg as [_ Hf%is_false_true].
        rewrite set_prop_keys_list, bool_decide_eq_true_2; [done|].
        apply lookup_prop_present. by rewrite Hf. }
      case_bool_decide; [by left | by right].
  - destruct (is_str (lookup_prop (js "type") props) (js "array")
              && truthy (lookup_prop (js "items") props)) eqn:Harr.
    + apply andb_true_iff in Harr as [Htype%is_str_true Hitems].
      rewrite normalizeSchema_array by done. eexists. split; [done|]. split.
      * intros k _ _ Hi. by rewrite lookup_set_prop_ne.
      * left. rewrite set_prop_keys_list. rewrite bool_decide_eq_true_2; [done|].
        apply lookup_prop_present. intros Hu. by rewrite Hu in Hitems.
    + rewrite normalizeSchema_other by done. exists props.
      split; [done|]. split; [done | by left].
Qed.

(** What normalization leaves as it is has only such nodes below it. *)
Lemma child_fixed l node sub :
  normalizeSchema node = node → child l node = Some sub → normalizeSchema sub = sub.
Proof.
  intros Hfix. destruct l as [key|]; simpl.
  - destruct (is_str (get node (js "type")) (js "object")) eqn:Htype; [|done].
    apply is_str_true in Htype. destruct (typed_node _ _ Htype) as [props ->].
    simpl in Htype. cbn [get]. rewrite normalizeSchema_object in Hfix by done.
    injection Hfix as Hfix.
    assert (Hp : lookup_prop (js "properties") props
                 = VObj (assigned_entries normalizeSchema
                           (entries (lookup_prop (js "properties") props)))).
    { rewrite <- Hfix at 1. apply lookup_set_prop_eq. }
    intros Hsub. pose proof Hsub as Hagain.
    rewrite Hp in Hagain at 1. cbn [entries] in Hagain.
    destruct (decide (key = proto_key)) as [->|Hkey].
    + by rewrite assoc_assigned_proto in Hagain.
    + rewrite assoc_assigned, Hsub in Hagain by done. by injection Hagain.
  - destruct (is_str (get node (js "type")) (js "array")) eqn:Htype; [|done].
    apply is_str_true in Htype. destruct (typed_node _ _ Htype) as [props ->].
    simpl in Htype. cbn [get andb].
    destruct (truthy (lookup_prop (js "items") props)) eqn:Hitems; [|done].
    intros [= <-]. rewrite normalizeSchema_array in Hfix by done.
    injection Hfix as Hfix. rewrite <- Hfix at 2. by rewrite lookup_set_prop_eq.
Qed.

Lemma descend_fixed chain root node :
  normalizeSchema root = root → descend chain root = Some node →
  normalizeSchema node = node.
Proof.
  revert root. induction chain as [|l chain IH]; intros root Hfix; simpl.
  - by intros [= <-].
  - destruct (child l root) as [sub|] eqn:Hchild; [|done]. simpl.
    apply IH. by eapply child_fixed.
Qed.

(** X7. What normalization achieves on a schema without a property named
    [__proto__]: in the normalized schema, every object-typed node that a
    chain of [properties] and [items] links leads to has a [properties]
    object, and none is a closed empty object (no properties together with
    [additionalProperties: false]). *)
Theorem normalized_schema_is_open chain root node :
  proto_free root = true →
  descend chain (normalizeSchema root) = Some node →
  get node (js "type") = VStr (js "object") →
  (∃ props, get node (js "properties") = VObj props)
  ∧ ¬ (entries (get node (js "properties")) = []
       ∧ get node (js "additionalProperties") = VBool false).
Proof.
  intros Hfree Hnode Htype.
  assert (Hfix : normalizeSchema node = node).
  { eapply descend_fixed; [|exact Hnode]. by apply normalizeSchema_twice. }
  destruct (typed_node _ _ Htype) as [props ->]. simpl in Htype.
  rewrite normalizeSchema_object in Hfix by done. split.
  - rewrite <- Hfix. cbn [get]. rewrite lookup_set_prop_eq. by eexists.
  - intros [Hempty Hfalse]. cbn [get] in Hempty, Hfalse.
    assert (Haddl : lookup_prop (js "additionalProperties") props = VBool true).
    { rewrite Hempty, Hfalse in Hfix. simpl bool_decide in Hfix.
      cbn [andb is_false] in Hfix. injection Hfix as Hfix.
      rewrite <- Hfix at 1. rewrite lookup_set_prop_ne by done.
      apply lookup_set_prop_eq. }
    congruence.
Qed.

End MoreSchemaFacts.

(** ** More on the message reconstructor *)

Section MoreMessageFacts.
Context {JN : JsNumber} {JE : JsEngine}.

Lemma map_res_throws {A B} (f : A → result B) l :
  map_res f l = TypeError ↔ Exists (fun a => f a = TypeError) l.
Proof.
  unfold map_res. rewrite mapi_res_throws, Exists_exists. split.
  - intros (i & a & Hi & Hthrow). exists a. split; [by eapply list_elem_of_lookup_2 | done].
  - intros (a & [i Hi]%list_elem_of_lookup & Hthrow). by exists i, a.
Qed.

(** The pass of [filter] returns the array when no element makes it throw. *)
Lemma checked_items items checked :
  map_res (fun item : value => if nullish item then TypeError else Ok item) items
  = Ok checked →
  checked = items.
Proof.
  unfold map_res. intros [Hlen Hall]%mapi_res_lookup.
  apply list_eq. intros i. destruct (items !! i) as [item|] eqn:Hitem.
  - destruct (Hall _ _ Hitem) as (b & -> & Hb). destruct (nullish item); [done|].
    by injection Hb as ->.
  - apply lookup_ge_None. rewrite Hlen. by apply lookup_ge_None.
Qed.

(** X8. [convertMessageContent] throws exactly on an array that has a
    [null] or [undefined] element, or a text block whose truthy text has
    no conversion to a string; on every other content it returns a
    string. *)
Theorem convertMessageContent_throws content :
  convertMessageContent content = TypeError ↔ content_throws content.
Proof.
  unfold content_throws.
  destruct content as [| |[]|n| |items|props];
    try (split; [done | by intros (? & ? & _)]).
  - cbn [convertMessageContent]. unfold or_else. cbn [truthy].
    split; [|by intros (? & ? & _)]. by destruct (number_truthy n).
  - cbn [convertMessageContent].
    destruct (map_res _ items) as [checked|] eqn:Hchk; cbn [mbind result_bind].
    + pose proof (checked_items _ _ Hchk) as ->.
      assert (Hnone : ¬ Exists (fun item => nullish item = true) items).
      { intros Hex.
        assert (map_res (fun item : value => if nullish item then TypeError else Ok item)
                  items = TypeError) as Hthrow; [|congruence].
        apply map_res_throws. eapply Exists_impl; [exact Hex|]. by intros item ->. }
      destruct (map_res _ (filter _ items)) as [texts|] eqn:Htexts;
        cbn [mbind result_bind].
      * split; [done|]. intros (items' & [= <-] & [?|Hex]); [done|].
        assert (map_res (fun item => to_string (get item (js "text")))
                  (filter (fun item => is_str (get item (js "type")) (js "text")
                                        && truthy (get item (js "text")) = true) items)
                = TypeError) as Hthrow; [|congruence].
        apply map_res_throws, Exists_exists.
        apply Exists_exists in Hex as (item & Hin & Hkept & Hthrow).
        exists item. split; [|done]. by apply list_elem_of_filter.
      * split; [|done]. intros _. exists items. split; [done|]. right.
        apply map_res_throws, Exists_exists in Htexts as (item & Hin & Hthrow).
        apply list_elem_of_filter in Hin as [Hkept Hin].
        apply Exists_exists. by exists item.
    + split; [|done]. intros _. exists items. split; [done|]. left.
      apply map_res_throws in Hchk. eapply Exists_impl; [exact Hchk|].
      intros item. cbv beta. by destruct (nullish item).
Qed.

Lemma bind_Ok_l {A B} (x : A) (f : A → result B) : Ok x ≫= f = f x.
Proof. done. Qed.

Lemma serialize_defined v : v ≠ VUndef → ∃ s, JSON_stringify v = VStr s.
Proof. unfold JSON_stringify. destruct v as [| |[]| | | |]; try done; by eexists. Qed.

Lemma or_else_not_nullish a b : nullish b = false → nullish (or_else a b) = false.
Proof.
  unfold or_else. destruct (truthy a) eqn:Ha; [|done]. intros _.
  by apply truthy_not_nullish.
Qed.

Section Run.
Variable clock : nat → nat → Z.
Variable inputMessages : list value.
Variable names : jsstring → looked_up.

(** The callback in terms of what the call carries. *)
Lemma normalizeToolCall_unfold i idx call :
  normalizeToolCall clock inputMessages names i idx call =
  if nullish call then TypeError
  else
    key ← to_string (raw_name call);
    rawName ←
      (let next := default VUndef (inputMessages !! (i + 1)) in
       if negb (found_truthy (names key)) && truthy next then
         nextContent ← convertMessageContent (get next (js "content"));
         match match_executed nextContent with
         | Some name => Ok (VStr (trim name))
         | None => Ok (raw_name call)
         end
       else Ok (raw_name call));
    key ← to_string rawName;
    Ok (ToolCall
          (or_else (get call (js "id"))
             (VStr (js "call_" ++ dec_Z (clock i idx) ++ js "_" ++ dec_nat i
                    ++ js "_" ++ dec_nat idx)))
          (or_found (names key) rawName)
          (if typeof_string (raw_args call) then raw_args call
           else JSON_stringify (or_else (raw_args call) (VObj [])))).
Proof.
  unfold normalizeToolCall, raw_name, raw_args. destruct (nullish call); [done|].
  destruct (truthy (get call (js "function")) && _);
    destruct (truthy (get call (js "name"))); reflexivity.
Qed.

Lemma raw_name_not_nullish call : nullish (raw_name call) = false.
Proof.
  unfold raw_name. destruct (truthy (get call (js "function")) && _) eqn:Hf.
  - apply andb_true_iff in Hf as [_ Hf]. by apply truthy_not_nullish.
  - destruct (truthy (get call (js "name"))) eqn:Hn; [|done].
    by apply truthy_not_nullish.
Qed.

Lemma or_found_not_nullish x v : nullish v = false → found_nullish (or_found x v) = false.
Proof.
  unfold or_found. destruct (found_truthy x) eqn:Hx; [|done]. intros _.
  destruct x as [w| |]; [|done..]. by apply truthy_not_nullish.
Qed.

(** What every normalized tool call looks like. *)
Lemma normalizeToolCall_shape i idx call c :
  normalizeToolCall clock inputMessages names i idx call = Ok c →
  truthy (call_id c) = true
  ∧ found_nullish (call_name c) = false
  ∧ ∃ s, call_arguments c = VStr s.
Proof.
  rewrite normalizeToolCall_unfold. destruct (nullish call); [done|].
  destruct (to_string (raw_name call)) as [key|]; [|done]. rewrite bind_Ok_l.
  match goal with
  | |- (?heur ≫= _) = _ → _ => destruct heur as [rawName|] eqn:Hheur; [|done]
  end.
  assert (Hname : nullish rawName = false).
  { revert Hheur. cbv zeta. case_match; [|intros [= <-]; apply raw_name_not_nullish].
    destruct (convertMessageContent _); [|done]. rewrite bind_Ok_l.
    case_match; intros [= <-]; [done | apply raw_name_not_nullish]. }
  rewrite bind_Ok_l. destruct (to_string rawName) as [key'|]; [|done].
  rewrite bind_Ok_l. intros [= <-]. cbn [call_id call_name call_arguments].
  split; [|split].
  - by apply or_else_truthy.
  - by apply or_found_not_nullish.
  - destruct (typeof_string (raw_args call)) eqn:Hs.
    + destruct (raw_args call); try done. by eexists.
    + apply serialize_defined. unfold or_else.
      destruct (truthy (raw_args call)) eqn:Ht; [|done]. intros Hu. by rewrite Hu in Ht.
Qed.

Lemma loop_body_length i msg st st' :
  loop_body clock inputMessages names i msg st = Ok st' →
  length (convertedMessages st') ≤ S (length (convertedMessages st)).
Proof.
  intros Hrun. destruct (loop_body_cases _ _ _ _ _ _ _ Hrun) as (content & _ & Hcases).
  destruct Hcases as [(calls & ->) | [(id & rest & Hq & ->) | (role & ->)]]; simpl;
    rewrite ?length_app; simpl; try lia.
  unfold emit_plain. destruct (blank content); simpl; rewrite ?length_app; simpl; lia.
Qed.

Lemma loop_length i rest st st' :
  loop clock inputMessages names i rest st = Ok st' →
  length (convertedMessages st') ≤ length (convertedMessages st) + length rest.
Proof.
  revert i st. induction rest as [|msg rest IH]; intros i st; simpl.
  - intros [= <-]. lia.
  - destruct (loop_body _ _ _ i msg st) as [st1|] eqn:Hbody; [|done]. simpl.
    intros Hrest. apply IH in Hrest. apply loop_body_length in Hbody. lia.
Qed.

(** X9. The output never has more messages than the transcript. *)
Theorem output_no_longer out :
  convertMessages clock inputMessages names = Ok out →
  length out ≤ length inputMessages.
Proof.
  unfold convertMessages.
  destruct (loop _ _ _ _ _ _) as [st|] eqn:Hloop; [|done]. intros [= <-].
  by apply loop_length in Hloop.
Qed.

(** The three ways an iteration ends, with what leads to each. *)
Lemma loop_body_branches i msg st st' :
  loop_body clock inputMessages names i msg st = Ok st' →
  ∃ content,
    convertMessageContent (get msg (js "content")) = Ok content
    ∧ ((nonempty_array (get msg (js "tool_calls")) = true
        ∧ ∃ calls,
            mapi_res (normalizeToolCall clock inputMessages names i) 0
              (elements (get msg (js "tool_calls"))) = Ok calls
            ∧ st' = State
                      (convertedMessages st
                       ++ [AssistantCalls (or_empty content) calls])
                      (pendingToolCallIds st ++ map call_id calls))
       ∨ (isValidRole (get msg (js "role")) = false
          ∧ ∃ id rest,
              pendingToolCallIds st = id :: rest ∧ st' = respond id rest content st)
       ∨ (∃ role, isValidRole role = true ∧ st' = emit_plain role content st)).
Proof.
  unfold loop_body. destruct (nullish msg); [done|].
  destruct (convertMessageContent _) as [content|]; [|done].
  rewrite bind_Ok_l.
  intros Hrun. exists content. split; [done|].
  destruct (is_str _ _ && nonempty_array _) eqn:Hcalls.
  { apply andb_true_iff in Hcalls as [_ Hne].
    destruct (mapi_res _ _ _) as [calls|] eqn:Hmap; [|done]. injection Hrun as <-.
    left. split; [done|]. by exists calls. }
  right. destruct (isValidRole (get msg (js "role"))) eqn:Hvalid.
  { injection Hrun as <-. right. by eexists. }
  assert (Hassistant : isValidRole (VStr (js "assistant")) = true) by done.
  repeat (case_match; try by (injection Hrun as <-; eauto 8)).
Qed.

Lemma mapi_res_Forall {A B} (f : nat → A → result B) (P : B → Prop) n l bs :
  (∀ i a b, f i a = Ok b → P b) → mapi_res f n l = Ok bs → Forall P bs.
Proof.
  intros Hf Hrun. apply Forall_forall. intros b [i Hi]%list_elem_of_lookup.
  apply mapi_res_lookup in Hrun as [Hlen Hall].
  assert (is_Some (l !! i)) as [a Ha].
  { apply lookup_lt_is_Some. rewrite <- Hlen. by eapply lookup_lt_Some. }
  destruct (Hall _ _ Ha) as (b' & Hb' & Hrun). eapply Hf.
  assert (b' = b) as <- by congruence. done.
Qed.

Lemma loop_body_output_ok i msg st st' :
  loop_body clock inputMessages names i msg st = Ok st' →
  Forall output_ok (convertedMessages st) →
  Forall (fun id => truthy id = true) (pendingToolCallIds st) →
  Forall output_ok (convertedMessages st')
  ∧ Forall (fun id => truthy id = true) (pendingToolCallIds st').
Proof.
  intros Hrun Hout Hpending.
  destruct (loop_body_branches _ _ _ _ Hrun) as (content & _ & Hcases).
  destruct Hcases as [(Hne & calls & Hmap & ->)
                     | [(_ & id & rest & Hq & ->) | (role & Hrole & ->)]]; simpl.
  - assert (Hcalls : Forall call_ok calls).
    { eapply mapi_res_Forall; [|exact Hmap]. intros idx call c.
      apply normalizeToolCall_shape. }
    split.
    + apply Forall_app. split; [done|]. constructor; [|done].
      split; [done|]. split; [|done]. intros ->.
      apply mapi_res_lookup in Hmap as [Hlen _].
      destruct (get msg (js "tool_calls")) as [| | | | |[|]|]; done.
    + apply Forall_app. split; [done|]. apply Forall_fmap.
      eapply Forall_impl; [exact Hcalls|]. by intros c [? _].
  - rewrite Hq in Hpending. apply Forall_cons in Hpending as [Hid Hrest].
    split; [|done]. apply Forall_app. split; [done|]. by repeat constructor.
  - unfold emit_plain. destruct (blank content); [done|]. simpl.
    split; [|done]. apply Forall_app. split; [done|]. by repeat constructor.
Qed.

Lemma loop_output_ok i rest st st' :
  loop clock inputMessages names i rest st = Ok st' →
  Forall output_ok (convertedMessages st) →
  Forall (fun id => truthy id = true) (pendingToolCallIds st) →
  Forall output_ok (convertedMessages st').
Proof.
  revert i st. induction rest as [|msg rest IH]; intros i st; simpl.
  - by intros [= <-].
  - destruct (loop_body _ _ _ i msg st) as [st1|] eqn:Hbody; [|done]. simpl.
    intros Hrest Hout Hpending.
    destruct (loop_body_output_ok _ _ _ _ Hbody Hout Hpending). by eapply IH.
Qed.

(** X10. Every message of the output has one of the six allowed roles;
    an assistant message with tool calls has at least one call, and each
    call has a truthy id, a name that is neither [null] nor [undefined] and
    arguments that are a string; a tool response carries a truthy id. *)
Theorem output_well_formed out :
  convertMessages clock inputMessages names = Ok out → Forall output_ok out.
Proof.
  unfold convertMessages.
  destruct (loop _ _ _ _ _ _) as [st|] eqn:Hloop; [|done]. intros [= <-].
  by apply loop_output_ok in Hloop.
Qed.

(** X11. A message with an allowed role, unless it is an assistant message
    with tool calls, keeps its role and never takes an id off the queue,
    whatever is pending: it is emitted as a plain message, or dropped when
    its content is blank. *)
Theorem valid_role_is_plain i msg st :
  isValidRole (get msg (js "role")) = true →
  is_str (get msg (js "role")) (js "assistant")
  && nonempty_array (get msg (js "tool_calls")) = false →
  loop_body clock inputMessages names i msg st =
  content ← convertMessageContent (get msg (js "content"));
  Ok (State
        (convertedMessages st
         ++ (if blank content then [] else [Plain (get msg (js "role")) content]))
        (pendingToolCallIds st)).
Proof.
  intros Hrole Hcalls. unfold loop_body.
  assert (nullish msg = false) as -> by (by destruct msg).
  destruct (convertMessageContent _) as [content|]; [|done].
  rewrite !bind_Ok_l.
  rewrite Hcalls, Hrole. unfold emit_plain, push. destruct st as [out pending].
  destruct (blank content); simpl; [by rewrite app_nil_r | done].
Qed.

(** *** When the reconstruction throws *)

Lemma normalizeToolCall_throws i idx call :
  normalizeToolCall clock inputMessages names i idx call = TypeError →
  nullish call = true
  ∨ to_string (raw_name call) = TypeError
  ∨ ∃ next, inputMessages !! (i + 1) = Some next
            ∧ convertMessageContent (get next (js "content")) = TypeError.
Proof.
  rewrite normalizeToolCall_unfold. destruct (nullish call); [by left|].
  destruct (to_string (raw_name call)) as [key|] eqn:Hkey; [|by right; left].
  rewrite bind_Ok_l. cbv zeta.
  destruct (negb (found_truthy (names key))
            && truthy (default VUndef (inputMessages !! (i + 1)))) eqn:Hheur.
  - destruct (inputMessages !! (i + 1)) as [next|] eqn:Hnext;
      [|by rewrite andb_false_r in Hheur].
    cbn [default].
    destruct (convertMessageContent _) as [nextContent|] eqn:Hc.
    + rewrite bind_Ok_l. destruct (match_executed nextContent); rewrite bind_Ok_l.
      * done.
      * by rewrite Hkey.
    + intros _. right. right. exists next. split; [done | exact Hc].
  - by rewrite bind_Ok_l, Hkey.
Qed.

Lemma loop_body_throws_on i msg st :
  throws_on msg → loop_body clock inputMessages names i msg st = TypeError.
Proof.
  unfold loop_body. intros [Hnull | [Hcontent | [Hcalls Hex]]].
  - by rewrite Hnull.
  - destruct (nullish msg); [done|]. by rewrite Hcontent.
  - destruct (nullish msg); [done|].
    destruct (convertMessageContent _) as [content|]; [|done].
    rewrite bind_Ok_l, Hcalls.
    assert (mapi_res (normalizeToolCall clock inputMessages names i) 0
              (elements (get msg (js "tool_calls"))) = TypeError) as ->; [|done].
    apply mapi_res_throws.
    apply Exists_exists in Hex as (call & [idx Hidx]%list_elem_of_lookup & Hcall).
    exists idx, call. split; [done|]. rewrite normalizeToolCall_unfold.
    destruct Hcall as [-> | Hname]; [done|].
    destruct (nullish call); [done|]. by rewrite Hname.
Qed.

Lemma loop_body_throws i msg st :
  loop_body clock inputMessages names i msg st = TypeError →
  throws_on msg ∨ ∃ next, inputMessages !! (i + 1) = Some next ∧ throws_on next.
Proof.
  unfold loop_body, throws_on. destruct (nullish msg); [by left; left|].
  destruct (convertMessageContent _) as [content|]; [|by left; right; left].
  rewrite bind_Ok_l.
  destruct (is_str _ _ && nonempty_array _) eqn:Hcalls.
  - destruct (mapi_res _ _ _) as [calls|] eqn:Hmap; [done|]. intros _.
    apply mapi_res_throws in Hmap as (idx & call & Hidx & Hthrow).
    apply normalizeToolCall_throws in Hthrow
      as [Hnull | [Hname | (next & Hnext & Hcontent)]].
    + left. right. right. split; [done|]. apply Exists_exists. exists call.
      split; [by eapply list_elem_of_lookup_2 | by left].
    + left. right. right. split; [done|]. apply Exists_exists. exists call.
      split; [by eapply list_elem_of_lookup_2 | by right].
    + right. exists next. split; [done|]. right. by left.
  - repeat case_match; done.
Qed.

Lemma loop_throws i rest st :
  (∀ j, rest !! j = inputMessages !! (i + j)) →
  loop clock inputMessages names i rest st = TypeError ↔ Exists throws_on rest.
Proof.
  revert i st. induction rest as [|msg rest IH]; intros i st Hrest; simpl.
  - split; [done|]. by intros ?%Exists_nil.
  - assert (Htail : ∀ j, rest !! j = inputMessages !! (S i + j)).
    { intros j. replace (S i + j) with (i + S j) by lia. by rewrite <- Hrest. }
    rewrite Exists_cons.
    destruct (loop_body _ _ _ i msg st) as [st1|] eqn:Hbody; simpl.
    + rewrite (IH _ _ Htail). split; [by right|]. intros [Hmsg|?]; [|done].
      apply (loop_body_throws_on i msg st) in Hmsg. congruence.
    + split; [|done]. intros _.
      apply loop_body_throws in Hbody as [?|(next & Hnext & Hthrow)]; [by left|].
      right. apply Exists_exists. exists next. split; [|done].
      apply list_elem_of_lookup. exists 0. rewrite (Htail 0).
      by replace (S i + 0) with (i + 1) by lia.
Qed.

(** X12. [convertMessages] throws exactly when the transcript has a
    message that is [null] or [undefined], or on whose content
    [convertMessageContent] throws, or an assistant message with a tool call
    that is [null] or [undefined] or carries a name without a conversion
    to a property key; on every other transcript it returns. *)
Theorem convertMessages_throws :
  convertMessages clock inputMessages names = TypeError
  ↔ Exists throws_on inputMessages.
Proof.
  unfold convertMessages. rewrite <- (loop_throws 0 inputMessages (State [] [])); [|done].
  by destruct (loop _ _ _ _ _ _).
Qed.

End Run.

(** *** Synthesized ids *)

Lemma dec_nat_no_underscore n : underscore ∉ dec_nat n.
Proof.
  intros Hin. pose proof (dec_nat_digits n) as Hd.
  apply (proj1 (Forall_forall _ _) Hd) in Hin. unfold is_digit, underscore in Hin. lia.
Qed.

Lemma dec_Z_no_underscore z : underscore ∉ dec_Z z.
Proof.
  unfold dec_Z.
  assert (Hu : ∀ u, underscore ∉ js (NilEmpty.string_of_uint u)).
  { induction u; cbn; try (apply not_elem_of_nil);
      apply not_elem_of_cons; (split; [done | assumption]). }
  assert (Hz : ∀ u, underscore ∉ js (NilZero.string_of_uint u)).
  { intros [|u|u|u|u|u|u|u|u|u|u]; cbn;
      try (apply not_elem_of_cons; split; [done|]; first [apply Hu | apply not_elem_of_nil]). }
  destruct (Z.to_int z) as [u|u]; cbn; [apply Hz|].
  apply not_elem_of_cons. split; [done | apply Hz].
Qed.

Lemma split_at_separator (sep : N) (a b a' b' : jsstring) :
  sep ∉ a → sep ∉ a' → a ++ sep :: b = a' ++ sep :: b' → a = a' ∧ b = b'.
Proof.
  revert a'. induction a as [|c a IH]; intros [|c' a'] Ha Ha'; simpl.
  - by intros [= ->].
  - intros [= <- _]. exfalso. apply Ha'. by left.
  - intros [= -> _]. exfalso. apply Ha. by left.
  - intros [= -> Hrest]. apply not_elem_of_cons in Ha as [_ Ha].
    apply not_elem_of_cons in Ha' as [_ Ha'].
    destruct (IH _ Ha Ha' Hrest) as [-> ->]. done.
Qed.

Lemma normalizeToolCall_id clock inputMessages names i idx call c :
  normalizeToolCall clock inputMessages names i idx call = Ok c →
  call_id c
  = or_else (get call (js "id"))
      (VStr (js "call_" ++ dec_Z (clock i idx) ++ js "_" ++ dec_nat i
             ++ js "_" ++ dec_nat idx)).
Proof.
  rewrite normalizeToolCall_unfold. destruct (nullish call); [done|].
  destruct (to_string (raw_name call)) as [key|]; [|done]. rewrite bind_Ok_l.
  match goal with
  | |- (?heur ≫= _) = _ → _ => destruct heur as [rawName|]; [|done]
  end.
  rewrite bind_Ok_l. destruct (to_string rawName) as [key'|]; [|done].
  by intros [= <-].
Qed.

(** X13. The ids made up for calls without an id tell the calls apart:
    two calls at different positions of a run get different ids, whatever
    the clock says. *)
Theorem synthesized_ids_distinct clock inputMessages names i idx call c i' idx' call' c' :
  normalizeToolCall clock inputMessages names i idx call = Ok c →
  normalizeToolCall clock inputMessages names i' idx' call' = Ok c' →
  truthy (get call (js "id")) = false →
  truthy (get call' (js "id")) = false →
  (i, idx) ≠ (i', idx') →
  call_id c ≠ call_id c'.
Proof.
  intros Hc Hc' Hid Hid' Hpos Heq.
  rewrite (normalizeToolCall_id _ _ _ _ _ _ _ Hc) in Heq.
  rewrite (normalizeToolCall_id _ _ _ _ _ _ _ Hc') in Heq.
  unfold or_else in Heq. rewrite Hid, Hid' in Heq. injection Heq as Heq.
  apply (split_at_separator underscore) in Heq as [_ Heq];
    [|apply dec_Z_no_underscore..].
  apply (split_at_separator underscore) in Heq as [Hi Hidx];
    [|apply dec_nat_no_underscore..].
  apply dec_nat_inj in Hi, Hidx. by subst.
Qed.

(** *** Names the map knows *)

(** X14. A call whose name the name map knows is renamed through the map
    and nothing else: the message that follows the call is not read, so
    the transcript changes neither the converted call nor whether
    converting it throws. *)
Theorem known_name_skips_heuristic clock names i idx call key :
  to_string (raw_name call) = Ok key →
  found_truthy (names key) = true →
  ∀ inputMessages,
    normalizeToolCall clock inputMessages names i idx call
    = normalizeToolCall clock [] names i idx call
    ∧ ∀ c, normalizeToolCall clock inputMessages names i idx call = Ok c →
           call_name c = names key.
Proof.
  intros Hkey Hknown inputMessages. rewrite !normalizeToolCall_unfold.
  destruct (nullish call); [done|].
  rewrite Hkey, !bind_Ok_l. cbv zeta. rewrite Hknown. cbn [negb andb].
  rewrite !bind_Ok_l, Hkey, !bind_Ok_l. split; [done|].
  intros c [= <-]. cbn [call_name]. unfold or_found. by rewrite Hknown.
Qed.

End MoreMessageFacts.

(** ** The pattern of the name-recovery heuristic *)

Section PatternFacts.

Lemma strip_prefix_ci_spec pat s rest :
  strip_prefix_ci pat s = Some rest
  ↔ ∃ k, s = k ++ rest ∧ fold_case <$> k = fold_case <$> pat.
Proof.
  revert s. induction pat as [|p pat IH]; intros s; cbn [strip_prefix_ci].
  - split.
    + intros [= ->]. by exists [].
    + intros (k & -> & Hk). by apply fmap_nil_inv in Hk as ->.
  - destruct s as [|c s].
    + split; [done|]. intros ([|? ?] & ? & ?); done.
    + destruct (fold_case p =? fold_case c)%N eqn:Hpc.
      * apply N.eqb_eq in Hpc. rewrite IH. split.
        -- intros (k & -> & Hk). exists (c :: k). split; [done|].
           rewrite !fmap_cons. congruence.
        -- intros ([|c' k] & Hs & Hk); [done|]. injection Hs as <- ->.
           rewrite !fmap_cons in Hk. injection Hk as _ Hk. by exists k.
      * apply N.eqb_neq in Hpc. split; [done|].
        intros ([|c' k] & Hs & Hk); [done|]. injection Hs as <- ->.
        rewrite !fmap_cons in Hk. injection Hk as Hc _. congruence.
Qed.

Lemma span_no_star_run name rest :
  star ∉ name → span_no_star (name ++ star :: rest) = (name, star :: rest).
Proof.
  induction name as [|c name IH]; simpl; [done|].
  intros [Hc Hname]%not_elem_of_cons.
  assert ((c =? star)%N = false) as -> by (apply N.eqb_neq; congruence).
  by rewrite IH.
Qed.

Lemma span_no_star_spec s a b :
  span_no_star s = (a, b) → s = a ++ b ∧ star ∉ a.
Proof.
  revert a b. induction s as [|c s IH]; intros a b; simpl.
  - intros [= <- <-]. split; [done | apply not_elem_of_nil].
  - destruct (c =? star)%N eqn:Hc.
    + intros [= <- <-]. split; [done | apply not_elem_of_nil].
    + destruct (span_no_star s) as [a' b'] eqn:Hspan. intros [= <- <-].
      destruct (IH _ _ eq_refl) as [-> Ha]. split; [done|].
      apply not_elem_of_cons. split; [|done]. apply N.eqb_neq in Hc. congruence.
Qed.

Lemma fold_case_star c : fold_case c = star → c = star.
Proof.
  unfold fold_case, star. destruct (_ && _)%N eqn:Hc; [|done].
  apply andb_true_iff in Hc as [H1%N.leb_le H2%N.leb_le]. lia.
Qed.

(** A match at the head of the text. *)
Lemma executed_at_spec s name :
  executed_at s = Some name
  ↔ ∃ keyword after,
      s = keyword ++ js "**" ++ name ++ js "**" ++ after
      ∧ fold_case <$> keyword = js "EXECUTED "
      ∧ name ≠ [] ∧ star ∉ name.
Proof.
  unfold executed_at. split.
  - destruct (strip_prefix_ci _ s) as [rest|] eqn:Hstrip; [|done]. simpl.
    apply strip_prefix_ci_spec in Hstrip as (k & -> & Hk).
    destruct (span_no_star rest) as [run after] eqn:Hspan.
    apply span_no_star_spec in Hspan as [-> Hrun].
    destruct run as [|c run]; [done|].
    destruct after as [|a [|b after]]; try done.
    destruct ((a =? star) && (b =? star))%N eqn:Hab; [|done].
    apply andb_true_iff in Hab as [->%N.eqb_eq ->%N.eqb_eq]. intros [= <-].
    do 12 (destruct k as [|? k]; try done).
    injection Hk as K1 K2 K3 K4 K5 K6 K7 K8 K9 Hs1 Hs2.
    apply fold_case_star in Hs1, Hs2. subst.
    eexists [_; _; _; _; _; _; _; _; _], after. split; [done|].
    split; [|done]. rewrite !fmap_cons, fmap_nil.
    rewrite K1, K2, K3, K4, K5, K6, K7, K8, K9. reflexivity.
  - intros (keyword & after & -> & Hk & Hne & Hstar).
    assert (strip_prefix_ci (js "Executed **")
              (keyword ++ js "**" ++ name ++ js "**" ++ after)
            = Some (name ++ js "**" ++ after)) as ->.
    { apply strip_prefix_ci_spec. exists (keyword ++ js "**").
      split; [by rewrite <- app_assoc|]. by rewrite fmap_app, Hk. }
    simpl. change (js "**" ++ after) with (star :: star :: after).
    rewrite span_no_star_run by done. by destruct name.
Qed.

Lemma match_executed_sound text name :
  match_executed text = Some name → names_executed text name.
Proof.
  assert (Hhead : ∀ s, executed_at s = Some name → names_executed s name).
  { intros s (keyword & after & ? & ? & ? & ?)%executed_at_spec.
    by exists [], keyword, after. }
  induction text as [|c text IH]; cbn [match_executed].
  - destruct (executed_at []) eqn:Hat; [|done]. intros [= ->]. by apply Hhead.
  - destruct (executed_at (c :: text)) eqn:Hat.
    + intros [= ->]. by apply Hhead.
    + intros (before & keyword & after & -> & ? & ? & ?)%IH.
      by exists (c :: before), keyword, after.
Qed.

Lemma match_executed_complete text name :
  names_executed text name → match_executed text ≠ None.
Proof.
  intros (before & keyword & after & -> & Hk & Hne & Hstar).
  assert (Hat : executed_at (keyword ++ js "**" ++ name ++ js "**" ++ after)
                = Some name) by (apply executed_at_spec; eauto 6).
  induction before as [|c before IH].
  - rewrite app_nil_l. destruct (keyword ++ _); cbn [match_executed]; by rewrite Hat.
  - rewrite <- app_comm_cons. cbn [match_executed].
    destruct (executed_at (c :: _)); [done | exact IH].
Qed.

(** X15. The pattern of the heuristic: [match_executed] yields a name only
    if the text has an occurrence of [Executed **name**] in some letter
    case, with [name] non-empty and free of stars, and it yields nothing
    exactly when the text has no such occurrence. *)
Theorem match_executed_spec text :
  (∀ name, match_executed text = Some name → names_executed text name)
  ∧ (match_executed text = None ↔ ∀ name, ¬ names_executed text name).
Proof.
  split; [intros name; apply match_executed_sound|]. split.
  - intros Hnone name Hocc. by apply match_executed_complete in Hocc.
  - intros Hno. destruct (match_executed text) as [name|] eqn:Hm; [|done].
    apply match_executed_sound in Hm. by apply Hno in Hm.
Qed.

End PatternFacts.

(** ** The generators *)

Section GeneratorFacts.
Context {JN : JsNumber} {JE : JsEngine}.

Lemma sh_read_quoted (s rest w : jsstring) words :
  apostrophe ∉ s →
  sh_read (s ++ apostrophe :: rest) true (Some w) words
  = sh_read rest false (Some (w ++ s)) words.
Proof.
  revert w. induction s as [|c s IH]; intros w Hs; simpl.
  - by rewrite app_nil_r.
  - apply not_elem_of_cons in Hs as [Hc Hs].
    assert ((c =? apostrophe)%N = false) as -> by (apply N.eqb_neq; congruence).
    unfold sh_push. simpl. rewrite IH by done. by rewrite <- app_assoc.
Qed.

Lemma escape_quotes_cons c body :
  escape_quotes (c :: body)
  = (if (c =? apostrophe)%N then [39; 92; 39; 39]%N else [c]) ++ escape_quotes body.
Proof. unfold escape_quotes. rewrite bind_cons. by destruct (c =? apostrophe)%N. Qed.

(** A shell reads the escaped body, between quotes, as the body. *)
Lemma sh_read_escaped (body rest w : jsstring) words :
  sh_read (escape_quotes body ++ apostrophe :: rest) true (Some w) words
  = sh_read rest false (Some (w ++ body)) words.
Proof.
  revert w. induction body as [|c body IH]; intros w.
  - simpl. by rewrite app_nil_r.
  - rewrite escape_quotes_cons. destruct (c =? apostrophe)%N eqn:Hc.
    + apply N.eqb_eq in Hc. subst c. simpl. unfold sh_push. simpl.
      rewrite IH. by rewrite <- app_assoc.
    + simpl. rewrite Hc. unfold sh_push. simpl. rewrite IH. by rewrite <- app_assoc.
Qed.

Lemma serialize_pretty_object gap indent props :
  ∃ s, serialize_pretty gap indent (VObj props) = Some s.
Proof. simpl. by eexists. Qed.

Ltac eval_literals :=
  repeat match goal with
         | |- context [js ?s] =>
             let x := eval vm_compute in (js s) in change (js s) with x
         end.

(** X16. The curl command is one a shell reads as intended. Provided the
    url and the host header have no single quote, a POSIX shell splits the
    command into [curl], its options and their arguments, and the argument
    of [--data] is the pretty-printed request body, character for character,
    whatever single quotes the body has. *)
Theorem curl_command_words cfg requestBody jsonBody :
  JSON_stringify_indent 4 requestBody = VStr jsonBody →
  apostrophe ∉ fullUrl cfg → apostrophe ∉ hostHeader cfg →
  ∃ command,
    generateCurlCommand cfg requestBody = Ok command
    ∧ sh_words command
      = Some [js "curl"; js "--location"; fullUrl cfg;
              js "--header"; js "Host: " ++ hostHeader cfg;
              js "--header"; js "Content-Type: application/json";
              js "--data"; jsonBody].
Proof.
  intros Hbody Hurl Hhost. unfold generateCurlCommand. rewrite Hbody.
  eexists. split; [done|]. unfold sh_words.
  revert Hurl Hhost. generalize (fullUrl cfg) (hostHeader cfg). intros url host Hurl Hhost.
  eval_literals. simpl.
  rewrite (sh_read_quoted url) by done. simpl. unfold sh_push. simpl.
  rewrite (sh_read_quoted host) by done. simpl. unfold sh_push. simpl.
  rewrite sh_read_escaped. done.
Qed.

Lemma convert_throws clock inputTools inputMessages :
  convert clock inputTools inputMessages = TypeError
  ↔ Exists tool_throws inputTools ∨ Exists throws_on inputMessages.
Proof.
  unfold convert, buildToolNameMap, convertMessages.
  destruct (convertTools inputTools) as [tools|] eqn:Htools; simpl.
  - destruct (nameMapLoop empty_map inputTools) as [names|] eqn:Hnames; simpl.
    + assert (Hok : ¬ Exists tool_throws inputTools).
      { intros Hex%(nameMapLoop_throws empty_map). congruence. }
      rewrite <- (loop_throws clock inputMessages (map_get names) 0 inputMessages
                   (State [] [])) by done.
      destruct (loop _ _ _ _ _ _); simpl.
      * split; [done|]. by intros [?|?].
      * split; [by right | done].
    + apply nameMapLoop_throws in Hnames. split; [by left | done].
  - apply convertTools_throws in Htools. split; [|done]. intros _. left.
    eapply Exists_impl; [exact Htools|]. intros tool Hnull. by left.
Qed.

(** X17. What [generateCurl] shows for a tool list and a transcript. It
    takes the exception path exactly when the tool list has a record
    [buildToolNameMap] throws on ([null], [undefined], or one with an
    identifier that has no conversion to a property key) or the transcript
    has a message the reconstruction throws on. When the conversion leaves
    no message (an empty transcript,
    or one whose messages are all dropped) it shows the "No valid messages"
    error and no request. Otherwise it shows the request built from the
    converted messages and tools: rendering the request never throws. *)
Theorem generateCurl_outcome clock cfg inputTools inputMessages :
  (generateCurl clock cfg (Some inputTools) (Some inputMessages) = ShowCaught
   ↔ Exists tool_throws inputTools ∨ Exists throws_on inputMessages)
  ∧ (∀ c, convert clock inputTools inputMessages = Ok c →
          convertedMessagesOut c = [] →
          generateCurl clock cfg (Some inputTools) (Some inputMessages)
          = ShowError
              (js "No valid messages found after conversion. Please check your input."))
  ∧ (∀ c, convert clock inputTools inputMessages = Ok c →
          convertedMessagesOut c ≠ [] →
          let requestBody :=
            generateRequestBody cfg (VArr (map message_value (convertedMessagesOut c)))
              (VArr (convertedTools c)) in
          ∃ bodyJSON curlCmd toast,
            JSON_stringify_indent 2 requestBody = VStr bodyJSON
            ∧ generateCurlCommand cfg requestBody = Ok curlCmd
            ∧ generateCurl clock cfg (Some inputTools) (Some inputMessages)
              = ShowOutput bodyJSON curlCmd
                  (generatePowerShellCommand cfg requestBody) toast).
Proof.
  assert (Hrender : ∀ n messages tools,
            ∃ s, JSON_stringify_indent n (generateRequestBody cfg messages tools)
                 = VStr s).
  { intros n messages tools. unfold JSON_stringify_indent, generateRequestBody.
    destruct (serialize_pretty_object (replicate (n `min` 10) 32%N) []
                [(js "temperature", VNum (temperature cfg));
                 (js "top_p", VNum (topP cfg));
                 (js "tool_choice", VStr (toolChoice cfg));
                 (js "messages", messages); (js "tools", tools)]) as [s ->].
    by exists s. }
  split; [|split].
  - rewrite <- (convert_throws clock). unfold generateCurl.
    destruct (convert clock inputTools inputMessages) as [c|]; [|done].
    case_bool_decide; [done|]. unfold generateCurlCommand.
    destruct (Hrender 4 (VArr (map message_value (convertedMessagesOut c)))
                (VArr (convertedTools c))) as [s ->]. done.
  - intros c Hc Hempty. unfold generateCurl. rewrite Hc, Hempty. done.
  - intros c Hc Hsome requestBody. unfold generateCurl. rewrite Hc.
    rewrite bool_decide_eq_false_2 by (by destruct (convertedMessagesOut c)).
    fold requestBody. unfold generateCurlCommand.
    destruct (Hrender 4 (VArr (map message_value (convertedMessagesOut c)))
                (VArr (convertedTools c))) as [s4 H4].
    destruct (Hrender 2 (VArr (map message_value (convertedMessagesOut c)))
                (VArr (convertedTools c))) as [s2 H2].
    fold requestBody in H4, H2. rewrite H4, H2. by eexists _, _, _.
Qed.

(** *** The lines of a pretty-printed body *)

Lemma read_lines_app fresh a b :
  read_lines fresh (a ++ b) = read_lines fresh a ≫= fun fresh' => read_lines fresh' b.
Proof.
  revert fresh. induction a as [|c a IH]; intros fresh; [done|]. simpl.
  by destruct (fresh && negb (indents_or_closes c)).
Qed.

Lemma read_lines_then fresh fresh' a b :
  read_lines fresh a = Some fresh' → read_lines fresh (a ++ b) = read_lines fresh' b.
Proof. intros Ha. by rewrite read_lines_app, Ha. Qed.

Lemma read_lines_one_line s : line_feed ∉ s → read_lines false s = Some false.
Proof.
  induction s as [|c s IH]; [done|]. intros [Hc Hs]%not_elem_of_cons. simpl.
  assert ((c =? line_feed)%N = false) as -> by (apply N.eqb_neq; congruence).
  by apply IH.
Qed.

Lemma read_lines_indent fresh s :
  Forall (fun c => c = 32%N) s → s ≠ [] → read_lines fresh s = Some false.
Proof.
  intros Hs Hne. destruct Hs as [|c s -> Hs]; [done|]. simpl.
  rewrite andb_false_r. apply read_lines_one_line.
  intros Hin. by apply (proj1 (Forall_forall _ _) Hs) in Hin.
Qed.

Lemma read_lines_join sep parts :
  read_lines false sep = Some false →
  Forall (fun part => read_lines false part = Some false) parts →
  read_lines false (join sep parts) = Some false.
Proof.
  intros Hsep. induction 1 as [|part parts Hpart Hparts IH]; [done|].
  destruct parts as [|part' parts]; [done|].
  change (join sep (part :: part' :: parts))
    with (part ++ sep ++ join sep (part' :: parts)).
  rewrite (read_lines_then false false part) by done.
  by rewrite (read_lines_then false false sep).
Qed.

Lemma unicode_escape_one_line c : line_feed ∉ unicode_escape c.
Proof.
  assert (Hhex : ∀ d, hex_digit d ≠ line_feed).
  { intros d. unfold hex_digit, line_feed. destruct (d <? 10)%N; lia. }
  unfold unicode_escape. intros Hin.
  repeat (apply elem_of_cons in Hin as [Hin|Hin];
          [first [done | by apply eq_sym, Hhex in Hin]|]).
  by apply elem_of_nil in Hin.
Qed.

Lemma escape_unit_one_line c : line_feed ∉ escape_unit c.
Proof.
  unfold escape_unit.
  repeat (match goal with |- context [if ?b then _ else _] => destruct b eqn:? end;
          [first [by apply unicode_escape_one_line
                 | intros Hin;
                   repeat (apply elem_of_cons in Hin as [Hin|Hin]; [done|]);
                   by apply elem_of_nil in Hin]|]).
  intros [Hin|Hin]%elem_of_cons; [|by apply elem_of_nil in Hin].
  subst c. done.
Qed.

Lemma quote_body_one_line s : line_feed ∉ quote_body s.
Proof.
  remember (length s) as n eqn:Hn. revert s Hn.
  induction n as [n IH] using lt_wf_ind. intros [|c s] Hn; cbn [quote_body].
  - apply not_elem_of_nil.
  - simpl in Hn. assert (Hs : line_feed ∉ quote_body s) by (apply (IH (length s)); [lia | done]).
    destruct (is_high_surrogate c) eqn:Hc.
    + destruct s as [|d s].
      * apply unicode_escape_one_line.
      * destruct (is_low_surrogate d) eqn:Hd.
        -- unfold is_high_surrogate in Hc. unfold is_low_surrogate in Hd.
           apply andb_true_iff in Hc as [Hc%N.leb_le _].
           apply andb_true_iff in Hd as [Hd%N.leb_le _].
           simpl in Hn. unfold line_feed.
           intros [Hin|[Hin|Hin]%elem_of_cons]%elem_of_cons; [lia | lia |].
           revert Hin. apply (IH (length s)); [lia | done].
        -- intros [Hin|Hin]%elem_of_app; [by apply unicode_escape_one_line in Hin | done].
    + intros [Hin|Hin]%elem_of_app; [by apply escape_unit_one_line in Hin | done].
Qed.

Lemma quote_one_line s : read_lines false (quote s) = Some false.
Proof.
  apply read_lines_one_line. unfold quote.
  intros [Hin|[Hin|Hin]%elem_of_app]%elem_of_app.
  - by apply list_elem_of_singleton in Hin.
  - by apply quote_body_one_line in Hin.
  - by apply list_elem_of_singleton in Hin.
Qed.

(** In a pretty-printed value every line but the first starts with the
    indentation or with the bracket that closes the value. *)
Lemma serialize_pretty_lines gap v :
  gap ≠ [] → Forall (fun c => c = 32%N) gap → (∀ n, line_feed ∉ number_text n) →
  ∀ indent s,
    Forall (fun c => c = 32%N) indent →
    serialize_pretty gap indent v = Some s → read_lines false s = Some false.
Proof.
  intros Hgap Hspaces Hnum.
  assert (Hinner : ∀ indent, Forall (fun c => c = 32%N) indent →
            Forall (fun c => c = 32%N) (indent ++ gap) ∧ indent ++ gap ≠ []).
  { intros indent Hindent. split; [by apply Forall_app|].
    intros [_ ?]%app_eq_nil. done. }
  assert (Hblock : ∀ indent (opening closing : N) partial,
            Forall (fun c => c = 32%N) indent →
            indents_or_closes closing = true → opening ≠ line_feed →
            closing ≠ line_feed →
            Forall (fun part => read_lines false part = Some false) partial →
            read_lines false
              ([opening] ++ [10%N] ++ (indent ++ gap)
               ++ join (js "," ++ [10%N] ++ (indent ++ gap)) partial
               ++ [10%N] ++ indent ++ [closing]) = Some false).
  { intros indent opening closing partial Hindent Hclose Hopen Hclosing Hparts.
    destruct (Hinner _ Hindent) as [Hin Hne].
    assert (Hsep : read_lines false (js "," ++ [10%N] ++ (indent ++ gap)) = Some false).
    { rewrite (read_lines_then false false (js ",")) by done.
      rewrite (read_lines_then false true [10%N]) by done.
      by apply read_lines_indent. }
    assert (Hlast : read_lines true (indent ++ [closing]) = Some false).
    { destruct indent as [|c indent].
      - simpl. rewrite Hclose. simpl. by apply N.eqb_neq in Hclosing as ->.
      - rewrite (read_lines_then true false (c :: indent))
          by (by apply read_lines_indent).
        simpl. by apply N.eqb_neq in Hclosing as ->. }
    rewrite (read_lines_then false false [opening])
      by (simpl; by apply N.eqb_neq in Hopen as ->).
    rewrite (read_lines_then false true [10%N]) by done.
    rewrite (read_lines_then true false (indent ++ gap))
      by (by apply read_lines_indent).
    rewrite (read_lines_then false false (join _ partial))
      by (by apply read_lines_join).
    by rewrite (read_lines_then false true [10%N]). }
  induction v as [| |[]|n|str|elems IH|props IH] using value_nested_ind;
    intros indent s Hindent; cbn [serialize_pretty]; try done.
  - by intros [= <-].
  - by intros [= <-].
  - by intros [= <-].
  - intros [= <-]. by apply read_lines_one_line.
  - intros [= <-]. apply quote_one_line.
  - intros [= <-]. destruct (Hinner _ Hindent) as [Hin Hne].
    case_bool_decide; [done|]. rewrite bool_decide_eq_false_2 by done.
    apply (Hblock indent 91%N 93%N); try done.
    apply Forall_fmap, Forall_forall. intros e He.
    pose proof (proj1 (Forall_forall _ _) IH _ He) as Hrec. simpl.
    destruct (serialize_pretty gap (indent ++ gap) e) as [text|] eqn:He'; [|done].
    by eapply Hrec.
  - intros [= <-]. destruct (Hinner _ Hindent) as [Hin Hne].
    case_bool_decide; [done|]. rewrite bool_decide_eq_false_2 by done.
    apply (Hblock indent 123%N 125%N); try done.
    apply Forall_forall. intros part ([k c] & Hkv & Hpart)%list_elem_of_omap.
    pose proof (proj1 (Forall_forall _ _) IH _ Hkv) as Hrec. simpl in Hpart, Hrec.
    destruct (serialize_pretty gap (indent ++ gap) c) as [text|] eqn:Hc; [|done].
    injection Hpart as <-.
    change (read_lines false (quote k ++ js ":" ++ js " " ++ text) = Some false).
    rewrite (read_lines_then false false (quote k)) by apply quote_one_line.
    rewrite (read_lines_then false false (js ":")) by done.
    rewrite (read_lines_then false false (js " ")) by done.
    by eapply Hrec.
Qed.

(** X18. The PowerShell command carries the request body, printed with an
    indentation of two, in a here-string. No line of the body begins with a
    single quote, so no line of the body is read as the end of the
    here-string, whatever the texts of the request are. *)
Theorem powershell_here_string cfg props :
  (∀ n, line_feed ∉ number_text n) →
  ∃ jsonBody before after,
    JSON_stringify_indent 2 (VObj props) = VStr jsonBody
    ∧ generatePowerShellCommand cfg (VObj props)
      = before ++ js "@'" ++ newline ++ jsonBody ++ newline ++ js "'@" ++ after
    ∧ head jsonBody ≠ Some apostrophe
    ∧ ∀ pre post, jsonBody ≠ pre ++ newline ++ apostrophe :: post.
Proof.
  intros Hnum. unfold generatePowerShellCommand, JSON_stringify_indent.
  destruct (serialize_pretty_object (replicate (2 `min` 10) 32%N) [] props)
    as [jsonBody Hbody].
  rewrite Hbody. cbn [from_option to_string].
  assert (Hlines : read_lines false jsonBody = Some false).
  { eapply (serialize_pretty_lines _ (VObj props)); [..|exact Hbody]; try done.
    by repeat constructor. }
  exists jsonBody,
    (js "$headers = @{" ++ newline
     ++ js "    " ++ dquote ++ js "Host" ++ dquote ++ js " = " ++ dquote
     ++ hostHeader cfg ++ dquote ++ newline
     ++ js "    " ++ dquote ++ js "Content-Type" ++ dquote ++ js " = " ++ dquote
     ++ js "application/json" ++ dquote ++ newline
     ++ js "}" ++ newline ++ newline ++ js "$body = "),
    (newline ++ newline ++ js "Invoke-RestMethod -Uri " ++ dquote ++ fullUrl cfg
     ++ dquote ++ js " -Method Post -Headers $headers -Body $body").
  split; [reflexivity|]. split; [|split].
  - rewrite <- !app_assoc. reflexivity.
  - cbn [serialize_pretty] in Hbody. injection Hbody as <-.
    case_bool_decide; intros Hhead; cbn [head] in Hhead; by injection Hhead.
  - intros pre post ->. rewrite read_lines_app in Hlines.
    destruct (read_lines false pre) as [fresh|]; [|done].
    rewrite bind_Some_l in Hlines. unfold newline in Hlines. simpl in Hlines.
    by destruct (fresh && _) in Hlines.
Qed.

End GeneratorFacts.

(** ** The properties on concrete inputs *)

Section Scenarios.
Import Scenario.
Local Existing Instance Z_number.
Local Existing Instance es2023.

(** Scenario A: the alias becomes the name and the guardrail applies. *)
Example scenario_A :
  convertTools [legacy_tool]
  = Ok [obj [("type", str "function");
             ("function",
              obj [("name", str "web_search"); ("description", str "d");
                   ("parameters",
                    obj [("type", str "object"); ("properties", obj []);
                         ("additionalProperties", VBool true)])])]]%string
  ∧ buildToolNameMap [legacy_tool] = Ok names.
Proof. split; reflexivity. Qed.

(** Scenario B: the call is renamed through the name map, its arguments are
    serialized, and the response carries the id of the call. *)
Example scenario_B :
  convertMessages clock0 transcript (map_get names)
  = Ok [AssistantCalls []
          [ToolCall (str "call_0_0_0") (Parsed (str "web_search"))
             (VStr (js "{" ++ quote (js "q") ++ js ":" ++ quote (js "x") ++ js "}"))];
        ToolResponse (str "call_0_0_0") (js "result")].
Proof. vm_compute. reflexivity. Qed.

(** Scenario C: text blocks are joined by newlines. *)
Example scenario_C :
  convertMessageContent
    (VArr [obj [("type", str "text"); ("text", str "hello")];
           obj [("type", str "text"); ("text", str "world")]]%string)
  = Ok (js "hello" ++ [10%N] ++ js "world").
Proof. reflexivity. Qed.

(** Scenario D: an unknown role with nothing pending becomes "assistant". *)
Example scenario_D :
  convertMessages clock0
    [obj [("role", str "unknown_role"); ("content", str "hi")]%string]
    (map_get empty_map)
  = Ok [Plain (str "assistant") (js "hi")].
Proof. reflexivity. Qed.

(** The name-recovery heuristic: the call is logged under a node label and
    the next message names the tool that ran. *)
Example executed_heuristic :
  convertMessages clock0
    [obj [("role", str "assistant");
          ("tool_calls", VArr [obj [("id", str "c1"); ("name", str "node_7")]])];
     obj [("role", str "log"); ("content", str "executed **search** in 3ms")]]%string
    (map_get names)
  = Ok [AssistantCalls []
          [ToolCall (str "c1") (Parsed (str "web_search")) (VStr (js "{}"))];
        ToolResponse (str "c1") (js "executed **search** in 3ms")].
Proof. vm_compute. reflexivity. Qed.

(** C4. Recursive coverage fails at a property named [__proto__]: the
    assignment [normalizedProps[key] = ...] stores nothing under that key,
    so the sub-schema is missing from the result, and an object-typed node
    that declares no other property is left closed and empty. *)
Theorem proto_property_lost :
  descend [InProperty proto_key] proto_schema = Some closed_empty
  ∧ get closed_empty (js "type") = VStr (js "object")
  ∧ descend [InProperty proto_key] (normalizeSchema proto_schema) = None
  ∧ get (normalizeSchema proto_schema) (js "properties") = VObj []
  ∧ get (normalizeSchema proto_schema) (js "additionalProperties")
    = VBool false.
Proof. repeat split; reflexivity. Qed.


(** An inherited member answers for a name the map does not have: the call
    is renamed to a built-in function, which the request leaves out. *)
Example inherited_name :
  convertMessages clock0
    [obj [("role", str "assistant");
          ("tool_calls", VArr [obj [("id", str "c1"); ("name", str "constructor")]])]]%string
    (map_get names)
  = Ok [AssistantCalls []
          [ToolCall (str "c1") (Builtin (js "constructor")) (VStr (js "{}"))]].
Proof. vm_compute. reflexivity. Qed.

(** A transcript that repeats a call id hands the id to two responses:
    both calls are emitted under the id ["a"], and each of the two results
    takes it from the queue. *)
Lemma repeated_id_consumed_twice :
  convertMessages clock0 repeated_id_transcript (map_get names)
  = Ok [AssistantCalls [] [ToolCall (str "a") (Parsed (str "web_search")) (VStr (js "{}"))];
        ToolResponse (str "a") (js "result");
        AssistantCalls [] [ToolCall (str "a") (Parsed (str "web_search")) (VStr (js "{}"))];
        ToolResponse (str "a") (js "result")]
  ∧ ¬ (∀ clock transcript (toolNameMap : jsstring → looked_up) out,
         convertMessages clock transcript toolNameMap = Ok out →
         NoDup (consumed_ids out)).
Proof.
  split; [vm_compute; reflexivity|].
  intros Hclaim.
  destruct (convertMessages clock0 repeated_id_transcript (map_get names))
    as [out|] eqn:Hrun; [|by vm_compute in Hrun].
  pose proof (Hclaim _ _ _ _ Hrun) as Hnd.
  vm_compute in Hrun. injection Hrun as <-.
  apply NoDup_cons in Hnd as [Hnot _]. apply Hnot. by left.
Qed.

(** Scenario B run through the queue: the response carries the id of the
    call before it, and no id is taken twice. *)
Lemma queue_pairing_witness :
  ∃ out,
    convertMessages clock0 transcript (map_get names) = Ok out
    ∧ (∀ n, consumed_ids (take n out) `prefix_of` pushed_ids (take n out))
    ∧ NoDup (consumed_ids out).
Proof.
  destruct (convertMessages clock0 transcript (map_get names)) as [out|] eqn:Hrun;
    [|by vm_compute in Hrun].
  exists out. split; [done|].
  destruct (queue_pairing clock0 transcript (map_get names) out Hrun)
    as (Hprefix & _ & _ & Hnd).
  split; [exact Hprefix|]. apply Hnd.
  vm_compute in Hrun. injection Hrun as <-. vm_compute. repeat constructor; set_solver.
Defined.

(** A target-shaped record with an empty name and [null] parameters goes
    through as it is, so the invariant of the data model fails on it. *)
Lemma normalized_tool_invariant_fails :
  ¬ (∀ tools outs, convertTools tools = Ok outs → Forall normalized_tool_ok outs).
Proof.
  intros Hclaim.
  specialize (Hclaim [bare_target_tool] [bare_target_tool] eq_refl).
  apply Forall_cons in Hclaim as [[(s & Hname & Hs) _] _].
  vm_compute in Hname. by injection Hname as <-.
Qed.

Lemma legacy_tool_invariant_witness :
  ∃ out,
    convertTools [legacy_tool] = Ok [out]
    ∧ truthy (get (get out (js "function")) (js "name")) = true
    ∧ nullish (get (get out (js "function")) (js "parameters")) = false.
Proof.
  eexists. split; [vm_compute; reflexivity|].
  pose proof (legacy_tool_invariant [legacy_tool] _ 0 legacy_tool _
                eq_refl eq_refl eq_refl eq_refl) as (Hname & Hparams & _).
  by split.
Defined.

Lemma guardrail_witness :
  get (normalizeSchema closed_empty) (js "additionalProperties") = VBool true.
Proof. by apply (guardrail closed_empty). Defined.

Lemma recursive_coverage_witness :
  descend [InProperty (js "list"); InItems] nested_schema = Some closed_empty
  ∧ descend [InProperty (js "list"); InItems] (normalizeSchema nested_schema)
    = Some (normalizeSchema closed_empty)
  ∧ get (normalizeSchema closed_empty) (js "additionalProperties") = VBool true.
Proof.
  split; [reflexivity|].
  destruct (recursive_coverage [InProperty (js "list"); InItems] nested_schema
              closed_empty) as (Hpath & Hflip & _).
  - repeat constructor; intros Heq; by vm_compute in Heq.
  - reflexivity.
  - reflexivity.
  - split; [exact Hpath | by apply Hflip].
Defined.

(** A call without an id gets the reading of the clock into its id. *)
Lemma clock_dependence :
  convert clock0 [] transcript ≠ convert clock1 [] transcript.
Proof. vm_compute. intros Heq. by injection Heq. Qed.

(** Two clocks that differ at the call with an id and agree at the call
    without one. *)
Lemma deterministic_up_to_clock_witness :
  clock_a 0 0 ≠ clock_b 0 0
  ∧ convert clock_a [legacy_tool] mixed_transcript
    = convert clock_b [legacy_tool] mixed_transcript.
Proof.
  split; [done|].
  apply (proj1 (deterministic_up_to_clock [legacy_tool] mixed_transcript)).
  intros [|[|i]] [|[|idx]] msg call Hi Hidx Hid; simpl in Hi; try done;
    injection Hi as <-; simpl in Hidx; try done; injection Hidx as <-;
    first [reflexivity | by vm_compute in Hid].
Defined.

Lemma pass_through_witness :
  convertTools [legacy_tool; target_tool] ≫= (fun outs => Ok (outs !! 1))
  = Ok (Some target_tool)
  ∧ convertTools [target_tool] = Ok [target_tool].
Proof.
  split.
  - destruct (convertTools [legacy_tool; target_tool]) as [outs|] eqn:Hrun; [|done].
    simpl. f_equal.
    by apply (proj1 (pass_through [legacy_tool; target_tool]) outs 1 target_tool).
  - apply (proj2 (pass_through [target_tool])). by repeat constructor.
Defined.

Lemma no_mutation_witness :
  ∃ result h',
    normalizeSchema_st 4 (RRef 4) store = Some (result, h')
    ∧ store `prefix_of` h'.
Proof.
  eexists _, _. split; [vm_compute; reflexivity|].
  refine (proj1 (proj1 no_mutation 4 (RRef 4) store _ _ _)). vm_compute. reflexivity.
Defined.

Lemma content_drop_witness :
  loop_body clock0 [blank_message] (map_get names) 0 blank_message (State [] [])
  = Ok (State [] []).
Proof.
  destruct (loop_body clock0 [blank_message] (map_get names) 0 blank_message (State [] []))
    as [st'|] eqn:Hrun; [|done].
  destruct (proj1 (content_drop clock0 [blank_message] (map_get names)) 0 blank_message
              (State [] []) st' (js "  ") Hrun eq_refl eq_refl)
    as [-> | [(id & rest & Hq & _) | (calls & ->)]]; [done | done |].
  vm_compute in Hrun. done.
Defined.

Lemma last_wins_witness :
  ∃ m, buildToolNameMap [legacy_tool; renamed_tool] = Ok m
       ∧ own m !! js "search" = Some (str "find").
Proof.
  eexists. split; [reflexivity|].
  apply (last_wins [legacy_tool; renamed_tool] _ 1 renamed_tool (js "search"));
    [reflexivity | by intros Heq; vm_compute in Heq | reflexivity | by left |].
  intros j later Hj Hlater. apply lookup_lt_Some in Hlater. simpl in Hlater. lia.
Defined.

Lemma tool_role_is_plain_witness :
  loop_body clock0 [tool_message] (map_get names) 0 tool_message (State [] [str "call_1"])
  = Ok (State [Plain (str "tool") (js "done")] [str "call_1"]).
Proof. apply (tool_role_is_plain clock0 [tool_message] (map_get names) 0 tool_message). reflexivity. Defined.

End Scenarios.

(** ** The further properties on concrete inputs *)

Section MoreScenarios.
Import Scenario.
Local Existing Instance Z_number.
Local Existing Instance es2023.

Lemma dec_Z_chars z : Forall (fun c => is_digit c ∨ c = 45%N) (dec_Z z).
Proof.
  unfold dec_Z, is_digit.
  assert (Hu : ∀ u, Forall (fun c => (48 ≤ c ≤ 57)%N ∨ c = 45%N)
                      (js (NilEmpty.string_of_uint u))).
  { induction u; cbn; constructor; first [left; lia | assumption]. }
  assert (Hz : ∀ u, Forall (fun c => (48 ≤ c ≤ 57)%N ∨ c = 45%N)
                      (js (NilZero.string_of_uint u))).
  { intros [|u|u|u|u|u|u|u|u|u|u]; cbn; constructor;
      first [left; lia | apply Hu | constructor]. }
  destruct (Z.to_int z) as [u|u]; cbn; [apply Hz|].
  constructor; [by right | apply Hz].
Qed.

Lemma dec_Z_one_line z : line_feed ∉ dec_Z z.
Proof.
  intros Hin. apply (proj1 (Forall_forall _ _) (dec_Z_chars z)) in Hin.
  unfold is_digit, line_feed in Hin. lia.
Qed.

Lemma tool_list_errors_witness :
  convertTools [legacy_tool; VNull] = TypeError
  ∧ convertTools [unprintable_tool] ≠ TypeError
  ∧ buildToolNameMap [legacy_tool; unprintable_tool] = TypeError.
Proof.
  destruct (tool_list_errors [legacy_tool; VNull]) as (Hnull & _ & _).
  destruct (tool_list_errors [unprintable_tool]) as (Hconv & _ & _).
  destruct (tool_list_errors [legacy_tool; unprintable_tool]) as (_ & Hmap & _).
  split; [|split].
  - apply Hnull. apply Exists_cons_tl, Exists_cons_hd. reflexivity.
  - intros Hthrow%Hconv. apply Exists_cons in Hthrow as [?|Hnil%Exists_nil]; done.
  - apply Hmap. apply Exists_cons_tl, Exists_cons_hd. right. left. by split.
Defined.

Lemma convertTools_idempotent_witness :
  ∃ outs, convertTools [legacy_tool] = Ok outs ∧ convertTools outs = Ok outs.
Proof.
  eexists. split; [vm_compute; reflexivity|].
  refine (proj2 (convertTools_idempotent [legacy_tool] _ _)). vm_compute. reflexivity.
Defined.

Lemma name_map_entries_witness :
  buildToolNameMap [legacy_tool] = Ok names
  ∧ ∃ tool, tool ∈ [legacy_tool] ∧ js "search" ∈ identifiers tool.
Proof.
  split; [reflexivity|].
  apply (proj1 (name_map_entries [legacy_tool] names (js "search") eq_refl)).
  - intros Heq. by vm_compute in Heq.
  - eexists. vm_compute. reflexivity.
Defined.

Lemma name_map_consistent_witness :
  ∃ outs out,
    convertTools [legacy_tool] = Ok outs ∧ out ∈ outs
    ∧ get (get out (js "function")) (js "name") = str "web_search".
Proof.
  destruct (convertTools [legacy_tool]) as [outs|] eqn:Hconv; [|by vm_compute in Hconv].
  destruct (name_map_consistent [legacy_tool] outs names (js "search") (str "web_search"))
    as (out & Hin & Hname).
  - intros tool ->%list_elem_of_singleton Hshape. by vm_compute in Hshape.
  - done.
  - reflexivity.
  - reflexivity.
  - by exists outs, out.
Defined.

Lemma normalizeSchema_idempotent_witness :
  normalizeSchema (normalizeSchema nested_schema) = normalizeSchema nested_schema.
Proof. apply (normalizeSchema_idempotent nested_schema). reflexivity. Defined.

Lemma normalizeSchema_keeps_fields_witness :
  get (normalizeSchema closed_empty) (js "type") = str "object".
Proof.
  destruct (normalizeSchema_keeps_fields (entries closed_empty))
    as (props' & Hrun & Hkeep & _).
  change (VObj (entries closed_empty)) with closed_empty in Hrun.
  rewrite Hrun. cbn [get]. rewrite Hkeep; [reflexivity|..];
    intros Heq; by vm_compute in Heq.
Defined.

Lemma normalized_schema_is_open_witness :
  ∃ props, get (normalizeSchema closed_empty) (js "properties") = VObj props.
Proof.
  refine (proj1 (normalized_schema_is_open [InProperty (js "list"); InItems]
                   nested_schema (normalizeSchema closed_empty) _ _ _));
    vm_compute; reflexivity.
Defined.

Lemma convertMessageContent_throws_witness :
  convertMessageContent (VArr [str "text"; VNull]) = TypeError
  ∧ convertMessageContent (VArr [unprintable_block]) = TypeError.
Proof.
  split.
  - apply (proj2 (convertMessageContent_throws (VArr [str "text"; VNull]))).
    eexists. split; [reflexivity|]. left. apply Exists_cons_tl, Exists_cons_hd.
    reflexivity.
  - apply (proj2 (convertMessageContent_throws (VArr [unprintable_block]))).
    eexists. split; [reflexivity|]. right. apply Exists_cons_hd. by split.
Defined.

Lemma output_no_longer_witness :
  ∃ out, convertMessages clock0 transcript (map_get names) = Ok out ∧ length out ≤ 2.
Proof.
  eexists. split; [vm_compute; reflexivity|].
  apply (output_no_longer clock0 transcript (map_get names)). vm_compute. reflexivity.
Defined.

Lemma output_well_formed_witness :
  ∃ out, convertMessages clock0 transcript (map_get names) = Ok out ∧ Forall output_ok out.
Proof.
  eexists. split; [vm_compute; reflexivity|].
  apply (output_well_formed clock0 transcript (map_get names)). vm_compute. reflexivity.
Defined.

Lemma valid_role_is_plain_witness :
  loop_body clock0 [blank_message] (map_get names) 0 blank_message (State [] [str "call_1"])
  = Ok (State [] [str "call_1"]).
Proof.
  etrans.
  - apply (valid_role_is_plain clock0 [blank_message] (map_get names) 0 blank_message);
      reflexivity.
  - reflexivity.
Defined.

Lemma convertMessages_throws_witness :
  convertMessages clock0 [call_message; VNull] (map_get names) = TypeError
  ∧ convertMessages clock0 [unprintable_call_message] (map_get names) = TypeError.
Proof.
  split.
  - apply (proj2 (convertMessages_throws clock0 [call_message; VNull] (map_get names))).
    apply Exists_cons_tl, Exists_cons_hd. by left.
  - apply (proj2 (convertMessages_throws clock0 [unprintable_call_message]
                    (map_get names))).
    apply Exists_cons_hd. right. right. split; [reflexivity|].
    apply Exists_cons_hd. by right.
Defined.

Lemma synthesized_ids_distinct_witness :
  ∃ c c',
    normalizeToolCall clock0 [] (map_get names) 0 0 bare_call = Ok c
    ∧ normalizeToolCall clock0 [] (map_get names) 0 1 bare_call = Ok c'
    ∧ call_id c ≠ call_id c'.
Proof.
  eexists _, _. split; [vm_compute; reflexivity|]. split; [vm_compute; reflexivity|].
  apply (synthesized_ids_distinct clock0 [] (map_get names) 0 0 bare_call _
           0 1 bare_call _);
    [vm_compute; reflexivity | vm_compute; reflexivity | reflexivity | reflexivity
    | done].
Defined.

Lemma match_executed_spec_witness :
  names_executed (js "executed **search** in 3ms") (js "search").
Proof.
  apply (proj1 (match_executed_spec (js "executed **search** in 3ms"))).
  vm_compute. reflexivity.
Defined.

Lemma curl_command_words_witness :
  ∃ command jsonBody,
    JSON_stringify_indent 4 request0 = VStr jsonBody
    ∧ generateCurlCommand config0 request0 = Ok command
    ∧ sh_words command
      = Some [js "curl"; js "--location"; fullUrl config0;
              js "--header"; js "Host: api.openai.com";
              js "--header"; js "Content-Type: application/json";
              js "--data"; jsonBody].
Proof.
  assert (∃ jsonBody, JSON_stringify_indent 4 request0 = VStr jsonBody)
    as [jsonBody Hbody] by (eexists; vm_compute; reflexivity).
  destruct (curl_command_words config0 request0 jsonBody Hbody)
    as (command & Hcommand & Hwords).
  - apply (bool_decide_unpack _). vm_compute. exact I.
  - apply (bool_decide_unpack _). vm_compute. exact I.
  - by exists command, jsonBody.
Defined.

Lemma generateCurl_outcome_witness :
  generateCurl clock0 config0 (Some [unprintable_tool]) (Some transcript) = ShowCaught.
Proof.
  apply (proj2 (proj1 (generateCurl_outcome clock0 config0 [unprintable_tool]
                         transcript))).
  left. apply Exists_cons_hd. right. left. by split.
Defined.

Lemma known_name_skips_heuristic_witness :
  normalizeToolCall clock0 transcript (map_get names) 0 0 bare_call
  = normalizeToolCall clock0 [] (map_get names) 0 0 bare_call.
Proof.
  refine (proj1 (known_name_skips_heuristic clock0 (map_get names) 0 0 bare_call
                   (js "search") _ _ transcript)); reflexivity.
Defined.

Lemma powershell_here_string_witness :
  ∃ jsonBody,
    JSON_stringify_indent 2 request0 = VStr jsonBody
    ∧ ∀ pre post, jsonBody ≠ pre ++ newline ++ apostrophe :: post.
Proof.
  destruct (powershell_here_string config0 (entries request0))
    as (jsonBody & before & after & Hbody & _ & _ & Hlines).
  - intros n. apply dec_Z_one_line.
  - by exists jsonBody.
Defined.

End MoreScenarios.
